(** * The image cache of docker-marina: a shallow embedding

    The Go packages [daemon/cache] (cache engines and their factory) and
    [daemon/images] (the legacy cache driver factory) are embedded as
    state-passing functions.  The image service, the layer store and the
    file system are collaborators: they are an interface ([ImageService])
    whose operations take and return the collaborator state.  Loops that
    the source does not bound take a fuel argument that counts iterations. *)

From stdpp Require Import gmap strings list fin_maps.
From Stdlib Require Import ZArith Lia Ascii.

Local Open Scope Z_scope.

(** ** Go values *)

(** [int64] arithmetic wraps around. *)
Definition wrap64 (z : Z) : Z := (z + 2 ^ 63) mod 2 ^ 64 - 2 ^ 63.
Definition add64 (a b : Z) : Z := wrap64 (a + b).
Definition sub64 (a b : Z) : Z := wrap64 (a - b).

(** [strings.ToLower] on the ASCII range. *)
Definition lower_ascii (c : Ascii.ascii) : Ascii.ascii :=
  let n := Ascii.N_of_ascii c in
  if ((65 <=? n) && (n <=? 90))%N then Ascii.ascii_of_N (n + 32) else c.

Fixpoint ToLower (s : string) : string :=
  match s with
  | EmptyString => EmptyString
  | String c s' => String (lower_ascii c) (ToLower s')
  end.

Fixpoint HasPrefix (s p : string) : bool :=
  match p, s with
  | EmptyString, _ => true
  | String _ _, EmptyString => false
  | String a p', String b s' => if Ascii.eqb a b then HasPrefix s' p' else false
  end.

(** [strings.Contains]. *)
Fixpoint Contains (s sub : string) : bool :=
  HasPrefix s sub ||
  match s with
  | EmptyString => false
  | String _ s' => Contains s' sub
  end.

(** The test the eviction loops apply to an error message. *)
Definition mentions (msg what : string) : bool := Contains (ToLower msg) what.

(** How a call that may loop or crash ends. *)
Inductive outcome (A : Type) : Type :=
| Done (a : A)
| Panic
| OutOfFuel.
Arguments Done {A} a.
Arguments Panic {A}.
Arguments OutOfFuel {A}.

(** One turn of a [for] loop: go round again, leave the function, or crash. *)
Inductive turn (A : Type) : Type :=
| Continue (a : A)
| Return (a : A)
| Crash.
Arguments Continue {A} a.
Arguments Return {A} a.
Arguments Crash {A}.

(** ** [container/list]

    An element is a pointer; it is modelled by a number.  [cells] holds the
    value of every element ever pushed (an element taken out of the list is
    still reachable through a pointer kept elsewhere), [order] the elements
    linked in the list, front first. *)
Module GoList.
Definition Element := nat.

Record List (V : Type) : Type := mkList {
  order : list Element;
  cells : gmap nat V;
  fresh : nat
}.
Arguments mkList {V} order cells fresh.
Arguments order {V} l.
Arguments cells {V} l.
Arguments fresh {V} l.

Definition New {V : Type} : List V := mkList [] ∅ 0%nat.

Definition Len {V : Type} (l : List V) : nat := length (order l).

Definition Back {V : Type} (l : List V) : option Element := last (order l).

Definition Value {V : Type} (l : List V) (e : Element) : option V := cells l !! e.

Definition linked {V : Type} (l : List V) (e : Element) : bool :=
  bool_decide (e ∈ order l).

Definition unlink (e : Element) (es : list Element) : list Element :=
  filter (λ x, x ≠ e) es.

Definition PushFront {V : Type} (l : List V) (v : V) : List V * Element :=
  (mkList (fresh l :: order l) (<[fresh l := v]> (cells l)) (S (fresh l)), fresh l).

(** [Remove] and [MoveToFront] do nothing for an element that is not
    linked in this list. *)
Definition Remove {V : Type} (l : List V) (e : Element) : List V :=
  mkList (unlink e (order l)) (cells l) (fresh l).

Definition MoveToFront {V : Type} (l : List V) (e : Element) : List V :=
  if linked l e then mkList (e :: unlink e (order l)) (cells l) (fresh l) else l.

(** Assignment through the pointer held in the element's [Value]. *)
Definition Store {V : Type} (l : List V) (e : Element) (v : V) : List V :=
  mkList (order l) (<[e := v]> (cells l)) (fresh l).

(** The values of the linked elements, front first. *)
Definition values {V : Type} (l : List V) : list (option V) :=
  (λ e, cells l !! e) <$> order l.
End GoList.
Import GoList.

(** ** Images, layers and the collaborators *)

Record Image : Type := mkImage {
  ID : string;
  DiffIDs : list string;
  OperatingSystem : string
}.

(** [img.ImageID()] is [img.ID().String()]. *)
Definition ImageID (img : Image) : string := ID img.

(** A layer handle, with what its methods answer. *)
Record Layer : Type := mkLayer {
  ChainID : string;
  DiffID : string;
  DiffSize : Z + string;
  Size : Z + string
}.

(** [layer.Metadata], as far as the cache reads it. *)
Record Metadata : Type := mkMetadata {
  mChainID : string;
  mDiffID : string;
  mDiffSize : Z
}.

Inductive StatResult : Type :=
| StatFile (size : Z)
| StatNotExist
| StatError (msg : string).

Inductive RemoveResult : Type :=
| RemoveOk
| RemoveNotExist
| RemoveError (msg : string).

(** The collaborators: image service, layer store, file system.  A call that
    fails answers [inr msg]; the other results are then Go's zero values. *)
Class ImageService (W : Type) : Type := {
  GetImage : W → string → W * (Image + string);
  ImageDelete : W → string → bool → bool → W * option string;
  GetReadOnlyLayer : W → string → string → W * (Layer + string);
  ReleaseReadOnlyLayer : W → option Layer → string → W * (list Metadata + string);
  CreateChainID : list string → string;
  TempDir : W → string;
  Hex : string → string;
  Join : string → string → string;
  Stat : W → string → StatResult;
  RemoveAll : W → string → W * RemoveResult
}.

(** ** [cacheBase] (driver.go) *)

Record cacheBase : Type := mkBase {
  capacity : Z;
  level : Z
}.

Definition addLevel (b : cacheBase) (n : Z) : cacheBase :=
  mkBase (capacity b) (add64 (level b) n).
Definition subLevel (b : cacheBase) (n : Z) : cacheBase :=
  mkBase (capacity b) (sub64 (level b) n).

Section CacheBase.
Context {W : Type} `{ImageService W}.

Definition RootFSChainID (img : Image) : string := CreateChainID (DiffIDs img).

(** The release of the top layer is deferred: it runs on every path. *)
Definition getImageSize (w : W) (img : Image) : W * (Z + string) :=
  let '(w1, r) := GetReadOnlyLayer w (RootFSChainID img) (OperatingSystem img) in
  match r with
  | inr err => (fst (ReleaseReadOnlyLayer w1 None (OperatingSystem img)), inr err)
  | inl topLayer =>
      (fst (ReleaseReadOnlyLayer w1 (Some topLayer) (OperatingSystem img)), Size topLayer)
  end.

Definition checkImageSize (b : cacheBase) (w : W) (img : Image) : W * option string :=
  let '(w1, r) := getImageSize w img in
  match r with
  | inr err => (w1, Some err)
  | inl size =>
      if capacity b <? size
      then (w1, Some "The size of image is larger than the cache capacity")
      else (w1, None)
  end.
End CacheBase.

(** ** image-LRU (part_000) *)
Module ImageLRU.
Record imageLRUCache : Type := mkCache {
  base : cacheBase;
  images : gmap string Element;
  evictList : List Image
}.

Definition newImageLRUCache (cap : Z) : imageLRUCache :=
  mkCache (mkBase cap 0) ∅ New.

Section WithService.
Context {W : Type} `{ImageService W}.

(** The body of the [for c.capacity < c.level] loop of [evict]. *)
Definition evictTurn (w : W) (c : imageLRUCache) : turn (W * imageLRUCache) :=
  match Back (evictList c) with
  | None => Crash
  | Some e =>
      match Value (evictList c) e with
      | None => Crash
      | Some img =>
          let '(w1, r) := getImageSize w img in
          match r with
          | inr _ => Continue (w1, c)
          | inl size =>
              let '(w2, err) := ImageDelete w1 (ImageID img) true false in
              match err with
              | Some msg =>
                  if mentions msg "conflict" then Continue (w2, c)
                  else if mentions msg "no such image" then Continue (w2, c)
                  else Return (w2, c)
              | None =>
                  Continue (w2, mkCache (subLevel (base c) size)
                                        (delete (ID img) (images c))
                                        (Remove (evictList c) e))
              end
          end
      end
  end.

Fixpoint evictLoop (fuel : nat) (w : W) (c : imageLRUCache)
  : outcome (W * imageLRUCache) :=
  if capacity (base c) <? level (base c) then
    match fuel with
    | O => OutOfFuel
    | S fuel' =>
        match evictTurn w c with
        | Continue (w', c') => evictLoop fuel' w' c'
        | Return r => Done r
        | Crash => Panic
        end
    end
  else Done (w, c).

Definition evict (fuel : nat) (w : W) (c : imageLRUCache)
  : outcome (W * imageLRUCache) :=
  if bool_decide (Len (evictList c) = 0%nat) then Done (w, c)
  else evictLoop fuel w c.

Definition PutImage (fuel : nat) (w : W) (c : imageLRUCache) (img : option Image)
  : outcome (W * imageLRUCache) :=
  match img with
  | None => Done (w, c)
  | Some img =>
      let '(w1, err) := checkImageSize (base c) w img in
      match err with
      | Some _ => Done (w1, c)
      | None =>
          match images c !! ID img with
          | Some e => Done (w1, mkCache (base c) (images c) (MoveToFront (evictList c) e))
          | None =>
              let '(w2, r) := getImageSize w1 img in
              match r with
              | inr _ => Done (w2, c)
              | inl newSize =>
                  let '(l, e) := PushFront (evictList c) img in
                  evict fuel w2 (mkCache (addLevel (base c) newSize)
                                         (<[ID img := e]> (images c)) l)
              end
          end
      end
  end.

Definition UpdateImage (w : W) (c : imageLRUCache) (refOrID : string)
  : W * imageLRUCache :=
  let '(w1, r) := GetImage w refOrID in
  match r with
  | inr _ => (w1, c)
  | inl img =>
      match images c !! ID img with
      | Some e => (w1, mkCache (base c) (images c) (MoveToFront (evictList c) e))
      | None => (w1, c)
      end
  end.

Definition RemoveImage (w : W) (c : imageLRUCache) (imgID : string)
  : outcome (W * imageLRUCache) :=
  match images c !! imgID with
  | Some e =>
      match Value (evictList c) e with
      | None => Panic
      | Some img =>
          let '(w1, r) := getImageSize w img in
          match r with
          | inr _ => Done (w1, c)
          | inl size =>
              Done (w1, mkCache (subLevel (base c) size)
                                (delete imgID (images c))
                                (Remove (evictList c) e))
          end
      end
  | None => Done (w, c)
  end.
End WithService.
End ImageLRU.

(** ** naive (part_000) *)
Module Naive.
Record naiveCache : Type := mkCache {
  base : cacheBase;
  images : gmap string Z
}.

Definition newNaiveCache (cap : Z) : naiveCache := mkCache (mkBase cap 0) ∅.

Section WithService.
Context {W : Type} `{ImageService W}.

(** The [range] over the map, in the order [entries] lists them; every
    entry but [current] is deleted, whatever [ImageDelete] answers. *)
Fixpoint evictRange (w : W) (c : naiveCache) (current : string)
    (entries : list (string * Z)) : W * naiveCache :=
  match entries with
  | [] => (w, c)
  | (imgID, size) :: rest =>
      if bool_decide (imgID = current) then evictRange w c current rest
      else
        let '(w1, _) := ImageDelete w imgID true true in
        evictRange w1 (mkCache (subLevel (base c) size) (delete imgID (images c)))
                   current rest
  end.

Definition evict (w : W) (c : naiveCache) (current : string) : W * naiveCache :=
  if capacity (base c) <? level (base c)
  then evictRange w c current (map_to_list (images c))
  else (w, c).

Definition PutImage (w : W) (c : naiveCache) (img : option Image) : W * naiveCache :=
  match img with
  | None => (w, c)
  | Some img =>
      let '(w1, err) := checkImageSize (base c) w img in
      match err with
      | Some _ => (w1, c)
      | None =>
          match images c !! ImageID img with
          | Some _ => (w1, c)
          | None =>
              let '(w2, r) := getImageSize w1 img in
              match r with
              | inr _ => (w2, c)
              | inl size =>
                  evict w2 (mkCache (addLevel (base c) size)
                                    (<[ImageID img := size]> (images c)))
                        (ImageID img)
              end
          end
      end
  end.

Definition UpdateImage (w : W) (c : naiveCache) (refOrID : string) : W * naiveCache :=
  evict w c "".

Definition RemoveImage (c : naiveCache) (imgID : string) : naiveCache :=
  match images c !! imgID with
  | None => c
  | Some size => mkCache (subLevel (base c) size) (delete imgID (images c))
  end.
End WithService.
End Naive.

(** ** What layer-LRU and archive-LRU share

    [archiveLRUCache] embeds [*layerLRUCache]: the two engines have the same
    fields, and differ in the record their list elements point to. *)
Record cacheLayer : Type := mkCacheLayer {
  cl_layer : option Layer;
  cl_size : Z;
  cl_images : list string;
  cl_os : string
}.

Record archiveLayer : Type := mkArchiveLayer {
  al_cacheLayer : cacheLayer;
  compactSize : Z
}.

Record layerLRUCache (V : Type) : Type := mkLayerCache {
  base : cacheBase;
  images : gmap string Image;
  layers : gmap string Element;
  evictList : List V
}.
Arguments mkLayerCache {V} base images layers evictList.
Arguments base {V} _.
Arguments images {V} _.
Arguments layers {V} _.
Arguments evictList {V} _.

Definition newLayerCache {V : Type} (cap : Z) : layerLRUCache V :=
  mkLayerCache (mkBase cap 0) ∅ ∅ New.

(** How the loop over a layer's images ends. *)
Inductive deleted : Type :=
| AllDeleted
| Conflict
| Abort.

Section LayerShared.
Context {W : Type} `{ImageService W}.

(** The loop of [PutImage] and [UpdateImage] that builds [chainIDs], the
    chain ID of the whole stack first. *)
Fixpoint chainLoop (todo diffIDs chainIDs : list string) : list string :=
  match todo with
  | [] => chainIDs
  | diffID :: todo' =>
      let diffIDs' := diffIDs ++ [diffID] in
      chainLoop todo' diffIDs' (CreateChainID diffIDs' :: chainIDs)
  end.

Definition chainIDsOf (img : Image) : list string := chainLoop (DiffIDs img) [] [].

(** The chain IDs in the order [RemoveImage] walks them, the base first. *)
Fixpoint chainsUp (todo diffIDs : list string) : list string :=
  match todo with
  | [] => []
  | diffID :: todo' =>
      let diffIDs' := diffIDs ++ [diffID] in
      CreateChainID diffIDs' :: chainsUp todo' diffIDs'
  end.

(** util.go *)
Definition createLayerArchivePath (w : W) (diffID : string) : string :=
  Join (TempDir w) (Hex diffID).

Definition getLayerArchiveInfo (w : W) (diffID : string) : option Z * option string :=
  match Stat w (createLayerArchivePath w diffID) with
  | StatNotExist => (None, None)
  | StatError msg => (None, Some msg)
  | StatFile size => (Some size, None)
  end.

Definition deleteArchive (w : W) (diffID : string) : W * option string :=
  let '(w1, r) := RemoveAll w (createLayerArchivePath w diffID) in
  match r with
  | RemoveNotExist => (w1, None)
  | RemoveOk => (w1, None)
  | RemoveError msg => (w1, Some msg)
  end.

(** The last loop of [evict], over the released layers. *)
Fixpoint dropReleased {V : Type} (c : layerLRUCache V) (released : list Metadata)
    : layerLRUCache V :=
  match released with
  | [] => c
  | l :: rest =>
      match layers c !! mChainID l with
      | None => dropReleased c rest
      | Some e =>
          dropReleased
            (mkLayerCache (subLevel (base c) (mDiffSize l)) (images c)
                          (delete (mChainID l) (layers c)) (Remove (evictList c) e))
            rest
      end
  end.

(** The loop of [removeLayer] over the released layers. *)
Fixpoint removeReleased {V : Type} (w : W) (c : layerLRUCache V)
    (released : list Metadata) : W * layerLRUCache V :=
  match released with
  | [] => (w, c)
  | l :: rest =>
      match layers c !! mChainID l with
      | None => removeReleased w c rest
      | Some e =>
          let '(w1, _) := deleteArchive w (mDiffID l) in
          removeReleased w1
            (mkLayerCache (subLevel (base c) (mDiffSize l)) (images c)
                          (delete (mChainID l) (layers c)) (Remove (evictList c) e))
            rest
      end
  end.

(** [checkboard[chainID]++] followed by the test against the retry bound:
    the new board, and whether eviction gives up. *)
Definition bump (checkboard : gmap string nat) (chainID : string)
    : gmap string nat * bool :=
  let n := S (default 0%nat (checkboard !! chainID)) in
  (<[chainID := n]> checkboard, bool_decide (3 < n)%nat).
End LayerShared.

(** ** layer-LRU (layer_lru.go) *)
Module LayerLRU.
Definition newLayerLRUCache (cap : Z) : layerLRUCache cacheLayer := newLayerCache cap.

Section WithService.
Context {W : Type} `{ImageService W}.

(** [for _, imgID := range cl.images] in [evict]. *)
Fixpoint deleteImages (w : W) (current : string) (imgs : list string) : W * deleted :=
  match imgs with
  | [] => (w, AllDeleted)
  | imgID :: rest =>
      if bool_decide (imgID = current) then (w, Conflict)
      else
        let '(w1, err) := ImageDelete w imgID false false in
        match err with
        | None => deleteImages w1 current rest
        | Some msg =>
            if mentions msg "conflict" then (w1, Conflict)
            else if negb (mentions msg "no such image") then (w1, Abort)
            else deleteImages w1 current rest
        end
  end.

(** [for released, err = Release(..); err != nil; { .. }]: the call is
    the init statement, so the loop only looks at [err] again.
    [Continue] leaves the loop, [Return] leaves [evict]. *)
Fixpoint releaseLoop (fuel : nat) (w : W) (chainID : string) (cl : cacheLayer)
    (err : option string) : outcome (turn (W * cacheLayer)) :=
  match err with
  | None => Done (Continue (w, cl))
  | Some msg =>
      match fuel with
      | O => OutOfFuel
      | S fuel' =>
          if mentions msg "layer not retained" then
            let '(w1, r) := GetReadOnlyLayer w chainID (cl_os cl) in
            match r with
            | inr _ =>
                Done (Return (w1, mkCacheLayer None (cl_size cl) (cl_images cl) (cl_os cl)))
            | inl l =>
                releaseLoop fuel' w1 chainID
                  (mkCacheLayer (Some l) (cl_size cl) (cl_images cl) (cl_os cl)) None
            end
          else releaseLoop fuel' w chainID cl (Some msg)
      end
  end.

Definition release (fuel : nat) (w : W) (chainID : string) (cl : cacheLayer)
    : outcome (turn (W * cacheLayer)) * list Metadata :=
  let '(w1, r) := ReleaseReadOnlyLayer w (cl_layer cl) (cl_os cl) in
  match r with
  | inl released => (releaseLoop fuel w1 chainID cl None, released)
  | inr msg => (releaseLoop fuel w1 chainID cl (Some msg), [])
  end.

Definition loopState : Type := W * layerLRUCache cacheLayer * gmap string nat.

(** The body of the [for c.capacity < c.level] loop of [evict]. *)
Definition evictTurn (fuel : nat) (current : string) (st : loopState)
    : outcome (turn loopState) :=
  let '(w, c, checkboard) := st in
  match Back (evictList c) with
  | None => Panic
  | Some e =>
      match Value (evictList c) e with
      | None => Panic
      | Some cl =>
          match cl_layer cl with
          | None => Panic
          | Some l =>
              let chainID := ChainID l in
              let '(w1, d) := deleteImages w current (cl_images cl) in
              match d with
              | Abort => Done (Return (w1, c, checkboard))
              | Conflict =>
                  let '(checkboard', stop) := bump checkboard chainID in
                  if stop then Done (Return (w1, c, checkboard'))
                  else Done (Continue (w1, c, checkboard'))
              | AllDeleted =>
                  let '(r, released) := release fuel w1 chainID cl in
                  match r with
                  | OutOfFuel => OutOfFuel
                  | Panic => Panic
                  | Done Crash => Panic
                  | Done (Return (w2, cl')) =>
                      Done (Return (w2, mkLayerCache (base c) (images c) (layers c)
                                          (Store (evictList c) e cl'), checkboard))
                  | Done (Continue (w2, cl')) =>
                      let c1 := mkLayerCache (base c) (images c) (layers c)
                                             (Store (evictList c) e cl') in
                      match released with
                      | [] =>
                          let c2 := mkLayerCache (base c1) (images c1) (layers c1)
                                                 (MoveToFront (evictList c1) e) in
                          let '(checkboard', stop) := bump checkboard chainID in
                          if stop then Done (Return (w2, c2, checkboard'))
                          else Done (Continue (w2, c2, checkboard'))
                      | _ :: _ => Done (Continue (w2, dropReleased c1 released, checkboard))
                      end
                  end
              end
          end
      end
  end.

Fixpoint evictLoop (fuel : nat) (current : string) (st : loopState)
    : outcome (W * layerLRUCache cacheLayer) :=
  let '(w, c, _) := st in
  if capacity (base c) <? level (base c) then
    match fuel with
    | O => OutOfFuel
    | S fuel' =>
        match evictTurn fuel' current st with
        | Done (Continue st') => evictLoop fuel' current st'
        | Done (Return (w', c', _)) => Done (w', c')
        | Done Crash => Panic
        | Panic => Panic
        | OutOfFuel => OutOfFuel
        end
    end
  else Done (w, c).

Definition evict (fuel : nat) (w : W) (c : layerLRUCache cacheLayer) (current : string)
    : outcome (W * layerLRUCache cacheLayer) :=
  if bool_decide (Len (evictList c) = 0%nat) then Done (w, c)
  else evictLoop fuel current (w, c, ∅).

(** [putLayer] up to its deferred [evict]. *)
Definition putLayerBody (w : W) (c : layerLRUCache cacheLayer) (chainID : string)
    (img : Image) : outcome (W * layerLRUCache cacheLayer) :=
  let c1 :=
    match layers c !! chainID with
    | None => Some c
    | Some e =>
        match Value (evictList c) e with
        | None => None
        | Some oldLayer =>
            Some (mkLayerCache (subLevel (base c) (cl_size oldLayer)) (images c)
                               (layers c) (Remove (evictList c) e))
        end
    end in
  match c1 with
  | None => Panic
  | Some c1 =>
      let '(w1, r) := GetReadOnlyLayer w chainID (OperatingSystem img) in
      match r with
      | inr _ => Done (w1, c1)
      | inl l =>
          match DiffSize l with
          | inr _ => Done (w1, c1)
          | inl size =>
              let cl := mkCacheLayer (Some l) size [ImageID img] (OperatingSystem img) in
              let '(lst, e) := PushFront (evictList c1) cl in
              Done (w1, mkLayerCache (addLevel (base c1) size) (images c1)
                                     (<[chainID := e]> (layers c1)) lst)
          end
      end
  end.

Definition putLayer (fuel : nat) (w : W) (c : layerLRUCache cacheLayer)
    (chainID : string) (img : Image) : outcome (W * layerLRUCache cacheLayer) :=
  match putLayerBody w c chainID img with
  | Done (w1, c1) => evict fuel w1 c1 (ID img)
  | Panic => Panic
  | OutOfFuel => OutOfFuel
  end.

Fixpoint putLayers (fuel : nat) (w : W) (c : layerLRUCache cacheLayer)
    (chainIDs : list string) (img : Image) : outcome (W * layerLRUCache cacheLayer) :=
  match chainIDs with
  | [] => Done (w, c)
  | chainID :: rest =>
      match putLayer fuel w c chainID img with
      | Done (w1, c1) => putLayers fuel w1 c1 rest img
      | Panic => Panic
      | OutOfFuel => OutOfFuel
      end
  end.

Definition PutImage (fuel : nat) (w : W) (c : layerLRUCache cacheLayer)
    (img : option Image) : outcome (W * layerLRUCache cacheLayer) :=
  match img with
  | None => Done (w, c)
  | Some img =>
      let '(w1, err) := checkImageSize (base c) w img in
      match err with
      | Some _ => Done (w1, c)
      | None =>
          putLayers fuel w1
            (mkLayerCache (base c) (<[ID img := img]> (images c)) (layers c) (evictList c))
            (chainIDsOf img) img
      end
  end.

(** [updateLayer] up to its deferred [evict]. *)
Definition updateLayerBody (c : layerLRUCache cacheLayer) (chainID : string)
    (img : Image) : outcome (layerLRUCache cacheLayer) :=
  match layers c !! chainID with
  | None => Done c
  | Some e =>
      match Value (evictList c) e with
      | None => Panic
      | Some cl =>
          let cl' := mkCacheLayer (cl_layer cl) (cl_size cl)
                                  (cl_images cl ++ [ImageID img]) (cl_os cl) in
          Done (mkLayerCache (base c) (images c) (layers c)
                             (MoveToFront (Store (evictList c) e cl') e))
      end
  end.

Definition updateLayer (fuel : nat) (w : W) (c : layerLRUCache cacheLayer)
    (chainID : string) (img : Image) : outcome (W * layerLRUCache cacheLayer) :=
  match updateLayerBody c chainID img with
  | Done c1 => evict fuel w c1 ""
  | Panic => Panic
  | OutOfFuel => OutOfFuel
  end.

Fixpoint updateLayers (fuel : nat) (w : W) (c : layerLRUCache cacheLayer)
    (chainIDs : list string) (img : Image) : outcome (W * layerLRUCache cacheLayer) :=
  match chainIDs with
  | [] => Done (w, c)
  | chainID :: rest =>
      match updateLayer fuel w c chainID img with
      | Done (w1, c1) => updateLayers fuel w1 c1 rest img
      | Panic => Panic
      | OutOfFuel => OutOfFuel
      end
  end.

Definition UpdateImage (fuel : nat) (w : W) (c : layerLRUCache cacheLayer)
    (refOrID : string) : outcome (W * layerLRUCache cacheLayer) :=
  let '(w1, r) := GetImage w refOrID in
  match r with
  | inr _ => Done (w1, c)
  | inl img => updateLayers fuel w1 c (chainIDsOf img) img
  end.

Definition removeLayer (w : W) (c : layerLRUCache cacheLayer) (chainID : string)
    : outcome (W * layerLRUCache cacheLayer) :=
  match layers c !! chainID with
  | None => Done (w, c)
  | Some e =>
      match Value (evictList c) e with
      | None => Panic
      | Some cl =>
          let '(w1, r) := ReleaseReadOnlyLayer w (cl_layer cl) (cl_os cl) in
          match r with
          | inr _ => Done (w1, c)
          | inl released => Done (removeReleased w1 c released)
          end
      end
  end.

Fixpoint removeLayers (w : W) (c : layerLRUCache cacheLayer) (chainIDs : list string)
    : outcome (W * layerLRUCache cacheLayer) :=
  match chainIDs with
  | [] => Done (w, c)
  | chainID :: rest =>
      match removeLayer w c chainID with
      | Done (w1, c1) => removeLayers w1 c1 rest
      | Panic => Panic
      | OutOfFuel => OutOfFuel
      end
  end.

Definition RemoveImage (w : W) (c : layerLRUCache cacheLayer) (imgID : string)
    : outcome (W * layerLRUCache cacheLayer) :=
  match images c !! imgID with
  | None => Done (w, c)
  | Some img =>
      removeLayers w
        (mkLayerCache (base c) (delete imgID (images c)) (layers c) (evictList c))
        (chainsUp (DiffIDs img) [])
  end.
End WithService.
End LayerLRU.

(** ** archive-LRU (util.go) *)
Module ArchiveLRU.
Definition newArchiveLRUCache (cap : Z) : layerLRUCache archiveLayer := newLayerCache cap.

Section WithService.
Context {W : Type} `{ImageService W}.

(** [for _, imgID := range al.images] in [evict]: no image is protected. *)
Fixpoint deleteImages (w : W) (imgs : list string) : W * deleted :=
  match imgs with
  | [] => (w, AllDeleted)
  | imgID :: rest =>
      let '(w1, err) := ImageDelete w imgID false false in
      match err with
      | None => deleteImages w1 rest
      | Some msg =>
          if mentions msg "conflict" then (w1, Conflict)
          else if negb (mentions msg "no such image") then (w1, Abort)
          else deleteImages w1 rest
      end
  end.

Definition loopState : Type := W * layerLRUCache archiveLayer * gmap string nat.

(** The body of the [for c.capacity < c.level] loop of [evict]. *)
Definition evictTurn (st : loopState) : turn loopState :=
  let '(w, c, checkboard) := st in
  match Back (evictList c) with
  | None => Crash
  | Some e =>
      match Value (evictList c) e with
      | None => Crash
      | Some al =>
          match cl_layer (al_cacheLayer al) with
          | None => Crash
          | Some l =>
              let chainID := ChainID l in
              let '(w1, d) := deleteImages w (cl_images (al_cacheLayer al)) in
              match d with
              | Abort => Return (w1, c, checkboard)
              | Conflict =>
                  let '(checkboard', stop) := bump checkboard chainID in
                  if stop then Return (w1, c, checkboard')
                  else Continue (w1, c, checkboard')
              | AllDeleted =>
                  let '(w2, r) :=
                    ReleaseReadOnlyLayer w1 (cl_layer (al_cacheLayer al))
                                         (cl_os (al_cacheLayer al)) in
                  match r with
                  | inr _ => Return (w2, c, checkboard)
                  | inl [] =>
                      let c2 := mkLayerCache (base c) (images c) (layers c)
                                             (MoveToFront (evictList c) e) in
                      let '(checkboard', stop) := bump checkboard chainID in
                      if stop then Return (w2, c2, checkboard')
                      else Continue (w2, c2, checkboard')
                  | inl released => Continue (w2, dropReleased c released, checkboard)
                  end
              end
          end
      end
  end.

Fixpoint evictLoop (fuel : nat) (st : loopState)
    : outcome (W * layerLRUCache archiveLayer) :=
  let '(w, c, _) := st in
  if capacity (base c) <? level (base c) then
    match fuel with
    | O => OutOfFuel
    | S fuel' =>
        match evictTurn st with
        | Continue st' => evictLoop fuel' st'
        | Return (w', c', _) => Done (w', c')
        | Crash => Panic
        end
    end
  else Done (w, c).

Definition evict (fuel : nat) (w : W) (c : layerLRUCache archiveLayer)
    : outcome (W * layerLRUCache archiveLayer) :=
  if bool_decide (Len (evictList c) = 0%nat) then Done (w, c)
  else evictLoop fuel (w, c, ∅).

(** [putLayer] up to its deferred [evict]. *)
Definition putLayerBody (w : W) (c : layerLRUCache archiveLayer) (chainID : string)
    (img : Image) : outcome (W * layerLRUCache archiveLayer) :=
  let c1 :=
    match layers c !! chainID with
    | None => Some c
    | Some e =>
        match Value (evictList c) e with
        | None => None
        | Some oldLayer =>
            Some (mkLayerCache (subLevel (base c) (cl_size (al_cacheLayer oldLayer)))
                               (images c) (layers c) (Remove (evictList c) e))
        end
    end in
  match c1 with
  | None => Panic
  | Some c1 =>
      let '(w1, r) := GetReadOnlyLayer w chainID (OperatingSystem img) in
      match r with
      | inr _ => Done (w1, c1)
      | inl l =>
          match DiffSize l with
          | inr _ => Done (w1, c1)
          | inl size =>
              let cl := mkCacheLayer (Some l) size [ImageID img] (OperatingSystem img) in
              let compact :=
                match fst (getLayerArchiveInfo w1 (DiffID l)) with
                | Some archiveSize => archiveSize
                | None => 0
                end in
              let al := mkArchiveLayer cl compact in
              let w2 :=
                if cl_size cl <? compact then fst (deleteArchive w1 (DiffID l)) else w1 in
              let '(lst, e) := PushFront (evictList c1) al in
              Done (w2, mkLayerCache (addLevel (base c1) size) (images c1)
                                     (<[chainID := e]> (layers c1)) lst)
          end
      end
  end.

Definition putLayer (fuel : nat) (w : W) (c : layerLRUCache archiveLayer)
    (chainID : string) (img : Image) : outcome (W * layerLRUCache archiveLayer) :=
  match putLayerBody w c chainID img with
  | Done (w1, c1) => evict fuel w1 c1
  | Panic => Panic
  | OutOfFuel => OutOfFuel
  end.

Fixpoint putLayers (fuel : nat) (w : W) (c : layerLRUCache archiveLayer)
    (chainIDs : list string) (img : Image) : outcome (W * layerLRUCache archiveLayer) :=
  match chainIDs with
  | [] => Done (w, c)
  | chainID :: rest =>
      match putLayer fuel w c chainID img with
      | Done (w1, c1) => putLayers fuel w1 c1 rest img
      | Panic => Panic
      | OutOfFuel => OutOfFuel
      end
  end.

Definition PutImage (fuel : nat) (w : W) (c : layerLRUCache archiveLayer)
    (img : option Image) : outcome (W * layerLRUCache archiveLayer) :=
  match img with
  | None => Done (w, c)
  | Some img =>
      let '(w1, err) := checkImageSize (base c) w img in
      match err with
      | Some _ => Done (w1, c)
      | None =>
          putLayers fuel w1
            (mkLayerCache (base c) (<[ID img := img]> (images c)) (layers c) (evictList c))
            (chainIDsOf img) img
      end
  end.

(** [updateLayer] up to its deferred [evict]. *)
Definition updateLayerBody (c : layerLRUCache archiveLayer) (chainID : string)
    (img : Image) : outcome (layerLRUCache archiveLayer) :=
  match layers c !! chainID with
  | None => Done c
  | Some e =>
      match Value (evictList c) e with
      | None => Panic
      | Some al =>
          let cl := al_cacheLayer al in
          let cl' := mkCacheLayer (cl_layer cl) (cl_size cl)
                                  (cl_images cl ++ [ImageID img]) (cl_os cl) in
          Done (mkLayerCache (base c) (images c) (layers c)
                  (MoveToFront (Store (evictList c) e (mkArchiveLayer cl' (compactSize al))) e))
      end
  end.

Definition updateLayer (fuel : nat) (w : W) (c : layerLRUCache archiveLayer)
    (chainID : string) (img : Image) : outcome (W * layerLRUCache archiveLayer) :=
  match updateLayerBody c chainID img with
  | Done c1 => evict fuel w c1
  | Panic => Panic
  | OutOfFuel => OutOfFuel
  end.

Fixpoint updateLayers (fuel : nat) (w : W) (c : layerLRUCache archiveLayer)
    (chainIDs : list string) (img : Image) : outcome (W * layerLRUCache archiveLayer) :=
  match chainIDs with
  | [] => Done (w, c)
  | chainID :: rest =>
      match updateLayer fuel w c chainID img with
      | Done (w1, c1) => updateLayers fuel w1 c1 rest img
      | Panic => Panic
      | OutOfFuel => OutOfFuel
      end
  end.

Definition UpdateImage (fuel : nat) (w : W) (c : layerLRUCache archiveLayer)
    (refOrID : string) : outcome (W * layerLRUCache archiveLayer) :=
  let '(w1, r) := GetImage w refOrID in
  match r with
  | inr _ => Done (w1, c)
  | inl img => updateLayers fuel w1 c (chainIDsOf img) img
  end.

Definition removeLayer (w : W) (c : layerLRUCache archiveLayer) (chainID : string)
    : outcome (W * layerLRUCache archiveLayer) :=
  match layers c !! chainID with
  | None => Done (w, c)
  | Some e =>
      match Value (evictList c) e with
      | None => Panic
      | Some al =>
          let '(w1, r) :=
            ReleaseReadOnlyLayer w (cl_layer (al_cacheLayer al)) (cl_os (al_cacheLayer al)) in
          match r with
          | inr _ => Done (w1, c)
          | inl released => Done (removeReleased w1 c released)
          end
      end
  end.

Fixpoint removeLayers (w : W) (c : layerLRUCache archiveLayer) (chainIDs : list string)
    : outcome (W * layerLRUCache archiveLayer) :=
  match chainIDs with
  | [] => Done (w, c)
  | chainID :: rest =>
      match removeLayer w c chainID with
      | Done (w1, c1) => removeLayers w1 c1 rest
      | Panic => Panic
      | OutOfFuel => OutOfFuel
      end
  end.

Definition RemoveImage (w : W) (c : layerLRUCache archiveLayer) (imgID : string)
    : outcome (W * layerLRUCache archiveLayer) :=
  match images c !! imgID with
  | None => Done (w, c)
  | Some img =>
      removeLayers w
        (mkLayerCache (base c) (delete imgID (images c)) (layers c) (evictList c))
        (chainsUp (DiffIDs img) [])
  end.
End WithService.
End ArchiveLRU.

(** ** The cache factory (driver.go) *)
Module Factory.
Definition policyLayerLRU : string := "layer-lru".
Definition policyImageLRU : string := "image-lru".
Definition policyArchiveLRU : string := "archive-lru".

(** [config.Config], as far as the factory reads it. *)
Record Config : Type := mkConfig {
  CachePolicy : string;
  CacheCapacity : string;
  CacheArchive : bool
}.

(** The implementations of the [ImageCache] interface. *)
Inductive ImageCache : Type :=
| ImageLRUCache (c : ImageLRU.imageLRUCache)
| LayerLRUCache (c : layerLRUCache cacheLayer)
| ArchiveLRUCache (c : layerLRUCache archiveLayer)
| NaiveCache (c : Naive.naiveCache).


Definition Level (c : ImageCache) : Z :=
  match c with
  | ImageLRUCache c => level (ImageLRU.base c)
  | LayerLRUCache c => level (base c)
  | ArchiveLRUCache c => level (base c)
  | NaiveCache c => level (Naive.base c)
  end.

Section WithUnits.
(** [units.RAMInBytes] of go-units. *)
Variable RAMInBytes : string → Z + string.

(** The message of the error for archive-lru without archives is written
    here without the quotation marks it has in the source. *)
Definition NewImageCache (cfg : Config) : ImageCache + string :=
  match RAMInBytes (CacheCapacity cfg) with
  | inr err => inr err
  | inl cap =>
      let policy := ToLower (CachePolicy cfg) in
      if bool_decide (policy = policyImageLRU) then
        inl (ImageLRUCache (ImageLRU.newImageLRUCache cap))
      else if bool_decide (policy = policyLayerLRU) then
        inl (LayerLRUCache (LayerLRU.newLayerLRUCache cap))
      else if bool_decide (policy = policyArchiveLRU) then
        if negb (CacheArchive cfg)
        then inr "--cache-archive is required for archive-lru cache policy"
        else inl (ArchiveLRUCache (ArchiveLRU.newArchiveLRUCache cap))
      else inl (ImageLRUCache (ImageLRU.newImageLRUCache cap))
  end.
End WithUnits.
End Factory.

(** ** The legacy driver factory (images/cache_lru.go) *)
Module Legacy.
Definition DefaultCacheCapacity : string := "1GB".

Section WithUnits.
Variable RAMInBytes : string → Z + string.

(** The first statements of [newCacheDriver]: the capacity it hands to
    [newLRULayerCacheDriver].  [cap, _ = units.RAMInBytes(..)] drops the
    error of the second parse. *)
Definition driverCapacity (capacityStr : string) : Z :=
  match RAMInBytes capacityStr with
  | inl cap => cap
  | inr _ =>
      match RAMInBytes DefaultCacheCapacity with
      | inl cap => cap
      | inr _ => 0
      end
  end.
End WithUnits.
End Legacy.

(** ** Concrete collaborators

    A scripted image service: the answers of the next calls are queued, and
    when a queue is empty the call is answered from a table.  Every call is
    recorded in [trace]. *)
Inductive Call : Type :=
| CallGetImage (refOrID : string)
| CallImageDelete (imgID : string) (force prune : bool)
| CallGetReadOnlyLayer (chainID os : string)
| CallReleaseReadOnlyLayer (chainID : option string) (os : string)
| CallRemoveAll (path : string).

#[export] Instance Call_eq_dec : EqDecision Call.
Proof. solve_decision. Defined.

Record Script : Type := mkScript {
  imageTable : list (string * Image);
  deleteQueue : list (option string);
  deleteDefault : option string;
  layerQueue : list (Layer + string);
  layerTable : list (string * Layer);
  releaseQueue : list (list Metadata + string);
  releaseDefault : list Metadata + string;
  files : list (string * Z);
  trace : list Call
}.

Fixpoint assoc {A : Type} (k : string) (l : list (string * A)) : option A :=
  match l with
  | [] => None
  | (k', v) :: l' => if bool_decide (k' = k) then Some v else assoc k l'
  end.

Definition record (w : Script) (c : Call) : Script :=
  mkScript (imageTable w) (deleteQueue w) (deleteDefault w) (layerQueue w) (layerTable w)
           (releaseQueue w) (releaseDefault w) (files w) (trace w ++ [c]).

Definition scriptGetImage (w : Script) (refOrID : string) : Script * (Image + string) :=
  (record w (CallGetImage refOrID),
   match assoc refOrID (imageTable w) with
   | Some img => inl img
   | None => inr "No such image"%string
   end).

Definition scriptImageDelete (w : Script) (imgID : string) (force prune : bool)
    : Script * option string :=
  let w1 := record w (CallImageDelete imgID force prune) in
  match deleteQueue w with
  | [] => (w1, deleteDefault w)
  | a :: q =>
      (mkScript (imageTable w1) q (deleteDefault w1) (layerQueue w1) (layerTable w1)
                (releaseQueue w1) (releaseDefault w1) (files w1) (trace w1), a)
  end.

Definition scriptGetReadOnlyLayer (w : Script) (chainID os : string)
    : Script * (Layer + string) :=
  let w1 := record w (CallGetReadOnlyLayer chainID os) in
  match layerQueue w with
  | [] =>
      (w1, match assoc chainID (layerTable w) with
           | Some l => inl l
           | None => inr "layer does not exist"%string
           end)
  | a :: q =>
      (mkScript (imageTable w1) (deleteQueue w1) (deleteDefault w1) q (layerTable w1)
                (releaseQueue w1) (releaseDefault w1) (files w1) (trace w1), a)
  end.

Definition scriptRelease (w : Script) (l : option Layer) (os : string)
    : Script * (list Metadata + string) :=
  let w1 := record w (CallReleaseReadOnlyLayer (ChainID <$> l) os) in
  match releaseQueue w with
  | [] => (w1, releaseDefault w)
  | a :: q =>
      (mkScript (imageTable w1) (deleteQueue w1) (deleteDefault w1) (layerQueue w1)
                (layerTable w1) q (releaseDefault w1) (files w1) (trace w1), a)
  end.

Definition scriptStat (w : Script) (path : string) : StatResult :=
  match assoc path (files w) with
  | Some size => StatFile size
  | None => StatNotExist
  end.

Definition scriptRemoveAll (w : Script) (path : string) : Script * RemoveResult :=
  let w1 := record w (CallRemoveAll path) in
  (mkScript (imageTable w1) (deleteQueue w1) (deleteDefault w1) (layerQueue w1)
            (layerTable w1) (releaseQueue w1) (releaseDefault w1)
            (filter (λ f, fst f ≠ path) (files w1)) (trace w1), RemoveOk).

(** The part of a digest after its algorithm prefix. *)
Fixpoint afterColon (s : string) : string :=
  match s with
  | EmptyString => EmptyString
  | String c s' => if Ascii.eqb c ":"%char then s' else afterColon s'
  end.

#[export] Instance scripted : ImageService Script := {|
  GetImage := scriptGetImage;
  ImageDelete := scriptImageDelete;
  GetReadOnlyLayer := scriptGetReadOnlyLayer;
  ReleaseReadOnlyLayer := scriptRelease;
  CreateChainID := String.concat "+";
  TempDir := λ _, "/tmp"%string;
  Hex := afterColon;
  Join := λ dir name, (dir +:+ "/" +:+ name)%string;
  Stat := scriptStat;
  RemoveAll := scriptRemoveAll
|}.

(** A stand-in for [units.RAMInBytes] on whole numbers: digits, an optional
    space, an optional unit letter (binary multiples), an optional [i] and
    an optional [b]. *)
Definition digit (c : Ascii.ascii) : option Z :=
  let n := Ascii.N_of_ascii c in
  if ((48 <=? n) && (n <=? 57))%N then Some (Z.of_N n - 48) else None.

Fixpoint readDigits (s : string) (acc : Z) (seen : bool) : option (Z * string) :=
  match s with
  | EmptyString => if seen then Some (acc, s) else None
  | String c s' =>
      match digit c with
      | Some d => readDigits s' (acc * 10 + d) true
      | None => if seen then Some (acc, s) else None
      end
  end.

Definition skipIf (p : Ascii.ascii → bool) (s : string) : string :=
  match s with
  | String c s' => if p c then s' else s
  | EmptyString => s
  end.

Definition unitOf (s : string) : Z * string :=
  match s with
  | String c s' =>
      match lower_ascii c with
      | "k"%char => (2 ^ 10, s')
      | "m"%char => (2 ^ 20, s')
      | "g"%char => (2 ^ 30, s')
      | "t"%char => (2 ^ 40, s')
      | "p"%char => (2 ^ 50, s')
      | _ => (1, s)
      end
  | EmptyString => (1, s)
  end.

Definition wholeRAMInBytes (s : string) : Z + string :=
  match readDigits s 0 false with
  | None => inr ("invalid size: " +:+ s)%string
  | Some (n, rest) =>
      let '(mul, rest) := unitOf (skipIf (Ascii.eqb " "%char) rest) in
      let rest := skipIf (λ c, Ascii.eqb (lower_ascii c) "i"%char) rest in
      let rest := skipIf (λ c, Ascii.eqb (lower_ascii c) "b"%char) rest in
      match rest with
      | EmptyString => inl (n * mul)
      | _ => inr ("invalid size: " +:+ s)%string
      end
  end.

(** ** Concrete images, layers and caches *)

Definition imgA : Image := mkImage "A" ["sha256:a"%string] "linux".
Definition imgB : Image := mkImage "B" ["sha256:b"%string] "linux".
Definition layerA : Layer := mkLayer "sha256:a" "sha256:a" (inl 60) (inl 60).
Definition layerB : Layer := mkLayer "sha256:b" "sha256:b" (inl 60) (inl 60).

(** A store that holds both images and their layers; [del] is what every
    [ImageDelete] answers, [tr] the calls made so far. *)
Definition storeAB (del : option string) (tr : list Call) : Script :=
  mkScript [("A"%string, imgA); ("B"%string, imgB)] [] del []
           [("sha256:a"%string, layerA); ("sha256:b"%string, layerB)] [] (inl []) [] tr.

(** image-LRU with capacity 100 after [PutImage(A)], and with [B] pushed in
    front of [A] as [PutImage(B)] leaves it for [evict]. *)
Definition imageCacheA : ImageLRU.imageLRUCache :=
  ImageLRU.mkCache (mkBase 100 60) {[ "A"%string := 0%nat ]}
                   (mkList [0%nat] {[ 0%nat := imgA ]} 1).

Definition imageCacheBA : ImageLRU.imageLRUCache :=
  ImageLRU.mkCache (mkBase 100 120) (<[ "B"%string := 1%nat ]> {[ "A"%string := 0%nat ]})
                   (mkList [1%nat; 0%nat] (<[ 1%nat := imgB ]> {[ 0%nat := imgA ]}) 2).

(** layer-LRU and archive-LRU with capacity 100 after [PutImage(A)], and
    with the layer of [B] pushed in front as [putLayer] leaves it for
    [evict]. *)
Definition recordA : cacheLayer := mkCacheLayer (Some layerA) 60 ["A"%string] "linux".
Definition recordB : cacheLayer := mkCacheLayer (Some layerB) 60 ["B"%string] "linux".

Definition layerCacheA : layerLRUCache cacheLayer :=
  mkLayerCache (mkBase 100 60) {[ "A"%string := imgA ]} {[ "sha256:a"%string := 0%nat ]}
               (mkList [0%nat] {[ 0%nat := recordA ]} 1).

Definition layerCacheBA : layerLRUCache cacheLayer :=
  mkLayerCache (mkBase 100 120) (<[ "B"%string := imgB ]> {[ "A"%string := imgA ]})
               (<[ "sha256:b"%string := 1%nat ]> {[ "sha256:a"%string := 0%nat ]})
               (mkList [1%nat; 0%nat] (<[ 1%nat := recordB ]> {[ 0%nat := recordA ]}) 2).

Definition archiveCacheA : layerLRUCache archiveLayer :=
  mkLayerCache (mkBase 100 60) {[ "A"%string := imgA ]} {[ "sha256:a"%string := 0%nat ]}
               (mkList [0%nat] {[ 0%nat := mkArchiveLayer recordA 0 ]} 1).

Definition archiveCacheBA : layerLRUCache archiveLayer :=
  mkLayerCache (mkBase 100 120) (<[ "B"%string := imgB ]> {[ "A"%string := imgA ]})
               (<[ "sha256:b"%string := 1%nat ]> {[ "sha256:a"%string := 0%nat ]})
               (mkList [1%nat; 0%nat]
                       (<[ 1%nat := mkArchiveLayer recordB 0 ]> {[ 0%nat := mkArchiveLayer recordA 0 ]})
                       2).

Definition conflictMsg : string :=
  "conflict: unable to delete A (cannot be forced) - image is being used by running container".

(** The store of [storeAB] with a layer store that fails every release. *)
Definition storeBusy (tr : list Call) : Script :=
  mkScript [("A"%string, imgA); ("B"%string, imgB)] [] None []
           [("sha256:a"%string, layerA); ("sha256:b"%string, layerB)] []
           (inr "device or resource busy"%string) [] tr.

(** The store of [storeAB] where the second release finds the layer not
    retained, and any later one would release the layer of [A]. *)
Definition storeNotRetained : Script :=
  mkScript [("A"%string, imgA); ("B"%string, imgB)] [] None []
           [("sha256:a"%string, layerA); ("sha256:b"%string, layerB)]
           [inl []; inr "layer not retained"%string]
           (inl [mkMetadata "sha256:a" "sha256:a" 60]) [] [].

(** [layerCacheBA] after the layer of [A] was moved to the front. *)
Definition layerCacheAB : layerLRUCache cacheLayer :=
  mkLayerCache (mkBase 100 120) (<[ "B"%string := imgB ]> {[ "A"%string := imgA ]})
               (<[ "sha256:b"%string := 1%nat ]> {[ "sha256:a"%string := 0%nat ]})
               (mkList [0%nat; 1%nat] (<[ 0%nat := recordA ]> (<[ 1%nat := recordB ]> {[ 0%nat := recordA ]})) 2).

(** A store that holds [A], with a companion archive of 200 bytes for its
    layer of 60 bytes. *)
Definition storeArchived (tr : list Call) : Script :=
  mkScript [("A"%string, imgA)] [] None [] [("sha256:a"%string, layerA)] [] (inl [])
           [("/tmp/a"%string, 200)] tr.

(** The invariant on index and list: every mapped key resolves to an
    element linked in the list, and every linked element is mapped by
    exactly one key. *)
Definition indexConsistent {V : Type} (c : layerLRUCache V) : Prop :=
  (∀ k e, layers c !! k = Some e → e ∈ order (evictList c))
  ∧ (∀ e, e ∈ order (evictList c) →
       ∃ k, layers c !! k = Some e ∧ ∀ k', layers c !! k' = Some e → k' = k).

Definition imageIndexConsistent (c : ImageLRU.imageLRUCache) : Prop :=
  (∀ k e, ImageLRU.images c !! k = Some e → e ∈ order (ImageLRU.evictList c))
  ∧ (∀ e, e ∈ order (ImageLRU.evictList c) →
       ∃ k, ImageLRU.images c !! k = Some e
            ∧ ∀ k', ImageLRU.images c !! k' = Some e → k' = k).

(** A store that holds [A] and hands out its layer once, to the size check;
    the next [GetReadOnlyLayer] finds the layer gone. *)
Definition storeFlaky : Script :=
  mkScript [("A"%string, imgA)] [] None [inl layerA; inr "layer does not exist"%string]
           [("sha256:a"%string, layerA)] [] (inl []) [] [].










(** An element is at the front of the list, or not linked at all. *)
Definition frontOrOut (e : Element) (es : list Element) : Prop :=
  (∃ t, es = e :: t ∧ e ∉ t) ∨ e ∉ es.

(** While image-LRU evicts, the key [k] resolves to [e0] or to nothing, and
    [e0] is at the front or out of the list. *)
Definition pinned (k : string) (e0 : Element) (c : ImageLRU.imageLRUCache) : Prop :=
  (∀ e, ImageLRU.images c !! k = Some e → e = e0)
  ∧ frontOrOut e0 (order (ImageLRU.evictList c)).

(** The record a chain ID resolves to. *)
Definition recordOf {V : Type} (c : layerLRUCache V) (k : string) : option V :=
  layers c !! k ≫= Value (evictList c).

(** The range of [int64]. *)
Definition int64 (z : Z) : Prop := - 2 ^ 63 ≤ z < 2 ^ 63.

(** Through the collaborator states [P], the layer store hands out the layer
    [lyr k] for every chain ID [k] of the image. *)
Definition answersStable {W : Type} `{ImageService W} (P : W → Prop)
    (lyr : string → Layer) (img : Image) : Prop :=
  ∀ w, P w →
    (∀ k, k ∈ chainIDsOf img →
       (GetReadOnlyLayer w k (OperatingSystem img)).2 = inl (lyr k))
    ∧ (∀ k os, P (GetReadOnlyLayer w k os).1)
    ∧ (∀ l os, P (ReleaseReadOnlyLayer w l os).1)
    ∧ (∀ path, P (RemoveAll w path).1).

(** The cache as a [PutImage] that went through leaves it: the image is in
    the image table, no eviction is pending, and every layer of the image is
    resident with the record [putLayer] builds for it ([rec] reads the
    [cacheLayer] out of the engine's record). *)
Definition settled {V : Type} (rec : V → cacheLayer) (lyr : string → Layer)
    {W : Type} `{ImageService W} (img : Image) (c : layerLRUCache V) : Prop :=
  images c !! ID img = Some img
  ∧ level (base c) ≤ capacity (base c)
  ∧ int64 (level (base c))
  ∧ (∀ k e, layers c !! k = Some e → (e < fresh (evictList c))%nat)
  ∧ ∀ k, k ∈ chainIDsOf img →
      ∃ e size v, layers c !! k = Some e
                  ∧ DiffSize (lyr k) = inl size
                  ∧ Value (evictList c) e = Some v
                  ∧ rec v = mkCacheLayer (Some (lyr k)) size [ImageID img]
                                         (OperatingSystem img).

(** From [c] to [c'] level, image table and index keys are the same, and
    every key resolves to the same [cacheLayer]. *)
Definition sameRecords {V : Type} (rec : V → cacheLayer) (c c' : layerLRUCache V) : Prop :=
  base c' = base c
  ∧ images c' = images c
  ∧ (∀ k, is_Some (layers c' !! k) ↔ is_Some (layers c !! k))
  ∧ (∀ k, rec <$> recordOf c' k = rec <$> recordOf c k).

(** Two more images, of one layer of 30 bytes each, and a layer cache of
    capacity 100 that holds their layers, the layer of [Y] in front. *)
Definition imgX : Image := mkImage "X" ["sha256:x"%string] "linux".
Definition imgY : Image := mkImage "Y" ["sha256:y"%string] "linux".
Definition layerX : Layer := mkLayer "sha256:x" "sha256:x" (inl 30) (inl 30).
Definition layerY : Layer := mkLayer "sha256:y" "sha256:y" (inl 30) (inl 30).
Definition recordX : cacheLayer := mkCacheLayer (Some layerX) 30 ["X"%string] "linux".
Definition recordY : cacheLayer := mkCacheLayer (Some layerY) 30 ["Y"%string] "linux".

Definition layerCacheXY : layerLRUCache cacheLayer :=
  mkLayerCache (mkBase 100 60)
               (<[ "Y"%string := imgY ]> {[ "X"%string := imgX ]})
               (<[ "sha256:y"%string := 1%nat ]> {[ "sha256:x"%string := 0%nat ]})
               (mkList [1%nat; 0%nat] (<[ 1%nat := recordY ]> {[ 0%nat := recordX ]}) 2).

(** A store that holds [A], [X] and [Y]; the layer of [X] is still in use
    when it is released, the layer of [Y] is not. *)
Definition storeXYA : Script :=
  mkScript [("A"%string, imgA); ("X"%string, imgX); ("Y"%string, imgY)] [] None []
           [("sha256:a"%string, layerA); ("sha256:x"%string, layerX);
            ("sha256:y"%string, layerY)]
           [inl []; inl []; inl [mkMetadata "sha256:y" "sha256:y" 30]] (inl []) [] [].

(** naive with capacity 100 after [PutImage(A)]. *)
Definition naiveCacheA : Naive.naiveCache :=
  Naive.mkCache (mkBase 100 60) {[ "A"%string := 60 ]}.

(** The states of [storeAB]-like stores whose layer store answers from the
    table of [storeAB]. *)
Definition tableAB (w : Script) : Prop :=
  layerTable w = [("sha256:a"%string, layerA); ("sha256:b"%string, layerB)]
  ∧ layerQueue w = [].

(** What image-LRU keeps between its operations: the elements of the list
    are older than the next one to be pushed, a mapped key resolves to a
    linked element that holds the image of that ID, and every linked element
    is mapped. *)
Definition imageWellFormed (c : ImageLRU.imageLRUCache) : Prop :=
  (∀ e, e ∈ order (ImageLRU.evictList c) → (e < fresh (ImageLRU.evictList c))%nat)
  ∧ (∀ k e, ImageLRU.images c !! k = Some e →
       e ∈ order (ImageLRU.evictList c)
       ∧ ∃ img, Value (ImageLRU.evictList c) e = Some img ∧ ID img = k)
  ∧ (∀ e, e ∈ order (ImageLRU.evictList c) → ∃ k, ImageLRU.images c !! k = Some e).

(** The sizes of the entries other than [current], summed. *)
Definition sizeOfOthers (current : string) (entries : list (string * Z)) : Z :=
  foldr (λ entry acc, if bool_decide (entry.1 = current) then acc else entry.2 + acc)
        0 entries.

(** naive with capacity 100 holding [A], [B] and [C] of 60 bytes each. *)
Definition naiveCacheABC : Naive.naiveCache :=
  Naive.mkCache (mkBase 100 180)
    (<[ "C"%string := 60 ]> (<[ "B"%string := 60 ]> {[ "A"%string := 60 ]})).

(** The states of a store that answers the layer store's calls from the
    table of [storeAB], and every [ImageDelete] with [del]. *)
Definition answersFromAB (del : option string) (w : Script) : Prop :=
  layerTable w = [("sha256:a"%string, layerA); ("sha256:b"%string, layerB)]
  ∧ layerQueue w = []
  ∧ deleteQueue w = []
  ∧ deleteDefault w = del.


(** The record [putLayer] builds for the chain ID [k] of an image, from the
    layer [lyr k] of diff size [sz k]. *)
Definition builtRecord (lyr : string → Layer) (sz : string → Z) (img : Image)
    (k : string) : cacheLayer :=
  mkCacheLayer (Some (lyr k)) (sz k) [ImageID img] (OperatingSystem img).

Definition sizeSum (sz : string → Z) (ks : list string) : Z :=
  foldr (λ k acc, sz k + acc) 0 ks.

(** The elements that are mapped or linked are older than the next one to
    be pushed. *)
Definition bounded {V : Type} (c : layerLRUCache V) : Prop :=
  (∀ k e, layers c !! k = Some e → (e < fresh (evictList c))%nat)
  ∧ (∀ e, e ∈ order (evictList c) → (e < fresh (evictList c))%nat).

(** From [c] to [c'] the image table and the capacity are the same and the
    index only lost keys. *)
Definition onlyEvicted {V : Type} (c c' : layerLRUCache V) : Prop :=
  images c' = images c
  ∧ layers c' ⊆ layers c
  ∧ capacity (base c') = capacity (base c).

(** From [c] to [c'] the image table and the capacity are the same, and a
    key of the index of [c'] is one of [ks] or was in the index of [c],
    bound to the same element. *)
Definition addedOnly {V : Type} (ks : list string) (c c' : layerLRUCache V) : Prop :=
  images c' = images c
  ∧ capacity (base c') = capacity (base c)
  ∧ ∀ k e, layers c' !! k = Some e → k ∈ ks ∨ layers c !! k = Some e.

(** The store of [storeAB] where every release lets go of the layer of
    [A]. *)
Definition storeReleasing : Script :=
  mkScript [("A"%string, imgA); ("B"%string, imgB)] [] None []
           [("sha256:a"%string, layerA); ("sha256:b"%string, layerB)] []
           (inl [mkMetadata "sha256:a" "sha256:a" 60]) [] [].

(** ** The legacy layer cache driver (daemon/images/cache_lru.go)

    The driver keeps one [imageCacheItem] per cached layer in an LRU list,
    indexed by chain ID.  The layer store and the image store are
    collaborators ([Stores]).  [cacheL] is modelled for one goroutine: a lock
    operation that could never be granted, or an unlock of a mutex that is
    not held, is a fatal error ([Panic]). *)
Module LegacyLRU.

(** [layer.Layer], with what its methods answer. *)
#[warnings="-register-all"]
Inductive Layer : Type :=
| mkLayer (chainID : string) (diffSize size : Z + string) (parent : option Layer).

Definition ChainID (l : Layer) : string :=
  match l with mkLayer chainID _ _ _ => chainID end.
Definition DiffSize (l : Layer) : Z + string :=
  match l with mkLayer _ diffSize _ _ => diffSize end.
Definition Size (l : Layer) : Z + string :=
  match l with mkLayer _ _ size _ => size end.
Definition Parent (l : Layer) : option Layer :=
  match l with mkLayer _ _ _ parent => parent end.

(** [image.Image]: [RootFS] may be nil. *)
Record Image : Type := mkImage {
  ID : string;
  RootFS : option (list string)
}.

(** The errors the driver returns: those of the collaborators, and its
    own. *)
Inductive Error : Type :=
| StoreError (msg : string)
| RootFSNotSet (imgID : string)
| ImageTooLarge (imgID : string) (topSize cap : Z)
| LayerStoreNotSet
| RootDeleted (imgID chainID : string).

(** [sync.RWMutex] as one goroutine sees it. *)
Inductive RWMutex : Type :=
| Free
| Writer
| Readers (n : nat).

Definition Lock (m : RWMutex) : option RWMutex :=
  match m with Free => Some Writer | _ => None end.
Definition Unlock (m : RWMutex) : option RWMutex :=
  match m with Writer => Some Free | _ => None end.
Definition RLock (m : RWMutex) : option RWMutex :=
  match m with
  | Free => Some (Readers 1)
  | Readers n => Some (Readers (S n))
  | Writer => None
  end.
Definition RUnlock (m : RWMutex) : option RWMutex :=
  match m with
  | Readers 1 => Some Free
  | Readers (S (S n)) => Some (Readers (S n))
  | _ => None
  end.

(** The collaborators: [hasLayerStore] tells whether
    [layerStores[runtime.GOOS]] is set; [ReleaseSingle] answers whether
    [removed] is non-nil; [checkImageDeleteConflict] whether the conflict is
    non-nil; [Map] is the image store's map, in the order a [range] visits
    it. *)
Class Stores (W : Type) : Type := {
  hasLayerStore : W → bool;
  Peek : W → string → W * (Layer + string);
  ReleaseSingle : W → Layer → W * (bool + string);
  checkImageDeleteConflict : W → string → bool;
  Map : W → list (string * Image);
  DeleteReference : W → string → W * option string;
  Get : W → string → W * (Image + string);
  CreateChainID : list string → string
}.

Record imageCacheItem : Type := mkItem {
  layer : Layer;
  images : gset string;
  children : gset string
}.

Record imageCacheDriver : Type := mkBase {
  capacity : Z;
  level : Z;
  cacheL : RWMutex
}.

Record lruLayerCacheDriver : Type := mkDriver {
  base : imageCacheDriver;
  items : gmap string Element;
  evictList : List imageCacheItem
}.

Definition newLRULayerCacheDriver (cap : Z) : lruLayerCacheDriver :=
  mkDriver (mkBase cap 0 Free) ∅ New.

Definition withMutex (d : lruLayerCacheDriver) (m : RWMutex) : lruLayerCacheDriver :=
  mkDriver (mkBase (capacity (base d)) (level (base d)) m) (items d) (evictList d).

Definition withList (d : lruLayerCacheDriver) (l : List imageCacheItem)
    : lruLayerCacheDriver :=
  mkDriver (base d) (items d) l.

(** [container/list]'s [MoveBefore]: nothing happens unless both elements
    are linked and differ. *)
Fixpoint insertBefore (mark e : Element) (es : list Element) : list Element :=
  match es with
  | [] => []
  | x :: rest =>
      if bool_decide (x = mark) then e :: x :: rest
      else x :: insertBefore mark e rest
  end.

Definition MoveBefore {V : Type} (l : List V) (e mark : Element) : List V :=
  if linked l e && linked l mark && negb (bool_decide (e = mark))
  then mkList (insertBefore mark e (unlink e (order l))) (cells l) (fresh l)
  else l.

(** [defer cacheL.Unlock()]. *)
Definition unlocking {A : Type} (r : outcome (A * lruLayerCacheDriver * option Error))
    : outcome (A * lruLayerCacheDriver * option Error) :=
  match r with
  | Done (a, d, err) =>
      match Unlock (cacheL (base d)) with
      | Some m => Done (a, withMutex d m, err)
      | None => Panic
      end
  | Panic => Panic
  | OutOfFuel => OutOfFuel
  end.

Section WithStores.
Context {W : Type} `{Stores W}.

Definition layerFunc : Type :=
  W → lruLayerCacheDriver → Layer → string → string → string →
  outcome (W * lruLayerCacheDriver * option Error).

Definition removeChild (d : lruLayerCacheDriver) (l : Layer) (childID : string)
    : outcome lruLayerCacheDriver :=
  match items d !! ChainID l with
  | Some e =>
      match Value (evictList d) e with
      | None => Panic
      | Some i =>
          Done (withList d (Store (evictList d) e
                              (mkItem (layer i) (images i) (children i ∖ {[childID]}))))
      end
  | None => Done d
  end.

Definition removeLayer : layerFunc := λ w d l imgID childID rootID,
  let chainID := ChainID l in
  match RLock (cacheL (base d)) with
  | None => Panic
  | Some m1 =>
      match items d !! chainID with
      | Some e =>
          match RUnlock m1 with
          | None => Panic
          | Some m2 =>
              match Lock m2 with
              | None => Panic
              | Some m3 =>
                  let d3 := withMutex d m3 in
                  unlocking
                    match Value (evictList d3) e with
                    | None => Panic
                    | Some i =>
                        match DiffSize l with
                        | inr err => Done (w, d3, Some (StoreError err))
                        | inl size =>
                            let i' := mkItem (layer i) (images i ∖ {[imgID]}) (children i) in
                            let d4 := withList d3 (Store (evictList d3) e i') in
                            if bool_decide (images i' = ∅) && bool_decide (children i' = ∅)
                            then
                              let d5 :=
                                mkDriver (mkBase (capacity (base d4))
                                                 (sub64 (level (base d4)) size)
                                                 (cacheL (base d4)))
                                         (delete chainID (items d4))
                                         (Remove (evictList d4) e) in
                              match Parent l with
                              | Some p =>
                                  match removeChild d5 p chainID with
                                  | Done d6 => Done (w, d6, None)
                                  | Panic => Panic
                                  | OutOfFuel => OutOfFuel
                                  end
                              | None => Done (w, d5, None)
                              end
                            else
                              match items d4 !! rootID with
                              | None => Done (w, d4, Some (RootDeleted imgID chainID))
                              | Some re =>
                                  Done (w, withList d4 (MoveBefore (evictList d4) e re), None)
                              end
                        end
                    end
              end
          end
      | None =>
          match RUnlock m1 with
          | None => Panic
          | Some m2 => Done (w, withMutex d m2, None)
          end
      end
  end.

Definition getLayer : layerFunc := λ w d l imgID childID rootID,
  let chainID := ChainID l in
  match RLock (cacheL (base d)) with
  | None => Panic
  | Some m1 =>
      match items d !! chainID with
      | Some e =>
          match RUnlock m1 with
          | None => Panic
          | Some m2 =>
              match Lock m2 with
              | None => Panic
              | Some m3 =>
                  let d3 := withMutex d m3 in
                  unlocking
                    match Value (evictList d3) e with
                    | None => Panic
                    | Some i =>
                        let i' := mkItem (layer i) ({[imgID]} ∪ images i) (children i) in
                        Done (w, withList d3 (MoveToFront (Store (evictList d3) e i') e),
                              None)
                    end
              end
          end
      | None =>
          match RUnlock m1 with
          | None => Panic
          | Some m2 => Done (w, withMutex d m2, None)
          end
      end
  end.

(** The last loop of [evict]: [for id := range i.images], over the image
    IDs in the order [ids] lists them.  The error of [removeLayer] is
    dropped. *)
Fixpoint removeImages (w : W) (d : lruLayerCacheDriver) (l : Layer) (rootID : string)
    (ids : list string) : outcome (W * lruLayerCacheDriver * option Error) :=
  match ids with
  | [] => Done (w, d, None)
  | id :: rest =>
      let w1 :=
        if bool_decide (id ∈ (Map w).*1) then fst (DeleteReference w id) else w in
      match Unlock (cacheL (base d)) with
      | None => Panic
      | Some m1 =>
          match removeLayer w1 (withMutex d m1) l id EmptyString rootID with
          | Done (w2, d2, _) =>
              match Lock (cacheL (base d2)) with
              | None => Panic
              | Some m3 => removeImages w2 (withMutex d2 m3) l rootID rest
              end
          | Panic => Panic
          | OutOfFuel => OutOfFuel
          end
      end
  end.

Definition evict (w : W) (d : lruLayerCacheDriver) (imgID rootID : string)
    : outcome (W * lruLayerCacheDriver * option Error) :=
  match Back (evictList d) with
  | None => Done (w, d, None)
  | Some e =>
      match Value (evictList d) e with
      | None => Panic
      | Some i =>
          let l := layer i in
          match DiffSize l with
          | inr err => Done (w, d, Some (StoreError err))
          | inl size =>
              if existsb (λ id, bool_decide (id = imgID) || checkImageDeleteConflict w id)
                         (elements (images i))
              then Done (w, withList d (MoveToFront (evictList d) e), None)
              else if negb (hasLayerStore w) then Panic
              else
                let '(w1, r) := ReleaseSingle w l in
                match r with
                | inr err => Done (w1, d, Some (StoreError err))
                | inl false => Done (w1, d, None)
                | inl true => removeImages w1 d l rootID (elements (images i))
                end
          end
      end
  end.

(** [for lru.level+size > lru.capacity] in [putLayer]. *)
Fixpoint evictLoop (fuel : nat) (w : W) (d : lruLayerCacheDriver) (size : Z)
    (imgID rootID : string) : outcome (W * lruLayerCacheDriver * option Error) :=
  if capacity (base d) <? add64 (level (base d)) size then
    match fuel with
    | O => OutOfFuel
    | S fuel' =>
        match evict w d imgID rootID with
        | Done (w1, d1, None) => evictLoop fuel' w1 d1 size imgID rootID
        | Done (w1, d1, Some err) => Done (w1, d1, Some err)
        | Panic => Panic
        | OutOfFuel => OutOfFuel
        end
    end
  else Done (w, d, None).

Definition putLayer (fuel : nat) : layerFunc := λ w d l imgID childID rootID,
  let chainID := ChainID l in
  match DiffSize l with
  | inr err => Done (w, d, Some (StoreError err))
  | inl size =>
      match Lock (cacheL (base d)) with
      | None => Panic
      | Some m1 =>
          let d1 := withMutex d m1 in
          unlocking
            match items d1 !! chainID with
            | Some e =>
                match Value (evictList d1) e with
                | None => Panic
                | Some i =>
                    let i' :=
                      mkItem (layer i) ({[imgID]} ∪ images i)
                             (if (0 <? String.length childID)%nat
                              then {[childID]} ∪ children i else children i) in
                    Done (w, withList d1 (MoveToFront (Store (evictList d1) e i') e), None)
                end
            | None =>
                match evictLoop fuel w d1 size imgID rootID with
                | Done (w2, d2, None) =>
                    let i :=
                      mkItem l {[imgID]}
                             (if (0 <? String.length childID)%nat then {[childID]} else ∅) in
                    let '(lst, e) := PushFront (evictList d2) i in
                    Done (w2,
                          mkDriver (mkBase (capacity (base d2))
                                           (add64 (level (base d2)) size)
                                           (cacheL (base d2)))
                                   (<[chainID := e]> (items d2)) lst,
                          None)
                | Done (w2, d2, Some err) => Done (w2, d2, Some err)
                | Panic => Panic
                | OutOfFuel => OutOfFuel
                end
            end
      end
  end.

(** The chain IDs as [applyFuncToLayers] appends them, the base first. *)
Fixpoint chainList (todo diffIDs : list string) : list string :=
  match todo with
  | [] => []
  | diffID :: todo' =>
      let diffIDs' := diffIDs ++ [diffID] in
      CreateChainID diffIDs' :: chainList todo' diffIDs'
  end.

(** [for i := len(chainIDs) - 1; i >= 0; i--], with [n] for [i + 1]. *)
Fixpoint applyFrom (f : layerFunc) (w : W) (d : lruLayerCacheDriver) (imgID : string)
    (chainIDs : list string) (n : nat) : outcome (W * lruLayerCacheDriver * option Error) :=
  match n with
  | O => Done (w, d, None)
  | S i =>
      match chainIDs !! i, chainIDs !! 0%nat with
      | Some chainID, Some rootID =>
          let '(w1, r) := Peek w chainID in
          match r with
          | inr err => Done (w1, d, Some (StoreError err))
          | inl l =>
              let childID :=
                if (i <? length chainIDs - 1)%nat
                then chainIDs !! S i
                else Some EmptyString in
              match childID with
              | None => Panic
              | Some childID =>
                  match f w1 d l imgID childID rootID with
                  | Done (w2, d2, None) => applyFrom f w2 d2 imgID chainIDs i
                  | Done (w2, d2, Some err) => Done (w2, d2, Some err)
                  | Panic => Panic
                  | OutOfFuel => OutOfFuel
                  end
              end
          end
      | _, _ => Panic
      end
  end.

Definition applyFuncToLayers (img : Image) (f : layerFunc) (w : W)
    (d : lruLayerCacheDriver) : outcome (W * lruLayerCacheDriver * option Error) :=
  if negb (hasLayerStore w) then Done (w, d, Some LayerStoreNotSet)
  else
    match RootFS img with
    | None => Panic
    | Some diffIDs =>
        let chainIDs := chainList diffIDs [] in
        applyFrom f w d (ID img) chainIDs (length chainIDs)
    end.

(** [checkImageSize] is only called with [RootFS] set. *)
Definition checkImageSize (d : lruLayerCacheDriver) (w : W) (imgID : string)
    (diffIDs : list string) : outcome (W * option Error) :=
  if negb (hasLayerStore w) then Panic
  else
    let '(w1, r) := Peek w (CreateChainID diffIDs) in
    match r with
    | inr err => Done (w1, Some (StoreError err))
    | inl topLayer =>
        match Size topLayer with
        | inr err => Done (w1, Some (StoreError err))
        | inl topSize =>
            if capacity (base d) <? topSize
            then Done (w1, Some (ImageTooLarge imgID topSize (capacity (base d))))
            else Done (w1, None)
        end
    end.

Definition Put (fuel : nat) (w : W) (d : lruLayerCacheDriver) (img : option Image)
    : outcome (W * lruLayerCacheDriver * option Error) :=
  match img with
  | None => Done (w, d, None)
  | Some img =>
      match RootFS img with
      | None => Done (w, d, Some (RootFSNotSet (ID img)))
      | Some diffIDs =>
          match checkImageSize d w (ID img) diffIDs with
          | Done (w1, None) => applyFuncToLayers img (putLayer fuel) w1 d
          | Done (w1, Some err) => Done (w1, d, Some err)
          | Panic => Panic
          | OutOfFuel => OutOfFuel
          end
      end
  end.

Definition GetImage (w : W) (d : lruLayerCacheDriver) (id : string)
    : outcome (W * lruLayerCacheDriver * option Error) :=
  let '(w1, r) := Get w id in
  match r with
  | inr err => Done (w1, d, Some (StoreError err))
  | inl img => applyFuncToLayers img getLayer w1 d
  end.

Definition Remove (w : W) (d : lruLayerCacheDriver) (img : option Image)
    : outcome (W * lruLayerCacheDriver * option Error) :=
  match img with
  | None => Done (w, d, None)
  | Some img => applyFuncToLayers img removeLayer w d
  end.

(** [loadExistingImages]: the errors of [Put] are logged and dropped. *)
Fixpoint loadImages (fuel : nat) (w : W) (d : lruLayerCacheDriver)
    (imgs : list (string * Image)) : outcome (W * lruLayerCacheDriver) :=
  match imgs with
  | [] => Done (w, d)
  | (_, img) :: rest =>
      match Put fuel w d (Some img) with
      | Done (w1, d1, _) => loadImages fuel w1 d1 rest
      | Panic => Panic
      | OutOfFuel => OutOfFuel
      end
  end.

Definition loadExistingImages (fuel : nat) (w : W) (d : lruLayerCacheDriver)
    : outcome (W * lruLayerCacheDriver) :=
  loadImages fuel w d (Map w).

(** [Level] reads the level under the read lock. *)
Definition Level (d : lruLayerCacheDriver) : outcome Z :=
  match RLock (cacheL (base d)) with
  | None => Panic
  | Some m1 =>
      match RUnlock m1 with
      | None => Panic
      | Some _ => Done (level (base d))
      end
  end.

(** [newCacheDriver]: both branches of its [switch] build the same driver. *)
Definition newCacheDriver (RAMInBytes : string → Z + string) (fuel : nat)
    (driver capacityStr : string) (w : W) : outcome (W * lruLayerCacheDriver) :=
  let cap := Legacy.driverCapacity RAMInBytes capacityStr in
  let d :=
    if bool_decide (driver = "layer-lru"%string)
    then newLRULayerCacheDriver cap
    else newLRULayerCacheDriver cap in
  loadExistingImages fuel w d.
End WithStores.
End LegacyLRU.

(** A concrete layer store and image store for the legacy driver: tables,
    one answer for every [ReleaseSingle], and the calls made so far. *)
Inductive DepotCall : Type :=
| DepotPeek (chainID : string)
| DepotReleaseSingle (chainID : string)
| DepotDeleteReference (imgID : string)
| DepotGet (imgID : string).

Record Depot : Type := mkDepot {
  depotHasStore : bool;
  depotLayers : list (string * LegacyLRU.Layer);
  depotConflicts : list string;
  depotReleased : bool + string;
  depotImages : list (string * LegacyLRU.Image);
  depotCalls : list DepotCall
}.

Definition depotRecord (w : Depot) (c : DepotCall) : Depot :=
  mkDepot (depotHasStore w) (depotLayers w) (depotConflicts w) (depotReleased w)
          (depotImages w) (depotCalls w ++ [c]).

#[export] Instance depot : LegacyLRU.Stores Depot := {|
  LegacyLRU.hasLayerStore := depotHasStore;
  LegacyLRU.Peek := λ w chainID,
    (depotRecord w (DepotPeek chainID),
     match assoc chainID (depotLayers w) with
     | Some l => inl l
     | None => inr "layer does not exist"%string
     end);
  LegacyLRU.ReleaseSingle := λ w l,
    (depotRecord w (DepotReleaseSingle (LegacyLRU.ChainID l)), depotReleased w);
  LegacyLRU.checkImageDeleteConflict := λ w id, bool_decide (id ∈ depotConflicts w);
  LegacyLRU.Map := depotImages;
  LegacyLRU.DeleteReference := λ w id,
    (mkDepot (depotHasStore w) (depotLayers w) (depotConflicts w) (depotReleased w)
             (filter (λ p, fst p ≠ id) (depotImages w))
             (depotCalls w ++ [DepotDeleteReference id]), None);
  LegacyLRU.Get := λ w id,
    (depotRecord w (DepotGet id),
     match assoc id (depotImages w) with
     | Some img => inl img
     | None => inr "No such image"%string
     end);
  LegacyLRU.CreateChainID := String.concat "+"
|}.

(** An item of the legacy driver is in use for [imgID]: one of its images
    is [imgID] itself or cannot be deleted. *)
Definition inUse {W : Type} `{LegacyLRU.Stores W} (w : W) (imgID : string)
    (l : List LegacyLRU.imageCacheItem) (e : Element) : Prop :=
  ∃ (i : LegacyLRU.imageCacheItem) (size : Z) (id : string),
    Value l e = Some i
    ∧ LegacyLRU.DiffSize (LegacyLRU.layer i) = inl size
    ∧ id ∈ LegacyLRU.images i
    ∧ (id = imgID ∨ LegacyLRU.checkImageDeleteConflict w id = true).

(** Two images of one layer each, [P] in use by a container, and the
    driver with capacity 100 after [Put(P)]. *)
Definition legacyLayerP : LegacyLRU.Layer :=
  LegacyLRU.mkLayer "sha256:p" (inl 60) (inl 60) None.
Definition legacyLayerQ : LegacyLRU.Layer :=
  LegacyLRU.mkLayer "sha256:q" (inl 60) (inl 60) None.
Definition legacyImgP : LegacyLRU.Image := LegacyLRU.mkImage "P" (Some ["sha256:p"%string]).
Definition legacyImgQ : LegacyLRU.Image := LegacyLRU.mkImage "Q" (Some ["sha256:q"%string]).

Definition depotPQ (conflicts : list string) (released : bool + string) : Depot :=
  mkDepot true [("sha256:p"%string, legacyLayerP); ("sha256:q"%string, legacyLayerQ)]
          conflicts released [("P"%string, legacyImgP); ("Q"%string, legacyImgQ)] [].

Definition legacyDriverP : LegacyLRU.lruLayerCacheDriver :=
  LegacyLRU.mkDriver (LegacyLRU.mkBase 100 60 LegacyLRU.Free)
                     {[ "sha256:p"%string := 0%nat ]}
                     (mkList [0%nat]
                             {[ 0%nat := LegacyLRU.mkItem legacyLayerP {[ "P"%string ]} ∅ ]} 1).

(** What [applyFuncToLayers] hands to its layer function, one entry per
    layer: the chain ID that is peeked, the chain ID of the layer above and
    the chain ID of the base layer.  [visitsDown] takes the chain IDs from
    the top layer down. *)
Fixpoint visitsDown (chainIDs : list string) (above rootID : string)
    : list (string * string * string) :=
  match chainIDs with
  | [] => []
  | chainID :: rest => (chainID, above, rootID) :: visitsDown rest chainID rootID
  end.

Definition legacyVisits {W : Type} `{LegacyLRU.Stores W} (diffIDs : list string)
    : list (string * string * string) :=
  let chainIDs := LegacyLRU.chainList diffIDs [] in
  visitsDown (reverse chainIDs) EmptyString (default EmptyString (chainIDs !! 0%nat)).

(** Peek each layer and apply [f], until an error. *)
Fixpoint visitAll {W : Type} `{LegacyLRU.Stores W} (f : LegacyLRU.layerFunc) (w : W)
    (d : LegacyLRU.lruLayerCacheDriver) (imgID : string)
    (visits : list (string * string * string))
    : outcome (W * LegacyLRU.lruLayerCacheDriver * option LegacyLRU.Error) :=
  match visits with
  | [] => Done (w, d, None)
  | (chainID, childID, rootID) :: rest =>
      let '(w1, r) := LegacyLRU.Peek w chainID in
      match r with
      | inr err => Done (w1, d, Some (LegacyLRU.StoreError err))
      | inl l =>
          match f w1 d l imgID childID rootID with
          | Done (w2, d2, None) => visitAll f w2 d2 imgID rest
          | Done (w2, d2, Some err) => Done (w2, d2, Some err)
          | Panic => Panic
          | OutOfFuel => OutOfFuel
          end
      end
  end.

Definition legacyImgR : LegacyLRU.Image :=
  LegacyLRU.mkImage "R" (Some ["sha256:r1"%string; "sha256:r2"%string]).

(** The invariant of the legacy driver on index and list: linked elements
    were handed out by [PushFront], every key resolves to a linked element
    that holds the layer with this chain ID, and every linked element is
    indexed. *)
Definition legacyIndexed (its : gmap string Element)
    (lst : List LegacyLRU.imageCacheItem) : Prop :=
  (∀ e, e ∈ order lst → (e < fresh lst)%nat)
  ∧ (∀ k e, its !! k = Some e →
       e ∈ order lst
       ∧ ∃ i, Value lst e = Some i ∧ LegacyLRU.ChainID (LegacyLRU.layer i) = k)
  ∧ (∀ e, e ∈ order lst → ∃ k, its !! k = Some e).

Definition legacyWellFormed (m : LegacyLRU.RWMutex) (d : LegacyLRU.lruLayerCacheDriver)
    : Prop :=
  LegacyLRU.cacheL (LegacyLRU.base d) = m
  ∧ legacyIndexed (LegacyLRU.items d) (LegacyLRU.evictList d).

(** An operation of the legacy driver did not crash, and if it returned,
    [P] holds of the world and the invariants hold with the mutex in state
    [m].  [spin] tells whether the operation may go on for ever. *)
Definition legacySafe {W : Type} (P : W → Prop) (m : LegacyLRU.RWMutex) (spin : bool)
    (r : outcome (W * LegacyLRU.lruLayerCacheDriver * option LegacyLRU.Error)) : Prop :=
  match r with
  | Done (w, d, _) => P w ∧ legacyWellFormed m d
  | Panic => False
  | OutOfFuel => spin = true
  end.

(** [P] holds of worlds with a layer store and is kept by every call. *)
Definition storesKeep {W : Type} `{LegacyLRU.Stores W} (P : W → Prop) : Prop :=
  (∀ w, P w → LegacyLRU.hasLayerStore w = true)
  ∧ (∀ w chainID, P w → P (LegacyLRU.Peek w chainID).1)
  ∧ (∀ w l, P w → P (LegacyLRU.ReleaseSingle w l).1)
  ∧ (∀ w id, P w → P (LegacyLRU.DeleteReference w id).1)
  ∧ (∀ w id, P w → P (LegacyLRU.Get w id).1).

(** A store that holds the two layers of [R]. *)
Definition legacyLayerR1 : LegacyLRU.Layer :=
  LegacyLRU.mkLayer "sha256:r1" (inl 30) (inl 30) None.
Definition legacyLayerR2 : LegacyLRU.Layer :=
  LegacyLRU.mkLayer "sha256:r1+sha256:r2" (inl 20) (inl 50) (Some legacyLayerR1).

Definition depotR : Depot :=
  mkDepot true
          [("sha256:r1"%string, legacyLayerR1);
           ("sha256:r1+sha256:r2"%string, legacyLayerR2)]
          [] (inl true) [("R"%string, legacyImgR)] [].

(** The diff sizes that [sz] gives for the keys of the index, summed. *)
Definition keysSize (sz : string → Z) (its : gmap string Element) : Z :=
  foldr (λ kv acc, sz kv.1 + acc) 0 (map_to_list its).

(** The accounting of the legacy driver: the level is the sum of the diff
    sizes of the indexed layers, as an [int64], and every indexed layer
    has the diff size [sz] gives for its chain ID. *)
Definition legacyAccounted (sz : string → Z) (lvl : Z) (its : gmap string Element)
    (lst : List LegacyLRU.imageCacheItem) : Prop :=
  lvl = wrap64 (keysSize sz its)
  ∧ ∀ k e i, its !! k = Some e → Value lst e = Some i →
      LegacyLRU.DiffSize (LegacyLRU.layer i) = inl (sz k).

Definition legacyBalanced (sz : string → Z) (d : LegacyLRU.lruLayerCacheDriver) : Prop :=
  legacyAccounted sz (LegacyLRU.level (LegacyLRU.base d)) (LegacyLRU.items d)
                  (LegacyLRU.evictList d).

(** A layer whose diff size can be read has the diff size [sz] gives for
    its chain ID. *)
Definition sizedBy (sz : string → Z) (l : LegacyLRU.Layer) : Prop :=
  ∀ size, LegacyLRU.DiffSize l = inl size → size = sz (LegacyLRU.ChainID l).

(** The layer store hands out layers with the diff sizes [sz]. *)
Definition sizesAgree {W : Type} `{LegacyLRU.Stores W} (P : W → Prop)
    (sz : string → Z) : Prop :=
  ∀ w chainID l, P w → (LegacyLRU.Peek w chainID).2 = inl l → sizedBy sz l.

(** * Properties *)

(** ** Loops *)

Section ImageLRUFacts.
Context {W : Type} `{ImageService W}.

Lemma imageLRU_evictLoop_over (fuel : nat) (w : W) (c : ImageLRU.imageLRUCache) :
  capacity (ImageLRU.base c) < level (ImageLRU.base c) →
  ImageLRU.evictLoop (S fuel) w c =
    match ImageLRU.evictTurn w c with
    | Continue (w', c') => ImageLRU.evictLoop fuel w' c'
    | Return r => Done r
    | Crash => Panic
    end.
Proof.
  intros Hlt. apply Z.ltb_lt in Hlt. simpl. rewrite Hlt. reflexivity.
Qed.

Lemma imageLRU_evictLoop_within (fuel : nat) (w : W) (c : ImageLRU.imageLRUCache) :
  level (ImageLRU.base c) ≤ capacity (ImageLRU.base c) →
  ImageLRU.evictLoop fuel w c = Done (w, c).
Proof.
  intros Hle. apply Z.ltb_ge in Hle. destruct fuel; simpl; rewrite Hle; reflexivity.
Qed.

(** A turn that goes round with the cache as it was never ends the loop. *)
Lemma imageLRU_evictLoop_spins (P : W → Prop) (c : ImageLRU.imageLRUCache) :
  capacity (ImageLRU.base c) < level (ImageLRU.base c) →
  (∀ w, P w → ∃ w', ImageLRU.evictTurn w c = Continue (w', c) ∧ P w') →
  ∀ fuel w, P w → ImageLRU.evictLoop fuel w c = OutOfFuel.
Proof.
  intros Hlt Hturn. induction fuel as [|fuel IH]; intros w Hw.
  - simpl. apply Z.ltb_lt in Hlt. rewrite Hlt. reflexivity.
  - rewrite imageLRU_evictLoop_over by exact Hlt.
    destruct (Hturn w Hw) as (w' & -> & Hw'). apply IH, Hw'.
Qed.

(** What a turn of image-LRU's eviction does when [ImageDelete] answers
    "no such image" for the back candidate. *)
Lemma imageLRU_evictTurn_no_such_image (w w1 w2 : W) (c : ImageLRU.imageLRUCache)
    (e : Element) (img : Image) (size : Z) (msg : string) :
  Back (ImageLRU.evictList c) = Some e →
  Value (ImageLRU.evictList c) e = Some img →
  getImageSize w img = (w1, inl size) →
  ImageDelete w1 (ImageID img) true false = (w2, Some msg) →
  mentions msg "no such image" = true →
  ImageLRU.evictTurn w c = Continue (w2, c).
Proof.
  intros Hback Hval Hsize Hdel Hmsg. unfold ImageLRU.evictTurn.
  rewrite Hback, Hval, Hsize, Hdel, Hmsg.
  destruct (mentions msg "conflict"); reflexivity.
Qed.
End ImageLRUFacts.

Lemma imageCacheBA_turn (tr : list Call) :
  ImageLRU.evictTurn (storeAB (Some "No such image: A"%string) tr) imageCacheBA =
    Continue (storeAB (Some "No such image: A"%string)
                (((tr ++ [CallGetReadOnlyLayer "sha256:a" "linux"])
                    ++ [CallReleaseReadOnlyLayer (Some "sha256:a"%string) "linux"])
                    ++ [CallImageDelete "A" true false]),
              imageCacheBA).
Proof. reflexivity. Qed.

(** C1, at a failing input: capacity 100, [A] (60 bytes) resident, [B]
    (60 bytes) being put, and [ImageDelete] answering "No such image" for
    [A].  The turn of [evict] leaves [A] in the map and in the list and the
    level at 120, so the loop meets the same candidate again: [PutImage]
    returns for no number of iterations. *)
Theorem imageLRU_no_such_image_not_removed :
  ImageLRU.evictTurn (storeAB (Some "No such image: A"%string) []) imageCacheBA =
    Continue (storeAB (Some "No such image: A"%string)
                [CallGetReadOnlyLayer "sha256:a" "linux";
                 CallReleaseReadOnlyLayer (Some "sha256:a"%string) "linux";
                 CallImageDelete "A" true false],
              imageCacheBA)
  ∧ ImageLRU.images imageCacheBA !! "A"%string = Some 0%nat
  ∧ level (ImageLRU.base imageCacheBA) = 120
  ∧ ∀ fuel : nat,
      ImageLRU.PutImage fuel (storeAB (Some "No such image: A"%string) []) imageCacheA
                        (Some imgB) = OutOfFuel.
Proof.
  split; [reflexivity|]. split; [reflexivity|]. split; [reflexivity|].
  intros fuel.
  change (ImageLRU.PutImage fuel (storeAB (Some "No such image: A"%string) []) imageCacheA
            (Some imgB))
    with (ImageLRU.evictLoop fuel
            (storeAB (Some "No such image: A"%string)
               [CallGetReadOnlyLayer "sha256:b" "linux";
                CallReleaseReadOnlyLayer (Some "sha256:b"%string) "linux";
                CallGetReadOnlyLayer "sha256:b" "linux";
                CallReleaseReadOnlyLayer (Some "sha256:b"%string) "linux"])
            imageCacheBA).
  apply (imageLRU_evictLoop_spins
           (λ w, ∃ tr, w = storeAB (Some "No such image: A"%string) tr)).
  - simpl. lia.
  - intros w [tr ->]. eexists. split; [apply imageCacheBA_turn|]. eexists. reflexivity.
  - eexists. reflexivity.
Qed.

Section LayerLRUFacts.
Context {W : Type} `{ImageService W}.

Lemma layerLRU_evictLoop_over (fuel : nat) (current : string) (w : W)
    (c : layerLRUCache cacheLayer) (cb : gmap string nat) :
  capacity (base c) < level (base c) →
  LayerLRU.evictLoop (S fuel) current (w, c, cb) =
    match LayerLRU.evictTurn fuel current (w, c, cb) with
    | Done (Continue st') => LayerLRU.evictLoop fuel current st'
    | Done (Return (w', c', _)) => Done (w', c')
    | Done Crash => Panic
    | Panic => Panic
    | OutOfFuel => OutOfFuel
    end.
Proof.
  intros Hlt. apply Z.ltb_lt in Hlt. simpl. rewrite Hlt. reflexivity.
Qed.

Lemma layerLRU_evictLoop_within (fuel : nat) (current : string) (w : W)
    (c : layerLRUCache cacheLayer) (cb : gmap string nat) :
  level (base c) ≤ capacity (base c) →
  LayerLRU.evictLoop fuel current (w, c, cb) = Done (w, c).
Proof.
  intros Hle. apply Z.ltb_ge in Hle. destruct fuel; simpl; rewrite Hle; reflexivity.
Qed.

Lemma layerLRU_evict_within (fuel : nat) (current : string) (w : W)
    (c : layerLRUCache cacheLayer) :
  level (base c) ≤ capacity (base c) →
  LayerLRU.evict fuel w c current = Done (w, c).
Proof.
  intros Hle. unfold LayerLRU.evict. case_bool_decide; [reflexivity|].
  apply layerLRU_evictLoop_within, Hle.
Qed.


(** The release loop never calls [ReleaseReadOnlyLayer] again, so an error
    that is not "layer not retained" stays the error of every iteration. *)
Lemma layerLRU_releaseLoop_spins (w : W) (chainID : string) (cl : cacheLayer) (msg : string) :
  mentions msg "layer not retained" = false →
  ∀ fuel, LayerLRU.releaseLoop fuel w chainID cl (Some msg) = OutOfFuel.
Proof.
  intros Hmsg. induction fuel as [|fuel IH]; simpl; [reflexivity|].
  rewrite Hmsg. exact IH.
Qed.

Lemma layerLRU_evictTurn_release_spins (fuel : nat) (current : string) (w w1 w2 : W)
    (c : layerLRUCache cacheLayer) (cb : gmap string nat)
    (e : Element) (cl : cacheLayer) (l : Layer) (msg : string) :
  Back (evictList c) = Some e →
  Value (evictList c) e = Some cl →
  cl_layer cl = Some l →
  LayerLRU.deleteImages w current (cl_images cl) = (w1, AllDeleted) →
  ReleaseReadOnlyLayer w1 (cl_layer cl) (cl_os cl) = (w2, inr msg) →
  mentions msg "layer not retained" = false →
  LayerLRU.evictTurn fuel current (w, c, cb) = OutOfFuel.
Proof.
  intros Hback Hval Hlayer Hdel Hrel Hmsg. unfold LayerLRU.evictTurn, LayerLRU.release.
  rewrite Hlayer in Hrel. rewrite Hback, Hval, Hlayer, Hdel, Hrel.
  rewrite layerLRU_releaseLoop_spins by exact Hmsg. reflexivity.
Qed.
End LayerLRUFacts.

Section ArchiveLRUFacts.
Context {W : Type} `{ImageService W}.

Lemma archiveLRU_evictLoop_within (fuel : nat) (w : W)
    (c : layerLRUCache archiveLayer) (cb : gmap string nat) :
  level (base c) ≤ capacity (base c) →
  ArchiveLRU.evictLoop fuel (w, c, cb) = Done (w, c).
Proof.
  intros Hle. apply Z.ltb_ge in Hle. destruct fuel; simpl; rewrite Hle; reflexivity.
Qed.

Lemma archiveLRU_evict_within (fuel : nat) (w : W) (c : layerLRUCache archiveLayer) :
  level (base c) ≤ capacity (base c) →
  ArchiveLRU.evict fuel w c = Done (w, c).
Proof.
  intros Hle. unfold ArchiveLRU.evict. case_bool_decide; [reflexivity|].
  apply archiveLRU_evictLoop_within, Hle.
Qed.

(** The conflict branch of archive-LRU's [evict], as in layer-LRU. *)
Lemma archiveLRU_evictTurn_conflict (w w1 : W)
    (c : layerLRUCache archiveLayer) (cb : gmap string nat)
    (e : Element) (al : archiveLayer) (l : Layer) :
  Back (evictList c) = Some e →
  Value (evictList c) e = Some al →
  cl_layer (al_cacheLayer al) = Some l →
  ArchiveLRU.deleteImages w (cl_images (al_cacheLayer al)) = (w1, Conflict) →
  ArchiveLRU.evictTurn (w, c, cb) =
    if snd (bump cb (ChainID l))
    then Return (w1, c, fst (bump cb (ChainID l)))
    else Continue (w1, c, fst (bump cb (ChainID l))).
Proof.
  intros Hback Hval Hlayer Hdel. unfold ArchiveLRU.evictTurn.
  rewrite Hback, Hval, Hlayer, Hdel.
  destruct (bump cb (ChainID l)) as [cb' [|]]; reflexivity.
Qed.
End ArchiveLRUFacts.

(** C2, at a failing input: capacity 100, the layer of [A] (60 bytes)
    resident, [B] (60 bytes) being put, and [ImageDelete] answering
    "conflict" for [A].  The back node is not moved: the layer of [A] stays
    behind the layer of [B], [ImageDelete] is tried on [A] four times in a
    row, and then eviction gives up.  Both engines behave so. *)
Theorem layer_evict_conflict_keeps_order (n : nat) :
  LayerLRU.PutImage (4 + n) (storeAB (Some conflictMsg) []) layerCacheA (Some imgB) =
    Done (storeAB (Some conflictMsg)
            [CallGetReadOnlyLayer "sha256:b" "linux";
             CallReleaseReadOnlyLayer (Some "sha256:b"%string) "linux";
             CallGetReadOnlyLayer "sha256:b" "linux";
             CallImageDelete "A" false false; CallImageDelete "A" false false;
             CallImageDelete "A" false false; CallImageDelete "A" false false],
          layerCacheBA)
  ∧ ArchiveLRU.PutImage (4 + n) (storeAB (Some conflictMsg) []) archiveCacheA (Some imgB) =
    Done (storeAB (Some conflictMsg)
            [CallGetReadOnlyLayer "sha256:b" "linux";
             CallReleaseReadOnlyLayer (Some "sha256:b"%string) "linux";
             CallGetReadOnlyLayer "sha256:b" "linux";
             CallImageDelete "A" false false; CallImageDelete "A" false false;
             CallImageDelete "A" false false; CallImageDelete "A" false false],
          archiveCacheBA)
  ∧ values (evictList layerCacheBA) = [Some recordB; Some recordA]
  ∧ values (evictList archiveCacheBA) =
      [Some (mkArchiveLayer recordB 0); Some (mkArchiveLayer recordA 0)].
Proof.
  repeat split; reflexivity.
Qed.

Lemma layerCacheBA_turn_busy (fuel : nat) (tr : list Call) (cb : gmap string nat) :
  LayerLRU.evictTurn fuel "B" (storeBusy tr, layerCacheBA, cb) = OutOfFuel.
Proof.
  eapply layerLRU_evictTurn_release_spins; reflexivity.
Qed.

(** C3, at a failing input: capacity 100, the layer of [A] (60 bytes)
    resident, [B] (60 bytes) being put, and [ReleaseReadOnlyLayer] failing
    with "device or resource busy".  layer-LRU's [PutImage] returns for no
    number of iterations: the release loop tests the same error for ever.
    archive-LRU gives up the pass at once, as it stands.  When the release
    fails with "layer not retained", layer-LRU takes a new handle and does
    not call [ReleaseReadOnlyLayer] again: the layer of [A] is moved to the
    front as if it were in use, and the level stays at 120. *)
Theorem layer_evict_release_error_never_returns :
  (∀ fuel : nat, LayerLRU.PutImage fuel (storeBusy []) layerCacheA (Some imgB) = OutOfFuel)
  ∧ (∀ n : nat,
       ArchiveLRU.PutImage (1 + n) (storeBusy []) archiveCacheA (Some imgB) =
         Done (storeBusy
                 [CallGetReadOnlyLayer "sha256:b" "linux";
                  CallReleaseReadOnlyLayer (Some "sha256:b"%string) "linux";
                  CallGetReadOnlyLayer "sha256:b" "linux";
                  CallImageDelete "A" false false;
                  CallReleaseReadOnlyLayer (Some "sha256:a"%string) "linux"],
               archiveCacheBA))
  ∧ (∀ n : nat, ∃ w' : Script,
       LayerLRU.PutImage (5 + n) storeNotRetained layerCacheA (Some imgB) =
         Done (w', layerCacheAB)
       ∧ trace w' =
           [CallGetReadOnlyLayer "sha256:b" "linux";
            CallReleaseReadOnlyLayer (Some "sha256:b"%string) "linux";
            CallGetReadOnlyLayer "sha256:b" "linux";
            CallImageDelete "A" false false;
            CallReleaseReadOnlyLayer (Some "sha256:a"%string) "linux";
            CallGetReadOnlyLayer "sha256:a" "linux"]
       ∧ values (evictList layerCacheAB) = [Some recordA; Some recordB]
       ∧ level (base layerCacheAB) = 120).
Proof.
  split; [|split].
  - intros fuel.
    assert (LayerLRU.evictLoop fuel "B"
              (storeBusy [CallGetReadOnlyLayer "sha256:b" "linux";
                          CallReleaseReadOnlyLayer (Some "sha256:b"%string) "linux";
                          CallGetReadOnlyLayer "sha256:b" "linux"],
               layerCacheBA, ∅) = OutOfFuel) as Hloop.
    { destruct fuel as [|fuel]; [reflexivity|].
      rewrite layerLRU_evictLoop_over by (simpl; lia).
      rewrite layerCacheBA_turn_busy. reflexivity. }
    change (LayerLRU.PutImage fuel (storeBusy []) layerCacheA (Some imgB))
      with (match LayerLRU.evictLoop fuel "B"
                    (storeBusy [CallGetReadOnlyLayer "sha256:b" "linux";
                                CallReleaseReadOnlyLayer (Some "sha256:b"%string) "linux";
                                CallGetReadOnlyLayer "sha256:b" "linux"],
                     layerCacheBA, ∅) with
            | Done (w, c) => Done (w, c)
            | Panic => Panic
            | OutOfFuel => OutOfFuel
            end).
    rewrite Hloop. reflexivity.
  - intros n. reflexivity.
  - intros n. eexists. split; [reflexivity|]. repeat split; reflexivity.
Qed.

(** ** The factories *)

Section FactoryFacts.
Variable RAMInBytes : string → Z + string.



(** C4, as the code has it: when the capacity string does not parse,
    [NewImageCache] returns the parse error and no cache; the fallback to
    the default capacity is what the legacy [newCacheDriver] computes. *)
Theorem NewImageCache_capacity_unparsed (cfg : Factory.Config) (err : string) :
  RAMInBytes (Factory.CacheCapacity cfg) = inr err →
  Factory.NewImageCache RAMInBytes cfg = inr err
  ∧ Legacy.driverCapacity RAMInBytes (Factory.CacheCapacity cfg) =
      match RAMInBytes "1GB" with
      | inl cap => cap
      | inr _ => 0
      end.
Proof.
  intros Herr. unfold Factory.NewImageCache, Legacy.driverCapacity.
  rewrite Herr. split; reflexivity.
Qed.

End FactoryFacts.

Lemma NewImageCache_capacity_unparsed_witness :
  wholeRAMInBytes "lots" = inr "invalid size: lots"%string
  ∧ Factory.NewImageCache wholeRAMInBytes (Factory.mkConfig "layer-lru" "lots" false) =
      inr "invalid size: lots"%string
  ∧ Legacy.driverCapacity wholeRAMInBytes "lots" = 1073741824.
Proof.
  split; [reflexivity|].
  exact (NewImageCache_capacity_unparsed wholeRAMInBytes
           (Factory.mkConfig "layer-lru" "lots" false) "invalid size: lots" eq_refl).
Defined.

(** C4 fails on [NewImageCache]: an unparsable capacity yields an error and
    no cache, not a cache of the default capacity. *)
Lemma NewImageCache_no_default_capacity :
  wholeRAMInBytes "lots" = inr "invalid size: lots"%string
  ∧ Factory.NewImageCache wholeRAMInBytes (Factory.mkConfig "layer-lru" "lots" false) =
      inr "invalid size: lots"%string
  ∧ ¬ ∃ c : Factory.ImageCache,
        Factory.NewImageCache wholeRAMInBytes (Factory.mkConfig "layer-lru" "lots" false) =
          inl c.
Proof.
  split; [reflexivity|]. split; [reflexivity|]. intros [c Hc]. discriminate Hc.
Qed.



(** ** Archives *)

Section ArchiveFacts.
Context {W : Type} `{ImageService W}.

(** C6, as the code has it: when the companion archive is larger than the
    layer, [putLayer] asks the file system to remove it and stores the size
    the file had as the record's compact size. *)
Theorem archive_putLayer_oversized (w w1 : W) (c : layerLRUCache archiveLayer)
    (chainID : string) (img : Image) (l : Layer) (size archiveSize : Z) :
  (∀ e, layers c !! chainID = Some e → is_Some (Value (evictList c) e)) →
  GetReadOnlyLayer w chainID (OperatingSystem img) = (w1, inl l) →
  DiffSize l = inl size →
  Stat w1 (createLayerArchivePath w1 (DiffID l)) = StatFile archiveSize →
  size < archiveSize →
  ∃ (c' : layerLRUCache archiveLayer) (e : Element),
    ArchiveLRU.putLayerBody w c chainID img =
      Done (fst (RemoveAll w1 (createLayerArchivePath w1 (DiffID l))), c')
    ∧ layers c' !! chainID = Some e
    ∧ head (order (evictList c')) = Some e
    ∧ Value (evictList c') e =
        Some (mkArchiveLayer
                (mkCacheLayer (Some l) size [ImageID img] (OperatingSystem img))
                archiveSize).
Proof.
  intros Hwf Hget Hsize Hstat Hlt. unfold ArchiveLRU.putLayerBody.
  assert (∃ c1 : layerLRUCache archiveLayer,
            match layers c !! chainID with
            | None => Some c
            | Some e =>
                match Value (evictList c) e with
                | None => None
                | Some oldLayer =>
                    Some (mkLayerCache
                            (subLevel (base c) (cl_size (al_cacheLayer oldLayer)))
                            (images c) (layers c) (Remove (evictList c) e))
                end
            end = Some c1) as [c1 ->].
  { destruct (layers c !! chainID) as [e|] eqn:He; [|eauto].
    destruct (Hwf e eq_refl) as [v ->]. eauto. }
  rewrite Hget, Hsize. unfold getLayerArchiveInfo. rewrite Hstat. simpl.
  apply Z.ltb_lt in Hlt. rewrite Hlt.
  unfold deleteArchive.
  destruct (RemoveAll w1 (createLayerArchivePath w1 (DiffID l))) as [w2 r] eqn:Hrm.
  eexists _, _. split.
  { destruct r; reflexivity. }
  simpl. split; [apply lookup_insert_eq|]. split; [reflexivity|].
  unfold Value. simpl. apply lookup_insert_eq.
Qed.
End ArchiveFacts.

Lemma archive_putLayer_oversized_witness :
  ∃ (c' : layerLRUCache archiveLayer) (e : Element),
    ArchiveLRU.putLayerBody (storeArchived []) (ArchiveLRU.newArchiveLRUCache 1000)
                            "sha256:a" imgA =
      Done (fst (RemoveAll (storeArchived [CallGetReadOnlyLayer "sha256:a" "linux"])
                           "/tmp/a"), c')
    ∧ layers c' !! "sha256:a"%string = Some e
    ∧ head (order (evictList c')) = Some e
    ∧ Value (evictList c') e = Some (mkArchiveLayer recordA 200).
Proof.
  exact (archive_putLayer_oversized (storeArchived [])
           (storeArchived [CallGetReadOnlyLayer "sha256:a" "linux"])
           (ArchiveLRU.newArchiveLRUCache 1000) "sha256:a" imgA layerA 60 200
           ltac:(intros e He; discriminate He) eq_refl eq_refl eq_refl eq_refl).
Defined.

(** C6 fails on the compact size: after [PutImage(A)] the archive of 200
    bytes is gone from the file system, and the record of the layer (60
    bytes) has compact size 200, not 0. *)
Lemma archive_compact_size_not_reset :
  ∃ (w' : Script) (c' : layerLRUCache archiveLayer),
    ArchiveLRU.PutImage 0 (storeArchived []) (ArchiveLRU.newArchiveLRUCache 1000)
                        (Some imgA) = Done (w', c')
    ∧ files w' = []
    ∧ values (evictList c') = [Some (mkArchiveLayer recordA 200)]
    ∧ compactSize (mkArchiveLayer recordA 200) ≠ 0.
Proof.
  eexists _, _. split; [reflexivity|]. split; [reflexivity|]. split; [reflexivity|].
  simpl. lia.
Qed.

(** ** Index and list *)

(** C7, at a failing input: the layer of [A] is resident and [A] is put
    again; the layer store answers the size check and then fails
    [GetReadOnlyLayer] in [putLayer].  [putLayer] has already taken the old
    element out of the list and returns without touching the map: the key
    of the layer stays mapped to an element that is in no list.  Both
    engines behave so. *)
Theorem putLayer_error_leaves_stale_key :
  (∃ (w' : Script) (c' : layerLRUCache cacheLayer),
     LayerLRU.PutImage 0 storeFlaky layerCacheA (Some imgA) = Done (w', c')
     ∧ layers c' !! "sha256:a"%string = Some 0%nat
     ∧ order (evictList c') = []
     ∧ ¬ indexConsistent c')
  ∧ (∃ (w' : Script) (c' : layerLRUCache archiveLayer),
       ArchiveLRU.PutImage 0 storeFlaky archiveCacheA (Some imgA) = Done (w', c')
       ∧ layers c' !! "sha256:a"%string = Some 0%nat
       ∧ order (evictList c') = []
       ∧ ¬ indexConsistent c')
  ∧ indexConsistent layerCacheA
  ∧ indexConsistent archiveCacheA.
Proof.
  split; [|split; [|split]].
  - eexists _, _. split; [reflexivity|]. split; [reflexivity|]. split; [reflexivity|].
    intros [Hmapped _]. specialize (Hmapped "sha256:a"%string 0%nat eq_refl).
    simpl in Hmapped. inversion Hmapped.
  - eexists _, _. split; [reflexivity|]. split; [reflexivity|]. split; [reflexivity|].
    intros [Hmapped _]. specialize (Hmapped "sha256:a"%string 0%nat eq_refl).
    simpl in Hmapped. inversion Hmapped.
  - split.
    + intros k e Hk. simpl in Hk. apply lookup_singleton_Some in Hk as [_ <-].
      simpl. apply list_elem_of_here.
    + intros e He. simpl in He. apply list_elem_of_singleton in He as ->.
      exists "sha256:a"%string. split; [reflexivity|].
      intros k' Hk'. simpl in Hk'. apply lookup_singleton_Some in Hk' as [<- _]. reflexivity.
  - split.
    + intros k e Hk. simpl in Hk. apply lookup_singleton_Some in Hk as [_ <-].
      simpl. apply list_elem_of_here.
    + intros e He. simpl in He. apply list_elem_of_singleton in He as ->.
      exists "sha256:a"%string. split; [reflexivity|].
      intros k' Hk'. simpl in Hk'. apply lookup_singleton_Some in Hk' as [<- _]. reflexivity.
Qed.

(** ** Removal *)

Section RemoveFacts.
Context {W : Type} `{ImageService W}.










End RemoveFacts.





(** ** Updates *)

Section UpdateFacts.
Context {W : Type} `{ImageService W}.



End UpdateFacts.

Section UpdateTimes.
Context {W : Type} `{ImageService W}.








End UpdateTimes.





(** ** Putting an image again *)

Lemma unlink_absent (e : Element) (es : list Element) : e ∉ es → unlink e es = es.
Proof.
  induction es as [|x es IH]; intros Hnot; [reflexivity|].
  apply not_elem_of_cons in Hnot as [Hne Hnot]. unfold unlink in *.
  rewrite filter_cons_True by congruence. rewrite IH by exact Hnot. reflexivity.
Qed.

Lemma unlink_gone (e : Element) (es : list Element) : e ∉ unlink e es.
Proof.
  unfold unlink. intros Hin. apply list_elem_of_filter in Hin as [Hne _]. congruence.
Qed.

Lemma unlink_keeps_out (e x : Element) (es : list Element) : e ∉ es → e ∉ unlink x es.
Proof.
  unfold unlink. intros Hnot Hin. apply list_elem_of_filter in Hin as [_ Hin]. exact (Hnot Hin).
Qed.

Lemma frontOrOut_unlink (e x : Element) (es : list Element) :
  frontOrOut e es → frontOrOut e (unlink x es).
Proof.
  intros [(t & -> & Ht)|Hout]; [|right; apply unlink_keeps_out, Hout].
  destruct (decide (x = e)) as [->|Hne].
  - right. apply unlink_gone.
  - left. exists (unlink x t). split; [|apply unlink_keeps_out, Ht].
    unfold unlink. apply filter_cons_True. congruence.
Qed.

Lemma MoveToFront_frontOrOut {V : Type} (l : List V) (e : Element) :
  frontOrOut e (order l) → MoveToFront l e = l.
Proof.
  unfold MoveToFront, linked. intros [(t & Ho & Ht)|Hout].
  - rewrite bool_decide_eq_true_2 by (rewrite Ho; apply list_elem_of_here).
    destruct l as [o cs f]. simpl in *. subst o. f_equal.
    unfold unlink. rewrite filter_cons_False by (intros Hne; apply Hne; reflexivity).
    f_equal. apply unlink_absent, Ht.
  - rewrite bool_decide_eq_false_2 by exact Hout. reflexivity.
Qed.

Lemma MoveToFront_puts_front {V : Type} (l : List V) (e : Element) :
  frontOrOut e (order (MoveToFront l e)).
Proof.
  unfold MoveToFront, linked. case_bool_decide as Hin; simpl.
  - left. eexists. split; [reflexivity|apply unlink_gone].
  - right. exact Hin.
Qed.

Section PutAgainImage.
Context {W : Type} `{ImageService W}.

Lemma imageLRU_evictTurn_pinned (k : string) (e0 : Element) (w w' : W)
    (c c' : ImageLRU.imageLRUCache) :
  (ImageLRU.evictTurn w c = Continue (w', c') ∨ ImageLRU.evictTurn w c = Return (w', c')) →
  pinned k e0 c → pinned k e0 c'.
Proof.
  unfold ImageLRU.evictTurn. intros Hturn Hpin.
  destruct (Back (ImageLRU.evictList c)) as [e|]; [|destruct Hturn; discriminate].
  destruct (Value (ImageLRU.evictList c) e) as [img|]; [|destruct Hturn; discriminate].
  destruct (getImageSize w img) as [w1 [size|err]].
  - destruct (ImageDelete w1 (ImageID img) true false) as [w2 [msg|]].
    + destruct (mentions msg "conflict"); [destruct Hturn as [Ht|Ht]; congruence|].
      destruct (mentions msg "no such image"); destruct Hturn as [Ht|Ht]; congruence.
    + destruct Hturn as [Ht|Ht]; [|discriminate]. injection Ht as <- <-.
      destruct Hpin as [Hkey Hfront]. split; simpl.
      * intros e' He'. apply lookup_delete_Some in He' as [_ He']. exact (Hkey e' He').
      * apply frontOrOut_unlink, Hfront.
  - destruct Hturn as [Ht|Ht]; congruence.
Qed.

Lemma imageLRU_evictLoop_pinned (k : string) (e0 : Element) (fuel : nat) :
  ∀ (w w' : W) (c c' : ImageLRU.imageLRUCache),
    ImageLRU.evictLoop fuel w c = Done (w', c') → pinned k e0 c → pinned k e0 c'.
Proof.
  induction fuel as [|fuel IH]; intros w w' c c' Hloop Hpin; simpl in Hloop.
  - destruct (capacity (ImageLRU.base c) <? level (ImageLRU.base c)); [discriminate|].
    congruence.
  - destruct (capacity (ImageLRU.base c) <? level (ImageLRU.base c)); [|congruence].
    destruct (ImageLRU.evictTurn w c) as [[w1 c1]|[w1 c1]|] eqn:Hturn; [| |discriminate].
    + eapply IH; [exact Hloop|].
      eapply imageLRU_evictTurn_pinned; [left; exact Hturn|exact Hpin].
    + injection Hloop as <- <-.
      eapply imageLRU_evictTurn_pinned; [right; exact Hturn|exact Hpin].
Qed.

(** After a [PutImage] that passed the size check, the image is at the
    front of the list if it is resident at all. *)
Lemma imageLRU_PutImage_pinned (fuel : nat) (w w' : W) (c c' : ImageLRU.imageLRUCache)
    (img : Image) :
  (∀ e, e ∈ order (ImageLRU.evictList c) → (e < fresh (ImageLRU.evictList c))%nat) →
  (checkImageSize (ImageLRU.base c) w img).2 = None →
  ImageLRU.PutImage fuel w c (Some img) = Done (w', c') →
  ∀ e, ImageLRU.images c' !! ID img = Some e →
       frontOrOut e (order (ImageLRU.evictList c')).
Proof.
  intros Hfresh Hcheck Hput e He. unfold ImageLRU.PutImage in Hput.
  destruct (checkImageSize (ImageLRU.base c) w img) as [w1 err]. simpl in Hcheck. subst err.
  destruct (ImageLRU.images c !! ID img) as [e1|] eqn:He1.
  - injection Hput as <- <-. simpl in *. assert (e = e1) as -> by congruence.
    apply MoveToFront_puts_front.
  - destruct (getImageSize w1 img) as [w2 [size|err]].
    + simpl in Hput. unfold ImageLRU.evict in Hput.
      set (e0 := fresh (ImageLRU.evictList c)) in *.
      match type of Hput with context [ImageLRU.evictLoop fuel w2 ?x] => set (c1 := x) in * end.
      assert (pinned (ID img) e0 c1) as Hpin.
      { split; simpl.
        - intros e' He'. rewrite lookup_insert_eq in He'. congruence.
        - left. eexists. split; [reflexivity|].
          intros Hin. apply Hfresh in Hin. unfold e0 in Hin. lia. }
      case_bool_decide as Hlen.
      * injection Hput as <- <-. destruct Hpin as [Hkey Hfront].
        rewrite (Hkey e He). exact Hfront.
      * destruct (imageLRU_evictLoop_pinned _ _ _ _ _ _ _ Hput Hpin) as [Hkey Hfront].
        rewrite (Hkey e He). exact Hfront.
    + injection Hput as <- <-. congruence.
Qed.

(** A [PutImage] of an image that is resident at the front changes nothing
    in the cache. *)
Lemma imageLRU_PutImage_resident (fuel : nat) (w : W) (c : ImageLRU.imageLRUCache)
    (img : Image) (e : Element) :
  ImageLRU.images c !! ID img = Some e →
  frontOrOut e (order (ImageLRU.evictList c)) →
  ∃ w', ImageLRU.PutImage fuel w c (Some img) = Done (w', c).
Proof.
  intros He Hfront. unfold ImageLRU.PutImage.
  destruct (checkImageSize (ImageLRU.base c) w img) as [w1 [err|]]; [eauto|].
  rewrite He, MoveToFront_frontOrOut by exact Hfront. destruct c. eauto.
Qed.

Lemma naive_PutImage_resident (w : W) (c : Naive.naiveCache) (img : Image) :
  is_Some (Naive.images c !! ImageID img) →
  (Naive.PutImage w c (Some img)).2 = c.
Proof.
  intros [size Hres]. unfold Naive.PutImage.
  destruct (checkImageSize (Naive.base c) w img) as [w1 [err|]]; [reflexivity|].
  rewrite Hres. reflexivity.
Qed.
End PutAgainImage.

Lemma wrap64_int64 (z : Z) : int64 z → wrap64 z = z.
Proof.
  unfold int64, wrap64. intros Hz. rewrite Z.mod_small by lia. lia.
Qed.

Lemma add64_sub64 (a b : Z) : int64 a → add64 (sub64 a b) b = a.
Proof.
  intros Ha. unfold add64, sub64, wrap64.
  replace ((a - b + 2 ^ 63) mod 2 ^ 64 - 2 ^ 63 + b + 2 ^ 63)
    with ((a - b + 2 ^ 63) mod 2 ^ 64 + b) by lia.
  rewrite Zplus_mod_idemp_l.
  replace (a - b + 2 ^ 63 + b) with (a + 2 ^ 63) by lia.
  apply wrap64_int64, Ha.
Qed.

Lemma sameRecords_refl {V : Type} (rec : V → cacheLayer) (c : layerLRUCache V) :
  sameRecords rec c c.
Proof. repeat split; auto. Qed.

Lemma sameRecords_trans {V : Type} (rec : V → cacheLayer) (c1 c2 c3 : layerLRUCache V) :
  sameRecords rec c1 c2 → sameRecords rec c2 c3 → sameRecords rec c1 c3.
Proof.
  intros (Hb & Hi & Hk & Hr) (Hb' & Hi' & Hk' & Hr').
  split; [congruence|]. split; [congruence|]. split.
  - intros k. rewrite Hk'. apply Hk.
  - intros k. rewrite Hr'. apply Hr.
Qed.

Section PutAgainLayer.
Context {W : Type} `{ImageService W}.

Lemma settled_sameRecords {V : Type} (rec : V → cacheLayer) (lyr : string → Layer)
    (img : Image) (c c' : layerLRUCache V) :
  settled rec lyr img c → sameRecords rec c c' →
  (∀ k e, layers c' !! k = Some e → (e < fresh (evictList c'))%nat) →
  settled rec lyr img c'.
Proof.
  intros (Himg & Hle & Hint & _ & Hres) (Hb & Hi & Hk & Hr) Hfresh.
  split; [rewrite Hi; exact Himg|]. split; [rewrite Hb; exact Hle|].
  split; [rewrite Hb; exact Hint|]. split; [exact Hfresh|].
  intros k Hin. destruct (Hres k Hin) as (e & size & v & He & Hsize & Hv & Hrec).
  specialize (Hr k). unfold recordOf in Hr. rewrite He in Hr. simpl in Hr.
  rewrite Hv in Hr. simpl in Hr.
  destruct (layers c' !! k) as [e'|]; [|discriminate]. simpl in Hr.
  destruct (Value (evictList c') e') as [v'|] eqn:Hv'; [|discriminate].
  simpl in Hr. injection Hr as Hr.
  exists e', size, v'. repeat split; try assumption. congruence.
Qed.

(** The layer cache after [putLayer] has replaced the element of [k] by a
    new one that holds [v']. *)
Lemma replaced_sameRecords {V : Type} (rec : V → cacheLayer) (c : layerLRUCache V)
    (k : string) (e : Element) (v v' : V) (b : cacheBase) :
  b = base c →
  layers c !! k = Some e → Value (evictList c) e = Some v → rec v' = rec v →
  (∀ k' e', layers c !! k' = Some e' → (e' < fresh (evictList c))%nat) →
  let c' := mkLayerCache b (images c) (<[k := fresh (evictList c)]> (layers c))
                         (PushFront (Remove (evictList c) e) v').1 in
  sameRecords rec c c'
  ∧ ∀ k' e', layers c' !! k' = Some e' → (e' < fresh (evictList c'))%nat.
Proof.
  intros -> He Hv Hrec Hfresh c'. split; [split; [reflexivity|]; split; [reflexivity|]; split|].
  - intros k'. unfold c'. simpl. destruct (decide (k = k')) as [<-|Hne].
    + rewrite lookup_insert_eq, He. split; eauto.
    + rewrite lookup_insert_ne by exact Hne. reflexivity.
  - intros k'. unfold recordOf, c', Value. simpl. destruct (decide (k = k')) as [<-|Hne].
    + rewrite lookup_insert_eq, He. simpl. rewrite lookup_insert_eq.
      unfold Value in Hv. rewrite Hv. simpl. congruence.
    + rewrite lookup_insert_ne by exact Hne.
      destruct (layers c !! k') as [e'|] eqn:He'; [|reflexivity]. simpl.
      rewrite lookup_insert_ne; [reflexivity|]. apply Hfresh in He'. lia.
  - intros k' e'. unfold c'. simpl. destruct (decide (k = k')) as [<-|Hne].
    + rewrite lookup_insert_eq. intros [= <-]. lia.
    + rewrite lookup_insert_ne by exact Hne. intros He'. apply Hfresh in He'. lia.
Qed.

Lemma layerLRU_putLayer_settled (P : W → Prop) (lyr : string → Layer) (fuel : nat)
    (img : Image) (w : W) (c : layerLRUCache cacheLayer) (k : string) :
  P w → answersStable P lyr img → k ∈ chainIDsOf img →
  settled id lyr img c →
  ∃ w' c', LayerLRU.putLayer fuel w c k img = Done (w', c')
           ∧ P w' ∧ sameRecords id c c' ∧ settled id lyr img c'.
Proof.
  intros Hw Hstable Hk Hset.
  pose proof Hset as (Himg & Hle & Hint & Hfresh & Hres).
  destruct (Hres k Hk) as (e & size & v & He & Hsize & Hv & Hrec). simpl in Hrec.
  destruct (Hstable w Hw) as (Hget & HPget & _ & _).
  specialize (Hget k Hk). specialize (HPget k (OperatingSystem img)).
  unfold LayerLRU.putLayer, LayerLRU.putLayerBody. rewrite He, Hv.
  destruct (GetReadOnlyLayer w k (OperatingSystem img)) as [w1 r]. simpl in Hget, HPget.
  subst r. rewrite Hsize. cbn [PushFront].
  match goal with |- context [LayerLRU.evict fuel w1 ?x] => set (c' := x) end.
  destruct (replaced_sameRecords id c k e v
              (mkCacheLayer (Some (lyr k)) size [ImageID img] (OperatingSystem img))
              (base c) eq_refl He Hv (eq_sym Hrec) Hfresh) as [Hsame Hfresh'].
  assert (c' = mkLayerCache (base c) (images c) (<[k := fresh (evictList c)]> (layers c))
                (PushFront (Remove (evictList c) e)
                   (mkCacheLayer (Some (lyr k)) size [ImageID img] (OperatingSystem img))).1)
    as Hc'.
  { unfold c'. simpl. f_equal. rewrite Hrec. simpl. unfold addLevel, subLevel. simpl.
    rewrite add64_sub64 by exact Hint. destruct (base c); reflexivity. }
  rewrite <- Hc' in Hsame, Hfresh'.
  assert (settled id lyr img c') as Hset' by (eapply settled_sameRecords; eassumption).
  rewrite layerLRU_evict_within by (destruct Hset' as (_ & Hle' & _); exact Hle').
  exists w1, c'. split; [reflexivity|]. split; [exact HPget|].
  split; [exact Hsame|exact Hset'].
Qed.

Lemma layerLRU_putLayers_settled (P : W → Prop) (lyr : string → Layer) (fuel : nat)
    (img : Image) (ks : list string) :
  ∀ (w : W) (c : layerLRUCache cacheLayer),
    P w → answersStable P lyr img → (∀ k, k ∈ ks → k ∈ chainIDsOf img) →
    settled id lyr img c →
    ∃ w' c', LayerLRU.putLayers fuel w c ks img = Done (w', c')
             ∧ P w' ∧ sameRecords id c c' ∧ settled id lyr img c'.
Proof.
  induction ks as [|k rest IH]; intros w c Hw Hstable Hks Hset.
  - exists w, c. split; [reflexivity|]. split; [exact Hw|].
    split; [apply sameRecords_refl|exact Hset].
  - cbn [LayerLRU.putLayers].
    destruct (layerLRU_putLayer_settled P lyr fuel img w c k Hw Hstable
                (Hks k (list_elem_of_here _ _)) Hset) as (w1 & c1 & -> & Hw1 & Hsame & Hset1).
    destruct (IH w1 c1 Hw1 Hstable
                (λ k' Hin, Hks k' (proj2 (elem_of_cons _ _ _) (or_intror Hin))) Hset1)
      as (w2 & c2 & -> & Hw2 & Hsame2 & Hset2).
    exists w2, c2. split; [reflexivity|]. split; [exact Hw2|].
    split; [eapply sameRecords_trans; eassumption|exact Hset2].
Qed.

Lemma checkImageSize_stable (P : W → Prop) (lyr : string → Layer) (img : Image)
    (b : cacheBase) (w : W) :
  P w → answersStable P lyr img → P (checkImageSize b w img).1.
Proof.
  intros Hw Hstable. unfold checkImageSize, getImageSize.
  destruct (Hstable w Hw) as (_ & HPget & _ & _).
  specialize (HPget (RootFSChainID img) (OperatingSystem img)).
  destruct (GetReadOnlyLayer w (RootFSChainID img) (OperatingSystem img)) as [w1 r].
  simpl in HPget. destruct (Hstable w1 HPget) as (_ & _ & HPrel & _).
  destruct r as [l|err]; simpl.
  - specialize (HPrel (Some l) (OperatingSystem img)).
    destruct (Size l) as [size|err]; [destruct (capacity b <? size)|]; exact HPrel.
  - exact (HPrel None (OperatingSystem img)).
Qed.

Lemma layerLRU_PutImage_settled (P : W → Prop) (lyr : string → Layer) (fuel : nat)
    (img : Image) (w : W) (c : layerLRUCache cacheLayer) :
  P w → answersStable P lyr img → settled id lyr img c →
  ∃ w' c', LayerLRU.PutImage fuel w c (Some img) = Done (w', c')
           ∧ sameRecords id c c'.
Proof.
  intros Hw Hstable Hset. unfold LayerLRU.PutImage.
  pose proof (checkImageSize_stable P lyr img (base c) w Hw Hstable) as Hw1.
  destruct (checkImageSize (base c) w img) as [w1 [err|]]; simpl in Hw1.
  - exists w1, c. split; [reflexivity|apply sameRecords_refl].
  - destruct Hset as (Himg & Hrest). rewrite (insert_id _ _ _ Himg).
    replace (mkLayerCache (base c) (images c) (layers c) (evictList c)) with c
      by (destruct c; reflexivity).
    destruct (layerLRU_putLayers_settled P lyr fuel img (chainIDsOf img) w1 c Hw1 Hstable
                (λ k Hk, Hk) (conj Himg Hrest)) as (w2 & c2 & Hput & _ & Hsame & _).
    exists w2, c2. split; assumption.
Qed.
End PutAgainLayer.

Section PutAgainArchive.
Context {W : Type} `{ImageService W}.

Lemma deleteArchive_world (w : W) (diffID : string) :
  (deleteArchive w diffID).1 = (RemoveAll w (createLayerArchivePath w diffID)).1.
Proof.
  unfold deleteArchive.
  destruct (RemoveAll w (createLayerArchivePath w diffID)) as [w1 []]; reflexivity.
Qed.

Lemma archiveLRU_putLayer_settled (P : W → Prop) (lyr : string → Layer) (fuel : nat)
    (img : Image) (w : W) (c : layerLRUCache archiveLayer) (k : string) :
  P w → answersStable P lyr img → k ∈ chainIDsOf img →
  settled al_cacheLayer lyr img c →
  ∃ w' c', ArchiveLRU.putLayer fuel w c k img = Done (w', c')
           ∧ P w' ∧ sameRecords al_cacheLayer c c' ∧ settled al_cacheLayer lyr img c'.
Proof.
  intros Hw Hstable Hk Hset.
  pose proof Hset as (Himg & Hle & Hint & Hfresh & Hres).
  destruct (Hres k Hk) as (e & size & v & He & Hsize & Hv & Hrec).
  destruct (Hstable w Hw) as (Hget & HPget & _ & _).
  specialize (Hget k Hk). specialize (HPget k (OperatingSystem img)).
  unfold ArchiveLRU.putLayer, ArchiveLRU.putLayerBody. rewrite He, Hv.
  destruct (GetReadOnlyLayer w k (OperatingSystem img)) as [w1 r]. simpl in Hget, HPget.
  subst r. rewrite Hsize. cbn [PushFront].
  set (compact := match (getLayerArchiveInfo w1 (DiffID (lyr k))).1 with
                  | Some archiveSize => archiveSize
                  | None => 0
                  end).
  set (cl := mkCacheLayer (Some (lyr k)) size [ImageID img] (OperatingSystem img)).
  match goal with |- context [ArchiveLRU.evict fuel ?x ?y] => set (w2 := x); set (c' := y) end.
  assert (P w2) as Hw2.
  { unfold w2. destruct (cl_size cl <? compact); [|exact HPget].
    rewrite deleteArchive_world. destruct (Hstable w1 HPget) as (_ & _ & _ & HPrm).
    apply HPrm. }
  destruct (replaced_sameRecords al_cacheLayer c k e v (mkArchiveLayer cl compact)
              (base c) eq_refl He Hv (eq_sym Hrec) Hfresh) as [Hsame Hfresh'].
  assert (c' = mkLayerCache (base c) (images c) (<[k := fresh (evictList c)]> (layers c))
                (PushFront (Remove (evictList c) e) (mkArchiveLayer cl compact)).1)
    as Hc'.
  { unfold c'. simpl. f_equal. rewrite Hrec. simpl. unfold addLevel, subLevel. simpl.
    rewrite add64_sub64 by exact Hint. destruct (base c); reflexivity. }
  rewrite <- Hc' in Hsame, Hfresh'.
  assert (settled al_cacheLayer lyr img c') as Hset'
    by (eapply settled_sameRecords; eassumption).
  rewrite archiveLRU_evict_within by (destruct Hset' as (_ & Hle' & _); exact Hle').
  exists w2, c'. split; [reflexivity|]. split; [exact Hw2|].
  split; [exact Hsame|exact Hset'].
Qed.

Lemma archiveLRU_putLayers_settled (P : W → Prop) (lyr : string → Layer) (fuel : nat)
    (img : Image) (ks : list string) :
  ∀ (w : W) (c : layerLRUCache archiveLayer),
    P w → answersStable P lyr img → (∀ k, k ∈ ks → k ∈ chainIDsOf img) →
    settled al_cacheLayer lyr img c →
    ∃ w' c', ArchiveLRU.putLayers fuel w c ks img = Done (w', c')
             ∧ P w' ∧ sameRecords al_cacheLayer c c' ∧ settled al_cacheLayer lyr img c'.
Proof.
  induction ks as [|k rest IH]; intros w c Hw Hstable Hks Hset.
  - exists w, c. split; [reflexivity|]. split; [exact Hw|].
    split; [apply sameRecords_refl|exact Hset].
  - cbn [ArchiveLRU.putLayers].
    destruct (archiveLRU_putLayer_settled P lyr fuel img w c k Hw Hstable
                (Hks k (list_elem_of_here _ _)) Hset) as (w1 & c1 & -> & Hw1 & Hsame & Hset1).
    destruct (IH w1 c1 Hw1 Hstable
                (λ k' Hin, Hks k' (proj2 (elem_of_cons _ _ _) (or_intror Hin))) Hset1)
      as (w2 & c2 & -> & Hw2 & Hsame2 & Hset2).
    exists w2, c2. split; [reflexivity|]. split; [exact Hw2|].
    split; [eapply sameRecords_trans; eassumption|exact Hset2].
Qed.

Lemma archiveLRU_PutImage_settled (P : W → Prop) (lyr : string → Layer) (fuel : nat)
    (img : Image) (w : W) (c : layerLRUCache archiveLayer) :
  P w → answersStable P lyr img → settled al_cacheLayer lyr img c →
  ∃ w' c', ArchiveLRU.PutImage fuel w c (Some img) = Done (w', c')
           ∧ sameRecords al_cacheLayer c c'.
Proof.
  intros Hw Hstable Hset. unfold ArchiveLRU.PutImage.
  pose proof (checkImageSize_stable P lyr img (base c) w Hw Hstable) as Hw1.
  destruct (checkImageSize (base c) w img) as [w1 [err|]]; simpl in Hw1.
  - exists w1, c. split; [reflexivity|apply sameRecords_refl].
  - destruct Hset as (Himg & Hrest). rewrite (insert_id _ _ _ Himg).
    replace (mkLayerCache (base c) (images c) (layers c) (evictList c)) with c
      by (destruct c; reflexivity).
    destruct (archiveLRU_putLayers_settled P lyr fuel img (chainIDsOf img) w1 c Hw1 Hstable
                (λ k Hk, Hk) (conj Himg Hrest)) as (w2 & c2 & Hput & _ & Hsame & _).
    exists w2, c2. split; assumption.
Qed.

(** C9, as the code has it.  For naive and image-LRU a [PutImage] of an
    image that the call before left resident changes nothing in the cache.
    For layer-LRU and archive-LRU the second call takes every layer record
    of the image out and builds it again at the front of the list: when the
    layer store answers as before and no eviction is pending, the level, the
    image table and the index keys are the same and every key resolves to
    the same record, up to the compact size, which archive-LRU reads from
    the file system again; the order of the list is not kept. *)
Theorem PutImage_again (P : W → Prop) (lyr : string → Layer) (fuel : nat) (img : Image)
    (w w0 w1 : W) (cn : Naive.naiveCache) (ci0 ci : ImageLRU.imageLRUCache)
    (cl : layerLRUCache cacheLayer) (ca : layerLRUCache archiveLayer) :
  is_Some (Naive.images cn !! ImageID img) →
  (∀ e, e ∈ order (ImageLRU.evictList ci0) → (e < fresh (ImageLRU.evictList ci0))%nat) →
  (checkImageSize (ImageLRU.base ci0) w0 img).2 = None →
  ImageLRU.PutImage fuel w0 ci0 (Some img) = Done (w1, ci) →
  is_Some (ImageLRU.images ci !! ID img) →
  P w → answersStable P lyr img →
  settled id lyr img cl → settled al_cacheLayer lyr img ca →
  (Naive.PutImage w cn (Some img)).2 = cn
  ∧ (∃ w', ImageLRU.PutImage fuel w ci (Some img) = Done (w', ci))
  ∧ (∃ w' c', LayerLRU.PutImage fuel w cl (Some img) = Done (w', c')
              ∧ base c' = base cl ∧ images c' = images cl
              ∧ (∀ k, is_Some (layers c' !! k) ↔ is_Some (layers cl !! k))
              ∧ ∀ k, recordOf c' k = recordOf cl k)
  ∧ (∃ w' c', ArchiveLRU.PutImage fuel w ca (Some img) = Done (w', c')
              ∧ base c' = base ca ∧ images c' = images ca
              ∧ (∀ k, is_Some (layers c' !! k) ↔ is_Some (layers ca !! k))
              ∧ ∀ k, al_cacheLayer <$> recordOf c' k = al_cacheLayer <$> recordOf ca k).
Proof.
  intros Hn Hfresh Hcheck Hput [e He] Hw Hstable Hsl Hsa.
  split; [apply naive_PutImage_resident, Hn|]. split; [|split].
  - apply (imageLRU_PutImage_resident fuel w ci img e He).
    exact (imageLRU_PutImage_pinned fuel w0 w1 ci0 ci img Hfresh Hcheck Hput e He).
  - destruct (layerLRU_PutImage_settled P lyr fuel img w cl Hw Hstable Hsl)
      as (w' & c' & Hp & Hb & Hi & Hk & Hr).
    exists w', c'. repeat split; try assumption; try apply Hk.
    intros k. specialize (Hr k). rewrite !option_fmap_id in Hr. exact Hr.
  - destruct (archiveLRU_PutImage_settled P lyr fuel img w ca Hw Hstable Hsa)
      as (w' & c' & Hp & Hb & Hi & Hk & Hr).
    exists w', c'. repeat split; try assumption; apply Hk.
Qed.
End PutAgainArchive.

Lemma tableAB_stable : answersStable tableAB (λ _, layerA) imgA.
Proof.
  intros w [Htable Hqueue]. split; [|split; [|split]].
  - intros k Hk. apply list_elem_of_singleton in Hk as ->.
    simpl. unfold scriptGetReadOnlyLayer. rewrite Hqueue, Htable. reflexivity.
  - intros k os. simpl. unfold scriptGetReadOnlyLayer. rewrite Hqueue. split; assumption.
  - intros l os. simpl. unfold scriptRelease.
    destruct (releaseQueue w); split; assumption.
  - intros path. split; assumption.
Defined.

Lemma layerCacheA_settled : settled id (λ _, layerA) imgA layerCacheA.
Proof.
  split; [reflexivity|]. split; [simpl; lia|]. split; [unfold int64; simpl; lia|]. split.
  - intros k e Hk. simpl in Hk. apply lookup_singleton_Some in Hk as [_ <-]. simpl. lia.
  - intros k Hk. apply list_elem_of_singleton in Hk as ->.
    exists 0%nat, 60, recordA. repeat split; reflexivity.
Defined.

Lemma archiveCacheA_settled : settled al_cacheLayer (λ _, layerA) imgA archiveCacheA.
Proof.
  split; [reflexivity|]. split; [simpl; lia|]. split; [unfold int64; simpl; lia|]. split.
  - intros k e Hk. simpl in Hk. apply lookup_singleton_Some in Hk as [_ <-]. simpl. lia.
  - intros k Hk. apply list_elem_of_singleton in Hk as ->.
    exists 0%nat, 60, (mkArchiveLayer recordA 0). repeat split; reflexivity.
Defined.

Lemma PutImage_again_witness :
  (Naive.PutImage (storeAB None []) naiveCacheA (Some imgA)).2 = naiveCacheA
  ∧ (∃ w', ImageLRU.PutImage 0 (storeAB None []) imageCacheA (Some imgA) =
             Done (w', imageCacheA))
  ∧ (∃ w' c', LayerLRU.PutImage 0 (storeAB None []) layerCacheA (Some imgA) = Done (w', c')
              ∧ base c' = base layerCacheA ∧ images c' = images layerCacheA
              ∧ (∀ k, is_Some (layers c' !! k) ↔ is_Some (layers layerCacheA !! k))
              ∧ ∀ k, recordOf c' k = recordOf layerCacheA k)
  ∧ (∃ w' c', ArchiveLRU.PutImage 0 (storeAB None []) archiveCacheA (Some imgA) =
                Done (w', c')
              ∧ base c' = base archiveCacheA ∧ images c' = images archiveCacheA
              ∧ (∀ k, is_Some (layers c' !! k) ↔ is_Some (layers archiveCacheA !! k))
              ∧ ∀ k, al_cacheLayer <$> recordOf c' k =
                       al_cacheLayer <$> recordOf archiveCacheA k).
Proof.
  exact (PutImage_again tableAB (λ _, layerA) 0 imgA
           (storeAB None []) (storeAB None [])
           (storeAB None [CallGetReadOnlyLayer "sha256:a" "linux";
                          CallReleaseReadOnlyLayer (Some "sha256:a"%string) "linux";
                          CallGetReadOnlyLayer "sha256:a" "linux";
                          CallReleaseReadOnlyLayer (Some "sha256:a"%string) "linux"])
           naiveCacheA (ImageLRU.newImageLRUCache 100) imageCacheA
           layerCacheA archiveCacheA
           (ex_intro _ 60 eq_refl)
           ltac:(intros e He; simpl in He; apply elem_of_nil in He; destruct He)
           eq_refl eq_refl
           (ex_intro _ 0%nat eq_refl)
           (conj eq_refl eq_refl) tableAB_stable
           layerCacheA_settled archiveCacheA_settled).
Defined.

(** C9 fails for the layer engines.  layer-LRU: [PutImage(A)] evicts the
    layer of [Y] after it has moved the layer of [X], still in use, to the
    front; the list is then [X; A], and a second [PutImage(A)] leaves it as
    [A; X].  archive-LRU: the first [PutImage(A)] records the compact size
    200 of the archive it deletes, the second finds no archive and records
    0. *)
Lemma PutImage_again_differs :
  (∃ (w1 w2 : Script) (c1 c2 : layerLRUCache cacheLayer),
     LayerLRU.PutImage 5 storeXYA layerCacheXY (Some imgA) = Done (w1, c1)
     ∧ LayerLRU.PutImage 5 w1 c1 (Some imgA) = Done (w2, c2)
     ∧ values (evictList c1) = [Some recordX; Some recordA]
     ∧ values (evictList c2) = [Some recordA; Some recordX]
     ∧ level (base c1) = 90 ∧ level (base c2) = 90)
  ∧ (∃ (w1 w2 : Script) (c1 c2 : layerLRUCache archiveLayer),
       ArchiveLRU.PutImage 0 (storeArchived []) (ArchiveLRU.newArchiveLRUCache 1000)
                           (Some imgA) = Done (w1, c1)
       ∧ ArchiveLRU.PutImage 0 w1 c1 (Some imgA) = Done (w2, c2)
       ∧ values (evictList c1) = [Some (mkArchiveLayer recordA 200)]
       ∧ values (evictList c2) = [Some (mkArchiveLayer recordA 0)])
  ∧ [Some recordX; Some recordA] ≠ [Some recordA; Some recordX]
  ∧ mkArchiveLayer recordA 200 ≠ mkArchiveLayer recordA 0.
Proof.
  split; [|split; [|split]].
  - eexists _, _, _, _.
    split; [vm_compute; reflexivity|]. split; [vm_compute; reflexivity|].
    repeat split; vm_compute; reflexivity.
  - eexists _, _, _, _.
    split; [vm_compute; reflexivity|]. split; [vm_compute; reflexivity|].
    repeat split; vm_compute; reflexivity.
  - discriminate.
  - discriminate.
Qed.

(** ** Index and list of image-LRU *)

Lemma imageWellFormed_consistent (c : ImageLRU.imageLRUCache) :
  imageWellFormed c → imageIndexConsistent c.
Proof.
  intros (_ & Hmap & Hlist). split.
  - intros k e Hk. apply (Hmap k e Hk).
  - intros e He. destruct (Hlist e He) as [k Hk]. exists k. split; [exact Hk|].
    intros k' Hk'.
    destruct (Hmap k e Hk) as (_ & img & Hv & <-).
    destruct (Hmap k' e Hk') as (_ & img' & Hv' & <-). congruence.
Qed.

Lemma elem_of_unlink (x e : Element) (es : list Element) :
  x ∈ unlink e es ↔ x ≠ e ∧ x ∈ es.
Proof. exact (list_elem_of_filter (λ y, y ≠ e) es x). Qed.

Lemma imageWellFormed_MoveToFront (c : ImageLRU.imageLRUCache) (e : Element) :
  imageWellFormed c →
  imageWellFormed
    (ImageLRU.mkCache (ImageLRU.base c) (ImageLRU.images c)
                      (MoveToFront (ImageLRU.evictList c) e)).
Proof.
  intros Hwf. unfold MoveToFront, linked. case_bool_decide as Hin; [|destruct c; exact Hwf].
  destruct Hwf as (Hfresh & Hmap & Hlist).
  assert (∀ x, x ∈ e :: unlink e (order (ImageLRU.evictList c))
               ↔ x ∈ order (ImageLRU.evictList c)) as Hsame.
  { intros x. rewrite elem_of_cons, elem_of_unlink.
    destruct (decide (x = e)) as [->|Hne]; tauto. }
  split; [|split]; simpl.
  - intros x Hx. apply Hfresh, Hsame, Hx.
  - intros k x Hk. destruct (Hmap k x Hk) as [Hx Himg]. split; [apply Hsame, Hx|exact Himg].
  - intros x Hx. apply Hlist, Hsame, Hx.
Qed.

(** Taking out an element together with the key of the image it holds. *)
Lemma imageWellFormed_Remove (c : ImageLRU.imageLRUCache) (e : Element) (img : Image)
    (b : cacheBase) :
  imageWellFormed c →
  e ∈ order (ImageLRU.evictList c) →
  Value (ImageLRU.evictList c) e = Some img →
  imageWellFormed
    (ImageLRU.mkCache b (delete (ID img) (ImageLRU.images c))
                      (Remove (ImageLRU.evictList c) e)).
Proof.
  intros (Hfresh & Hmap & Hlist) He Hv.
  assert (ImageLRU.images c !! ID img = Some e) as Hkey.
  { destruct (Hlist e He) as [k Hk]. destruct (Hmap k e Hk) as (_ & img' & Hv' & <-).
    congruence. }
  split; [|split]; simpl.
  - intros x Hx. apply elem_of_unlink in Hx as [_ Hx]. apply Hfresh, Hx.
  - intros k x Hk. apply lookup_delete_Some in Hk as [Hne Hk].
    destruct (Hmap k x Hk) as (Hx & img' & Hv' & Hid). split; [|eauto].
    apply elem_of_unlink. split; [|exact Hx]. intros ->. congruence.
  - intros x Hx. apply elem_of_unlink in Hx as [Hne Hx].
    destruct (Hlist x Hx) as [k Hk]. exists k. apply lookup_delete_Some.
    split; [|exact Hk]. intros <-. congruence.
Qed.

Lemma newImageLRUCache_wellFormed (cap : Z) :
  imageWellFormed (ImageLRU.newImageLRUCache cap).
Proof.
  split; [|split]; simpl.
  - intros e He. apply elem_of_nil in He. destruct He.
  - intros k e Hk. rewrite lookup_empty in Hk. discriminate.
  - intros e He. apply elem_of_nil in He. destruct He.
Qed.

Section ImageIndexFacts.
Context {W : Type} `{ImageService W}.

Lemma imageLRU_evictTurn_wellFormed (w w' : W) (c c' : ImageLRU.imageLRUCache) :
  (ImageLRU.evictTurn w c = Continue (w', c') ∨ ImageLRU.evictTurn w c = Return (w', c')) →
  imageWellFormed c → imageWellFormed c'.
Proof.
  unfold ImageLRU.evictTurn. intros Hturn Hwf.
  destruct (Back (ImageLRU.evictList c)) as [e|] eqn:Hback; [|destruct Hturn; discriminate].
  destruct (Value (ImageLRU.evictList c) e) as [img|] eqn:Hv; [|destruct Hturn; discriminate].
  destruct (getImageSize w img) as [w1 [size|err]].
  - destruct (ImageDelete w1 (ImageID img) true false) as [w2 [msg|]].
    + destruct (mentions msg "conflict"); [destruct Hturn as [Ht|Ht]; congruence|].
      destruct (mentions msg "no such image"); destruct Hturn as [Ht|Ht]; congruence.
    + destruct Hturn as [Ht|Ht]; [|discriminate]. injection Ht as <- <-.
      apply imageWellFormed_Remove; [exact Hwf| |exact Hv].
      apply last_Some_elem_of, Hback.
  - destruct Hturn as [Ht|Ht]; congruence.
Qed.

Lemma imageLRU_evictLoop_wellFormed (fuel : nat) :
  ∀ (w w' : W) (c c' : ImageLRU.imageLRUCache),
    ImageLRU.evictLoop fuel w c = Done (w', c') → imageWellFormed c → imageWellFormed c'.
Proof.
  induction fuel as [|fuel IH]; intros w w' c c' Hloop Hwf; simpl in Hloop.
  - destruct (capacity (ImageLRU.base c) <? level (ImageLRU.base c)); [discriminate|].
    congruence.
  - destruct (capacity (ImageLRU.base c) <? level (ImageLRU.base c)); [|congruence].
    destruct (ImageLRU.evictTurn w c) as [[w1 c1]|[w1 c1]|] eqn:Hturn; [| |discriminate].
    + eapply IH; [exact Hloop|].
      eapply imageLRU_evictTurn_wellFormed; [left; exact Hturn|exact Hwf].
    + injection Hloop as <- <-.
      eapply imageLRU_evictTurn_wellFormed; [right; exact Hturn|exact Hwf].
Qed.

(** X1: index and list of image-LRU.  Every operation that returns leaves
    the keys of the index and the elements of the list in one-to-one
    correspondence. *)
Lemma imageLRU_index_preserved (c : ImageLRU.imageLRUCache) :
  imageWellFormed c →
  imageIndexConsistent c
  ∧ (∀ fuel w img w' c',
       ImageLRU.PutImage fuel w c img = Done (w', c') →
       imageWellFormed c' ∧ imageIndexConsistent c')
  ∧ (∀ w refOrID,
       imageWellFormed (ImageLRU.UpdateImage w c refOrID).2
       ∧ imageIndexConsistent (ImageLRU.UpdateImage w c refOrID).2)
  ∧ (∀ w imgID w' c',
       ImageLRU.RemoveImage w c imgID = Done (w', c') →
       imageWellFormed c' ∧ imageIndexConsistent c').
Proof.
  intros Hwf. split; [apply imageWellFormed_consistent, Hwf|].
  assert (∀ c', imageWellFormed c' → imageWellFormed c' ∧ imageIndexConsistent c') as Hboth
    by (intros c' Hc'; split; [exact Hc'|apply imageWellFormed_consistent, Hc']).
  split; [|split].
  - intros fuel w img w' c' Hput. apply Hboth. unfold ImageLRU.PutImage in Hput.
    destruct img as [img|]; [|congruence].
    destruct (checkImageSize (ImageLRU.base c) w img) as [w1 [err|]]; [congruence|].
    destruct (ImageLRU.images c !! ID img) as [e|] eqn:He.
    { injection Hput as <- <-. apply imageWellFormed_MoveToFront, Hwf. }
    destruct (getImageSize w1 img) as [w2 [size|err]]; [|congruence].
    simpl in Hput. unfold ImageLRU.evict in Hput.
    match type of Hput with context [ImageLRU.evictLoop fuel w2 ?x] => set (c1 := x) in * end.
    assert (imageWellFormed c1) as Hwf1.
    { destruct Hwf as (Hfresh & Hmap & Hlist). split; [|split]; simpl.
      - intros x Hx. apply elem_of_cons in Hx as [->|Hx]; [lia|]. apply Hfresh in Hx. lia.
      - intros k x Hk. apply lookup_insert_Some in Hk as [[<- <-]|[Hne Hk]].
        + split; [apply list_elem_of_here|]. exists img. split; [|reflexivity].
          unfold Value. simpl. apply lookup_insert_eq.
        + destruct (Hmap k x Hk) as (Hx & img' & Hv' & Hid).
          split; [apply elem_of_cons; right; exact Hx|]. exists img'. split; [|exact Hid].
          unfold Value in *. simpl. rewrite lookup_insert_ne; [exact Hv'|].
          apply Hfresh in Hx. lia.
      - intros x Hx. apply elem_of_cons in Hx as [->|Hx].
        + exists (ID img). apply lookup_insert_eq.
        + destruct (Hlist x Hx) as [k Hk]. exists k.
          rewrite lookup_insert_ne; [exact Hk|]. intros <-. congruence. }
    case_bool_decide; [congruence|].
    eapply imageLRU_evictLoop_wellFormed; eassumption.
  - intros w refOrID. apply Hboth. unfold ImageLRU.UpdateImage.
    destruct (GetImage w refOrID) as [w1 [img|err]]; [|exact Hwf].
    destruct (ImageLRU.images c !! ID img) as [e|]; [|exact Hwf].
    apply imageWellFormed_MoveToFront, Hwf.
  - intros w imgID w' c' Hrm. apply Hboth. unfold ImageLRU.RemoveImage in Hrm.
    destruct (ImageLRU.images c !! imgID) as [e|] eqn:He; [|congruence].
    destruct (Value (ImageLRU.evictList c) e) as [img|] eqn:Hv; [|discriminate].
    destruct (getImageSize w img) as [w1 [size|err]]; [|congruence].
    injection Hrm as <- <-.
    pose proof Hwf as (Hfresh & Hmap & Hlist).
    destruct (Hmap imgID e He) as (Hin & img' & Hv' & Hid).
    assert (img' = img) as -> by congruence. rewrite <- Hid.
    apply imageWellFormed_Remove; [exact Hwf|exact Hin|exact Hv].
Qed.
End ImageIndexFacts.

Lemma imageLRU_index_preserved_witness :
  imageWellFormed (ImageLRU.newImageLRUCache 100)
  ∧ imageIndexConsistent (ImageLRU.newImageLRUCache 100).
Proof.
  split; [exact (newImageLRUCache_wellFormed 100)|].
  exact (proj1 (imageLRU_index_preserved (W := Script) (ImageLRU.newImageLRUCache 100)
                  (newImageLRUCache_wellFormed 100))).
Defined.

(** ** Chain IDs *)

Section ChainFacts.
Context {W : Type} `{ImageService W}.

Lemma chainLoop_chainsUp (todo : list string) :
  ∀ diffIDs chainIDs,
    chainLoop todo diffIDs chainIDs = rev (chainsUp todo diffIDs) ++ chainIDs.
Proof.
  induction todo as [|diffID todo IH]; intros diffIDs chainIDs; [reflexivity|].
  cbn [chainLoop chainsUp rev]. rewrite IH, <- app_assoc. reflexivity.
Qed.

Lemma chainsUp_length (todo : list string) :
  ∀ diffIDs, length (chainsUp todo diffIDs) = length todo.
Proof.
  induction todo as [|diffID todo IH]; intros diffIDs; [reflexivity|].
  cbn [chainsUp length]. rewrite IH. reflexivity.
Qed.

Lemma chainsUp_last (todo : list string) :
  ∀ diffIDs,
    last (chainsUp todo diffIDs) =
      match todo with
      | [] => None
      | _ :: _ => Some (CreateChainID (diffIDs ++ todo))
      end.
Proof.
  induction todo as [|diffID todo IH]; intros diffIDs; [reflexivity|].
  cbn [chainsUp]. destruct todo as [|diffID' todo].
  - reflexivity.
  - rewrite last_cons, IH, <- app_assoc. reflexivity.
Qed.

(** X2: [PutImage] and [UpdateImage] walk the chain IDs of an image in the
    reverse of the order in which [RemoveImage] walks them, one chain ID for
    every diff ID, and they start with the chain ID of the whole stack, the
    one the size check asks the layer store for. *)
Theorem chainIDsOf_top_down (img : Image) :
  chainIDsOf img = rev (chainsUp (DiffIDs img) [])
  ∧ length (chainIDsOf img) = length (DiffIDs img)
  ∧ head (chainIDsOf img) =
      match DiffIDs img with
      | [] => None
      | _ :: _ => Some (RootFSChainID img)
      end.
Proof.
  assert (chainIDsOf img = rev (chainsUp (DiffIDs img) [])) as Hrev.
  { unfold chainIDsOf. rewrite chainLoop_chainsUp. apply app_nil_r. }
  split; [exact Hrev|]. split.
  - rewrite Hrev, length_rev. apply chainsUp_length.
  - rewrite Hrev, rev_alt. change (rev_append ?l []) with (reverse l).
    rewrite head_reverse, chainsUp_last. reflexivity.
Qed.
End ChainFacts.

(** ** The size check *)

Section SizeCheckFacts.
Context {W : Type} `{ImageService W}.

Lemma checkImageSize_oversized (b : cacheBase) (w : W) (img : Image) (size : Z) :
  (getImageSize w img).2 = inl size → capacity b < size →
  ∃ err, checkImageSize b w img = ((getImageSize w img).1, Some err).
Proof.
  intros Hsize Hlt. unfold checkImageSize.
  destruct (getImageSize w img) as [w1 r]. simpl in *. subst r.
  apply Z.ltb_lt in Hlt. rewrite Hlt. eauto.
Qed.

(** X5: an image whose probed size is larger than the capacity is turned
    away by [PutImage] of every engine: the cache is as before, and the only
    collaborator calls are those of the size probe. *)
Theorem PutImage_rejects_oversized (fuel : nat) (w : W) (img : Image) (cap size : Z)
    (cn : Naive.naiveCache) (ci : ImageLRU.imageLRUCache)
    (cl : layerLRUCache cacheLayer) (ca : layerLRUCache archiveLayer) :
  capacity (Naive.base cn) = cap → capacity (ImageLRU.base ci) = cap →
  capacity (base cl) = cap → capacity (base ca) = cap →
  (getImageSize w img).2 = inl size → cap < size →
  Naive.PutImage w cn (Some img) = ((getImageSize w img).1, cn)
  ∧ ImageLRU.PutImage fuel w ci (Some img) = Done ((getImageSize w img).1, ci)
  ∧ LayerLRU.PutImage fuel w cl (Some img) = Done ((getImageSize w img).1, cl)
  ∧ ArchiveLRU.PutImage fuel w ca (Some img) = Done ((getImageSize w img).1, ca).
Proof.
  intros Hn Hi Hl Ha Hsize Hlt.
  unfold Naive.PutImage, ImageLRU.PutImage, LayerLRU.PutImage, ArchiveLRU.PutImage.
  destruct (checkImageSize_oversized (Naive.base cn) w img size Hsize ltac:(lia)) as [e1 ->].
  destruct (checkImageSize_oversized (ImageLRU.base ci) w img size Hsize ltac:(lia))
    as [e2 ->].
  destruct (checkImageSize_oversized (base cl) w img size Hsize ltac:(lia)) as [e3 ->].
  destruct (checkImageSize_oversized (base ca) w img size Hsize ltac:(lia)) as [e4 ->].
  repeat split; reflexivity.
Qed.
End SizeCheckFacts.

Lemma PutImage_rejects_oversized_witness :
  (getImageSize (storeAB None []) imgA).2 = inl 60 ∧ 50 < 60
  ∧ LayerLRU.PutImage 0 (storeAB None []) (LayerLRU.newLayerLRUCache 50) (Some imgA) =
      Done ((getImageSize (storeAB None []) imgA).1, LayerLRU.newLayerLRUCache 50).
Proof.
  split; [reflexivity|]. split; [lia|].
  exact (proj1 (proj2 (proj2
           (PutImage_rejects_oversized 0 (storeAB None []) imgA 50 60
              (Naive.newNaiveCache 50) (ImageLRU.newImageLRUCache 50)
              (LayerLRU.newLayerLRUCache 50) (ArchiveLRU.newArchiveLRUCache 50)
              eq_refl eq_refl eq_refl eq_refl eq_refl eq_refl)))).
Defined.

(** ** What the factory builds *)


(** ** naive *)

Lemma wrap64_idemp (z : Z) : wrap64 (wrap64 z) = wrap64 z.
Proof.
  apply wrap64_int64. unfold int64, wrap64.
  pose proof (Z.mod_pos_bound (z + 2 ^ 63) (2 ^ 64) ltac:(lia)). lia.
Qed.

Lemma sub64_wrap64 (a b : Z) : sub64 (wrap64 a) b = wrap64 (a - b).
Proof.
  unfold sub64, wrap64.
  replace ((a + 2 ^ 63) mod 2 ^ 64 - 2 ^ 63 - b + 2 ^ 63)
    with ((a + 2 ^ 63) mod 2 ^ 64 + - b) by lia.
  rewrite Zplus_mod_idemp_l. f_equal. f_equal. lia.
Qed.

Lemma sub64_add64 (a b : Z) : int64 a → sub64 (add64 a b) b = a.
Proof.
  intros Ha. unfold add64. rewrite sub64_wrap64.
  replace (a + b - b) with a by lia. apply wrap64_int64, Ha.
Qed.

Section NaiveFacts.
Context {W : Type} `{ImageService W}.

Lemma naive_evictRange_images (current : string) (entries : list (string * Z)) :
  ∀ (w : W) (c : Naive.naiveCache) (k : string),
    Naive.images (Naive.evictRange w c current entries).2 !! k =
      if bool_decide (k ≠ current ∧ k ∈ entries.*1) then None else Naive.images c !! k.
Proof.
  induction entries as [|[imgID size] rest IH]; intros w c k.
  - simpl. rewrite bool_decide_eq_false_2; [reflexivity|].
    intros [_ Hin]. apply elem_of_nil in Hin. exact Hin.
  - cbn [Naive.evictRange]. rewrite fmap_cons. simpl.
    case_bool_decide as Hcur.
    + subst imgID. rewrite IH.
      apply (f_equal (λ b : bool, if b then None else Naive.images c !! k)).
      apply bool_decide_ext. rewrite elem_of_cons. split; [tauto|].
      intros [Hne [Heq|Hin]]; [contradiction|tauto].
    + destruct (ImageDelete w imgID true true) as [w1 err]. rewrite IH. simpl.
      case_bool_decide as Hrest; case_bool_decide as Hall; try reflexivity.
      * exfalso. apply Hall. rewrite elem_of_cons. tauto.
      * destruct Hall as [Hne Hin]. apply elem_of_cons in Hin as [->|Hin]; [|tauto].
        apply lookup_delete_eq.
      * apply lookup_delete_ne. intros <-. apply Hall.
        split; [congruence|apply list_elem_of_here].
Qed.

Lemma naive_evictRange_level (current : string) (entries : list (string * Z)) :
  ∀ (w : W) (c : Naive.naiveCache) (z : Z),
    level (Naive.base c) = wrap64 z →
    level (Naive.base (Naive.evictRange w c current entries).2) =
      wrap64 (z - sizeOfOthers current entries)
    ∧ capacity (Naive.base (Naive.evictRange w c current entries).2) =
        capacity (Naive.base c).
Proof.
  induction entries as [|[imgID size] rest IH]; intros w c z Hz.
  - simpl. rewrite Z.sub_0_r. split; [exact Hz|reflexivity].
  - cbn [Naive.evictRange sizeOfOthers foldr]. simpl.
    fold (sizeOfOthers current rest). case_bool_decide as Hcur; [apply IH, Hz|].
    destruct (ImageDelete w imgID true true) as [w1 err].
    match goal with |- context [Naive.evictRange w1 ?x current rest] =>
      destruct (IH w1 x (z - size)) as [Hl Hc] end.
    { simpl. rewrite Hz. apply sub64_wrap64. }
    split; [|exact Hc]. rewrite Hl. f_equal. lia.
Qed.

Lemma naive_evictRange_world (current : string) (entries : list (string * Z)) :
  ∀ (w : W) (c : Naive.naiveCache),
    (Naive.evictRange w c current entries).1 =
      foldl (λ w0 k, (ImageDelete w0 k true true).1) w
            (filter (λ k, k ≠ current) entries.*1).
Proof.
  induction entries as [|[imgID size] rest IH]; intros w c; [reflexivity|].
  cbn [Naive.evictRange]. rewrite fmap_cons. simpl. case_bool_decide as Hcur.
  - rewrite filter_cons_False by (intros Hne; apply Hne; exact Hcur). apply IH.
  - rewrite filter_cons_True by exact Hcur.
    destruct (ImageDelete w imgID true true) as [w1 err] eqn:Hdel. rewrite IH.
    cbn [foldl]. rewrite Hdel. reflexivity.
Qed.

(** X3: when the level is above the capacity, naive's [evict] asks
    [ImageDelete] (forced, pruning) for every image but [current], whatever
    the answers, and drops them all: only [current] stays in the map, and
    the level goes down by the sizes of the others. *)
Theorem naive_evict_drains (w : W) (c : Naive.naiveCache) (current : string) :
  capacity (Naive.base c) < level (Naive.base c) →
  int64 (level (Naive.base c)) →
  (∀ k, Naive.images (Naive.evict w c current).2 !! k =
          if bool_decide (k = current) then Naive.images c !! k else None)
  ∧ level (Naive.base (Naive.evict w c current).2) =
      wrap64 (level (Naive.base c)
              - sizeOfOthers current (map_to_list (Naive.images c)))
  ∧ capacity (Naive.base (Naive.evict w c current).2) = capacity (Naive.base c)
  ∧ (Naive.evict w c current).1 =
      foldl (λ w0 k, (ImageDelete w0 k true true).1) w
            (filter (λ k, k ≠ current) (map_to_list (Naive.images c)).*1).
Proof.
  intros Hlt Hint. unfold Naive.evict. apply Z.ltb_lt in Hlt. rewrite Hlt.
  split; [|split; [|split]].
  - intros k. rewrite naive_evictRange_images.
    case_bool_decide as Hdrop; case_bool_decide as Hcur; try reflexivity.
    + destruct Hdrop as [Hne _]. contradiction.
    + destruct (Naive.images c !! k) as [size|] eqn:Hk; [|reflexivity].
      exfalso. apply Hdrop. split; [exact Hcur|].
      apply list_elem_of_fmap. exists (k, size). split; [reflexivity|].
      apply elem_of_map_to_list, Hk.
  - apply naive_evictRange_level. symmetry. apply wrap64_int64, Hint.
  - apply (naive_evictRange_level current _ w c (level (Naive.base c))).
    symmetry. apply wrap64_int64, Hint.
  - apply naive_evictRange_world.
Qed.

(** X4: naive's [PutImage] followed by [RemoveImage] of the same image is a
    round trip: when the image was not resident and its size fits under the
    capacity (so that nothing is evicted), the cache is again what it was. *)
Theorem naive_PutImage_RemoveImage (w w1 w2 : W) (c : Naive.naiveCache) (img : Image)
    (size : Z) :
  Naive.images c !! ImageID img = None →
  int64 (level (Naive.base c)) →
  checkImageSize (Naive.base c) w img = (w1, None) →
  getImageSize w1 img = (w2, inl size) →
  add64 (level (Naive.base c)) size ≤ capacity (Naive.base c) →
  ∃ c', Naive.PutImage w c (Some img) = (w2, c')
        ∧ Naive.images c' !! ImageID img = Some size
        ∧ level (Naive.base c') = add64 (level (Naive.base c)) size
        ∧ Naive.RemoveImage c' (ImageID img) = c.
Proof.
  intros Habsent Hint Hcheck Hsize Hfits. unfold Naive.PutImage.
  rewrite Hcheck, Habsent, Hsize. unfold Naive.evict. simpl.
  apply Z.ltb_ge in Hfits. rewrite Hfits. eexists. split; [reflexivity|].
  split; [apply lookup_insert_eq|]. split; [reflexivity|].
  unfold Naive.RemoveImage. simpl. rewrite lookup_insert_eq.
  rewrite delete_insert_eq, delete_id by exact Habsent.
  unfold subLevel, addLevel. simpl. rewrite sub64_add64 by exact Hint.
  destruct c as [[cap lvl] imgs]. reflexivity.
Qed.
End NaiveFacts.

Lemma naive_evict_drains_witness :
  capacity (Naive.base naiveCacheABC) < level (Naive.base naiveCacheABC)
  ∧ level (Naive.base (Naive.evict (storeAB None []) naiveCacheABC "C").2) =
      wrap64 (180 - sizeOfOthers "C" (map_to_list (Naive.images naiveCacheABC)))
  ∧ level (Naive.base (Naive.evict (storeAB None []) naiveCacheABC "C").2) = 60.
Proof.
  split; [simpl; lia|]. split.
  - exact (proj1 (proj2 (naive_evict_drains (storeAB None []) naiveCacheABC "C"
                           ltac:(simpl; lia) ltac:(unfold int64; simpl; lia)))).
  - vm_compute. reflexivity.
Defined.

Lemma naive_PutImage_RemoveImage_witness :
  ∃ c', Naive.PutImage (storeAB None []) (Naive.newNaiveCache 100) (Some imgA) =
          (storeAB None [CallGetReadOnlyLayer "sha256:a" "linux";
                         CallReleaseReadOnlyLayer (Some "sha256:a"%string) "linux";
                         CallGetReadOnlyLayer "sha256:a" "linux";
                         CallReleaseReadOnlyLayer (Some "sha256:a"%string) "linux"], c')
        ∧ Naive.images c' !! ImageID imgA = Some 60
        ∧ level (Naive.base c') = add64 0 60
        ∧ Naive.RemoveImage c' (ImageID imgA) = Naive.newNaiveCache 100.
Proof.
  exact (naive_PutImage_RemoveImage (storeAB None [])
           (storeAB None [CallGetReadOnlyLayer "sha256:a" "linux";
                          CallReleaseReadOnlyLayer (Some "sha256:a"%string) "linux"])
           (storeAB None [CallGetReadOnlyLayer "sha256:a" "linux";
                          CallReleaseReadOnlyLayer (Some "sha256:a"%string) "linux";
                          CallGetReadOnlyLayer "sha256:a" "linux";
                          CallReleaseReadOnlyLayer (Some "sha256:a"%string) "linux"])
           (Naive.newNaiveCache 100) imgA 60
           eq_refl ltac:(unfold int64; simpl; lia) eq_refl eq_refl
           ltac:(vm_compute; discriminate)).
Defined.

(** ** image-LRU: round trip and eviction *)

Lemma unlink_length (e : Element) (es : list Element) :
  e ∈ es → (length (unlink e es) < length es)%nat.
Proof.
  induction es as [|x es IH]; intros Hin; [apply elem_of_nil in Hin; destruct Hin|].
  unfold unlink in *. destruct (decide (x = e)) as [->|Hne].
  - rewrite filter_cons_False by (intros Hne; apply Hne; reflexivity).
    pose proof (length_filter (λ y, y ≠ e) es). simpl. lia.
  - rewrite filter_cons_True by exact Hne. simpl.
    apply elem_of_cons in Hin as [->|Hin]; [contradiction|].
    specialize (IH Hin). lia.
Qed.

Section ImageRoundTrip.
Context {W : Type} `{ImageService W}.

(** X7: image-LRU accounts an image at the size probed by [PutImage] and
    gives back the size probed by [RemoveImage].  For an image that was not
    resident and fits under the capacity, [PutImage] then [RemoveImage]
    restores index and list, and the level ends at the old level plus the
    first size minus the second: it is restored when the two probes
    agree. *)
Theorem imageLRU_PutImage_RemoveImage (fuel : nat) (w w1 w2 w3 w4 : W)
    (c : ImageLRU.imageLRUCache) (img : Image) (size size' : Z) :
  ImageLRU.images c !! ID img = None →
  (∀ e, e ∈ order (ImageLRU.evictList c) → (e < fresh (ImageLRU.evictList c))%nat) →
  checkImageSize (ImageLRU.base c) w img = (w1, None) →
  getImageSize w1 img = (w2, inl size) →
  add64 (level (ImageLRU.base c)) size ≤ capacity (ImageLRU.base c) →
  getImageSize w3 img = (w4, inl size') →
  ∃ c' c'',
    ImageLRU.PutImage fuel w c (Some img) = Done (w2, c')
    ∧ head (order (ImageLRU.evictList c')) = ImageLRU.images c' !! ID img
    ∧ level (ImageLRU.base c') = add64 (level (ImageLRU.base c)) size
    ∧ ImageLRU.RemoveImage w3 c' (ID img) = Done (w4, c'')
    ∧ ImageLRU.images c'' = ImageLRU.images c
    ∧ order (ImageLRU.evictList c'') = order (ImageLRU.evictList c)
    ∧ capacity (ImageLRU.base c'') = capacity (ImageLRU.base c)
    ∧ level (ImageLRU.base c'') = wrap64 (level (ImageLRU.base c) + size - size').
Proof.
  intros Habsent Hfresh Hcheck Hsize Hfits Hsize'.
  unfold ImageLRU.PutImage. rewrite Hcheck, Habsent, Hsize. cbn [PushFront].
  unfold ImageLRU.evict. rewrite bool_decide_eq_false_2 by (simpl; discriminate).
  rewrite imageLRU_evictLoop_within by exact Hfits.
  eexists _, _. split; [reflexivity|]. simpl.
  split; [symmetry; apply lookup_insert_eq|]. split; [reflexivity|].
  unfold ImageLRU.RemoveImage. simpl. rewrite lookup_insert_eq.
  unfold Value. simpl. rewrite lookup_insert_eq, Hsize'.
  split; [reflexivity|]. simpl.
  split; [rewrite delete_insert_eq; apply delete_id, Habsent|].
  split.
  - unfold unlink. rewrite filter_cons_False by (intros Hne; apply Hne; reflexivity).
    apply unlink_absent. intros Hin. apply Hfresh in Hin. lia.
  - split; [reflexivity|]. unfold add64. apply sub64_wrap64.
Qed.

(** What a turn of image-LRU's eviction does when the probe and the deletion
    of the back candidate succeed; [cs] are the values of the elements. *)
Lemma imageLRU_evictTurn_evicts (P : W → Prop) (cs : gmap nat Image) (w : W)
    (c : ImageLRU.imageLRUCache) :
  (∀ w0 e img, P w0 → cs !! e = Some img →
     (∃ size, (getImageSize w0 img).2 = inl size) ∧ P (getImageSize w0 img).1
     ∧ (ImageDelete w0 (ImageID img) true false).2 = None
     ∧ P (ImageDelete w0 (ImageID img) true false).1) →
  cells (ImageLRU.evictList c) = cs →
  P w → imageWellFormed c →
  match Back (ImageLRU.evictList c) with
  | None => ImageLRU.evictTurn w c = Crash
  | Some e =>
      ∃ w' c', ImageLRU.evictTurn w c = Continue (w', c') ∧ P w'
               ∧ order (ImageLRU.evictList c') = unlink e (order (ImageLRU.evictList c))
               ∧ cells (ImageLRU.evictList c') = cs
               ∧ e ∈ order (ImageLRU.evictList c)
  end.
Proof.
  intros Hok Hcells Hw (Hfresh & Hmap & Hlist). unfold ImageLRU.evictTurn.
  destruct (Back (ImageLRU.evictList c)) as [e|] eqn:Hback; [|reflexivity].
  assert (e ∈ order (ImageLRU.evictList c)) as Hin by apply last_Some_elem_of, Hback.
  destruct (Hlist e Hin) as [k Hk]. destruct (Hmap k e Hk) as (_ & img & Hv & _).
  rewrite Hv. unfold Value in Hv. rewrite Hcells in Hv.
  destruct (Hok w e img Hw Hv) as ([size Hsize] & Hw1 & _).
  destruct (getImageSize w img) as [w1 r]. simpl in Hsize, Hw1. subst r.
  destruct (Hok w1 e img Hw1 Hv) as (_ & _ & Hdel & Hw2).
  destruct (ImageDelete w1 (ImageID img) true false) as [w2 err]. simpl in Hdel, Hw2.
  subst err. eexists _, _. split; [reflexivity|]. split; [exact Hw2|].
  split; [reflexivity|]. split; [exact Hcells|exact Hin].
Qed.

Lemma imageLRU_evictLoop_bounded (P : W → Prop) (cs : gmap nat Image) (fuel : nat) :
  (∀ w0 e img, P w0 → cs !! e = Some img →
     (∃ size, (getImageSize w0 img).2 = inl size) ∧ P (getImageSize w0 img).1
     ∧ (ImageDelete w0 (ImageID img) true false).2 = None
     ∧ P (ImageDelete w0 (ImageID img) true false).1) →
  ∀ (w : W) (c : ImageLRU.imageLRUCache),
    cells (ImageLRU.evictList c) = cs →
    P w → imageWellFormed c →
    (length (order (ImageLRU.evictList c)) < fuel)%nat →
    (∃ w' c', ImageLRU.evictLoop fuel w c = Done (w', c')
              ∧ level (ImageLRU.base c') ≤ capacity (ImageLRU.base c')
              ∧ imageWellFormed c')
    ∨ (ImageLRU.evictLoop fuel w c = Panic
       ∧ capacity (ImageLRU.base c) < level (ImageLRU.base c)).
Proof.
  intros Hok. induction fuel as [|fuel IH]; intros w c Hcells Hw Hwf Hlen; [lia|].
  destruct (Z.ltb_spec (capacity (ImageLRU.base c)) (level (ImageLRU.base c)))
    as [Hover|Hwithin].
  - rewrite imageLRU_evictLoop_over by exact Hover.
    pose proof (imageLRU_evictTurn_evicts P cs w c Hok Hcells Hw Hwf) as Hturn.
    destruct (Back (ImageLRU.evictList c)) as [e|].
    + destruct Hturn as (w1 & c1 & Hstep & Hw1 & Horder & Hcells1 & Hin). rewrite Hstep.
      assert (imageWellFormed c1) as Hwf1
        by (eapply imageLRU_evictTurn_wellFormed; [left; exact Hstep|exact Hwf]).
      assert (length (order (ImageLRU.evictList c1)) < fuel)%nat as Hlen1.
      { rewrite Horder. pose proof (unlink_length e _ Hin). lia. }
      destruct (IH w1 c1 Hcells1 Hw1 Hwf1 Hlen1) as [Hdone|[Hpanic _]].
      * left. exact Hdone.
      * right. split; [exact Hpanic|exact Hover].
    + rewrite Hturn. right. split; [reflexivity|exact Hover].
  - left. exists w, c. split; [apply imageLRU_evictLoop_within, Hwithin|].
    split; [exact Hwithin|exact Hwf].
Qed.

(** X8: when the size probe and [ImageDelete] succeed for every cached
    image, image-LRU's eviction loop needs no more turns than the list has
    elements, plus one: it ends with the level within the capacity, or it
    crashes on the emptied list, which it does not test again after its
    first line. *)
Theorem imageLRU_evictLoop_ends (P : W → Prop) (fuel : nat) (w : W)
    (c : ImageLRU.imageLRUCache) :
  (∀ w0 e img, P w0 → Value (ImageLRU.evictList c) e = Some img →
     (∃ size, (getImageSize w0 img).2 = inl size) ∧ P (getImageSize w0 img).1
     ∧ (ImageDelete w0 (ImageID img) true false).2 = None
     ∧ P (ImageDelete w0 (ImageID img) true false).1) →
  P w → imageWellFormed c →
  (length (order (ImageLRU.evictList c)) < fuel)%nat →
  (∃ w' c', ImageLRU.evictLoop fuel w c = Done (w', c')
            ∧ level (ImageLRU.base c') ≤ capacity (ImageLRU.base c')
            ∧ imageWellFormed c')
  ∨ (ImageLRU.evictLoop fuel w c = Panic
     ∧ capacity (ImageLRU.base c) < level (ImageLRU.base c)).
Proof.
  intros Hok Hw Hwf Hlen.
  exact (imageLRU_evictLoop_bounded P (cells (ImageLRU.evictList c)) fuel Hok w c
           eq_refl Hw Hwf Hlen).
Qed.

(** X9: image-LRU's eviction never gets past a back candidate that stays
    blocked.  While the size probe of the image at the back fails, or
    [ImageDelete] answers it with "conflict" or "no such image", every turn
    leaves the cache as it is, and [evict] returns for no number of turns. *)
Theorem imageLRU_evict_blocked (P : W → Prop) (w : W) (c : ImageLRU.imageLRUCache)
    (e : Element) (img : Image) :
  capacity (ImageLRU.base c) < level (ImageLRU.base c) →
  Back (ImageLRU.evictList c) = Some e →
  Value (ImageLRU.evictList c) e = Some img →
  (∀ w0, P w0 →
     P (getImageSize w0 img).1
     ∧ ((∃ err, (getImageSize w0 img).2 = inr err)
        ∨ (P (ImageDelete (getImageSize w0 img).1 (ImageID img) true false).1
           ∧ ∃ msg, (ImageDelete (getImageSize w0 img).1 (ImageID img) true false).2 =
                      Some msg
                    ∧ (mentions msg "conflict" = true
                       ∨ mentions msg "no such image" = true)))) →
  P w →
  ∀ fuel, ImageLRU.evict fuel w c = OutOfFuel.
Proof.
  intros Hover Hback Hv Hblocked Hw fuel. unfold ImageLRU.evict.
  rewrite bool_decide_eq_false_2.
  2:{ unfold Len. intros Hlen. apply length_zero_iff_nil in Hlen.
      unfold Back in Hback. rewrite Hlen in Hback. discriminate. }
  apply (imageLRU_evictLoop_spins P c Hover); [|exact Hw].
  intros w0 Hw0. unfold ImageLRU.evictTurn. rewrite Hback, Hv.
  destruct (Hblocked w0 Hw0) as [Hw1 Hcase].
  destruct (getImageSize w0 img) as [w1 r]. simpl in Hw1, Hcase.
  destruct Hcase as [[err ->]|(Hw2 & msg & Hdel & Hmsg)]; [eauto|].
  destruct r as [size|err]; [|eauto].
  destruct (ImageDelete w1 (ImageID img) true false) as [w2 answer].
  simpl in Hw2, Hdel. subst answer.
  destruct (mentions msg "conflict") eqn:Hconflict; [eauto|].
  destruct Hmsg as [Hmsg|Hmsg]; [discriminate|]. rewrite Hmsg. eauto.
Qed.
End ImageRoundTrip.

Lemma imageLRU_PutImage_RemoveImage_witness :
  ∃ c' c'',
    ImageLRU.PutImage 0 (storeAB None []) (ImageLRU.newImageLRUCache 100) (Some imgA) =
      Done (storeAB None [CallGetReadOnlyLayer "sha256:a" "linux";
                          CallReleaseReadOnlyLayer (Some "sha256:a"%string) "linux";
                          CallGetReadOnlyLayer "sha256:a" "linux";
                          CallReleaseReadOnlyLayer (Some "sha256:a"%string) "linux"], c')
    ∧ head (order (ImageLRU.evictList c')) = ImageLRU.images c' !! ID imgA
    ∧ level (ImageLRU.base c') = add64 0 60
    ∧ ImageLRU.RemoveImage (storeAB None []) c' (ID imgA) =
        Done (storeAB None [CallGetReadOnlyLayer "sha256:a" "linux";
                            CallReleaseReadOnlyLayer (Some "sha256:a"%string) "linux"], c'')
    ∧ ImageLRU.images c'' = ImageLRU.images (ImageLRU.newImageLRUCache 100)
    ∧ order (ImageLRU.evictList c'') = []
    ∧ capacity (ImageLRU.base c'') = 100
    ∧ level (ImageLRU.base c'') = wrap64 (0 + 60 - 60).
Proof.
  exact (imageLRU_PutImage_RemoveImage 0 (storeAB None [])
           (storeAB None [CallGetReadOnlyLayer "sha256:a" "linux";
                          CallReleaseReadOnlyLayer (Some "sha256:a"%string) "linux"])
           (storeAB None [CallGetReadOnlyLayer "sha256:a" "linux";
                          CallReleaseReadOnlyLayer (Some "sha256:a"%string) "linux";
                          CallGetReadOnlyLayer "sha256:a" "linux";
                          CallReleaseReadOnlyLayer (Some "sha256:a"%string) "linux"])
           (storeAB None [])
           (storeAB None [CallGetReadOnlyLayer "sha256:a" "linux";
                          CallReleaseReadOnlyLayer (Some "sha256:a"%string) "linux"])
           (ImageLRU.newImageLRUCache 100) imgA 60 60
           eq_refl
           ltac:(intros e He; simpl in He; apply elem_of_nil in He; destruct He)
           eq_refl eq_refl ltac:(vm_compute; discriminate) eq_refl).
Defined.

Lemma answersFromAB_probe (del : option string) (w : Script) (img : Image) :
  answersFromAB del w → img = imgA ∨ img = imgB →
  (getImageSize w img).2 = inl 60 ∧ answersFromAB del (getImageSize w img).1.
Proof.
  intros (Htable & Hqueue & Hdq & Hdel) Himg.
  unfold getImageSize. simpl. unfold scriptGetReadOnlyLayer. rewrite Hqueue, Htable.
  destruct Himg as [->| ->]; simpl; unfold scriptRelease; simpl;
    destruct (releaseQueue w); simpl; repeat split; assumption.
Defined.

Lemma answersFromAB_delete (del : option string) (w : Script) (imgID : string)
    (force prune : bool) :
  answersFromAB del w →
  (ImageDelete w imgID force prune).2 = del
  ∧ answersFromAB del (ImageDelete w imgID force prune).1.
Proof.
  intros (Htable & Hqueue & Hdq & Hdel). simpl. unfold scriptImageDelete.
  rewrite Hdq. simpl. repeat split; assumption.
Defined.

Lemma imageCacheBA_wellFormed : imageWellFormed imageCacheBA.
Proof.
  split; [|split]; simpl.
  - intros e He. apply elem_of_cons in He as [->|He]; [lia|].
    apply list_elem_of_singleton in He as ->. lia.
  - intros k e Hk. apply lookup_insert_Some in Hk as [[<- <-]|[Hne Hk]].
    + split; [apply list_elem_of_here|]. exists imgB. split; reflexivity.
    + apply lookup_singleton_Some in Hk as [<- <-].
      split; [apply elem_of_cons; right; apply list_elem_of_here|].
      exists imgA. split; reflexivity.
  - intros e He. apply elem_of_cons in He as [->|He].
    + exists "B"%string. reflexivity.
    + apply list_elem_of_singleton in He as ->. exists "A"%string. reflexivity.
Defined.

Lemma imageCacheBA_values (e : Element) (img : Image) :
  Value (ImageLRU.evictList imageCacheBA) e = Some img → img = imgA ∨ img = imgB.
Proof.
  unfold Value. simpl. intros He.
  apply lookup_insert_Some in He as [[_ <-]|[_ He]]; [right; reflexivity|].
  apply lookup_singleton_Some in He as [_ <-]. left. reflexivity.
Defined.

Lemma imageLRU_evictLoop_ends_witness :
  (length (order (ImageLRU.evictList imageCacheBA)) < 3)%nat
  ∧ ((∃ w' c', ImageLRU.evictLoop 3 (storeAB None []) imageCacheBA = Done (w', c')
               ∧ level (ImageLRU.base c') ≤ capacity (ImageLRU.base c')
               ∧ imageWellFormed c')
     ∨ (ImageLRU.evictLoop 3 (storeAB None []) imageCacheBA = Panic
        ∧ capacity (ImageLRU.base imageCacheBA) < level (ImageLRU.base imageCacheBA))).
Proof.
  split; [simpl; lia|].
  apply (imageLRU_evictLoop_ends (answersFromAB None) 3 (storeAB None []) imageCacheBA).
  - intros w0 e img Hw0 He. apply imageCacheBA_values in He.
    destruct (answersFromAB_probe None w0 img Hw0 He) as [Hsize Hw1].
    destruct (answersFromAB_delete None w0 (ImageID img) true false Hw0) as [Hdel Hw2].
    split; [exists 60; exact Hsize|]. split; [exact Hw1|]. split; [exact Hdel|exact Hw2].
  - repeat split.
  - exact imageCacheBA_wellFormed.
  - simpl. lia.
Defined.

Lemma imageLRU_evict_blocked_witness :
  ImageLRU.evict 7 (storeAB (Some conflictMsg) []) imageCacheBA = OutOfFuel.
Proof.
  generalize 7%nat.
  apply (imageLRU_evict_blocked (answersFromAB (Some conflictMsg))
           (storeAB (Some conflictMsg) []) imageCacheBA 0%nat imgA).
  - simpl. lia.
  - reflexivity.
  - reflexivity.
  - intros w0 Hw0.
    destruct (answersFromAB_probe _ w0 imgA Hw0 (or_introl eq_refl)) as [Hsize Hw1].
    split; [exact Hw1|]. right.
    destruct (answersFromAB_delete _ _ (ImageID imgA) true false Hw1) as [Hdel Hw2].
    split; [exact Hw2|]. exists conflictMsg. split; [exact Hdel|]. left. reflexivity.
  - repeat split.
Defined.

(** ** layer-LRU: the image being put *)

Section ProtectFacts.
Context {W : Type} `{ImageService W}.



End ProtectFacts.


Lemma add64_int64 (a b : Z) : int64 (a + b) → add64 a b = a + b.
Proof. intros Hab. apply wrap64_int64, Hab. Qed.

Section PutNewFacts.
Context {W : Type} `{ImageService W}.

(** [putLayer] for a chain ID that is not resident, with room under the
    capacity: the record is pushed to the front and nothing is evicted. *)
Lemma layerLRU_putLayer_new (P : W → Prop) (lyr : string → Layer) (sz : string → Z)
    (fuel : nat) (img : Image) (w : W) (c : layerLRUCache cacheLayer) (k : string) :
  P w → answersStable P lyr img → k ∈ chainIDsOf img →
  layers c !! k = None →
  DiffSize (lyr k) = inl (sz k) →
  int64 (level (base c) + sz k) →
  level (base c) + sz k ≤ capacity (base c) →
  ∃ w', LayerLRU.putLayer fuel w c k img =
          Done (w', mkLayerCache (mkBase (capacity (base c)) (level (base c) + sz k))
                      (images c) (<[k := fresh (evictList c)]> (layers c))
                      (PushFront (evictList c) (builtRecord lyr sz img k)).1)
        ∧ P w'.
Proof.
  intros Hw Hstable Hk Habsent Hsize Hint Hfits.
  destruct (Hstable w Hw) as (Hget & HPget & _ & _).
  specialize (Hget k Hk). specialize (HPget k (OperatingSystem img)).
  unfold LayerLRU.putLayer, LayerLRU.putLayerBody. rewrite Habsent.
  destruct (GetReadOnlyLayer w k (OperatingSystem img)) as [w1 r]. simpl in Hget, HPget.
  subst r. rewrite Hsize. cbn [PushFront]. unfold addLevel.
  rewrite add64_int64 by exact Hint.
  rewrite layerLRU_evict_within by exact Hfits.
  exists w1. split; [reflexivity|exact HPget].
Qed.

Lemma values_PushFront {V : Type} (l : List V) (v : V) :
  (∀ e, e ∈ order l → (e < fresh l)%nat) →
  values (PushFront l v).1 = Some v :: values l.
Proof.
  intros Hfresh. unfold values. simpl. rewrite lookup_insert_eq. f_equal.
  apply list_fmap_ext. intros i e He.
  apply lookup_insert_ne. apply list_elem_of_lookup_2 in He. apply Hfresh in He. lia.
Qed.

Lemma layerLRU_putLayers_new (P : W → Prop) (lyr : string → Layer) (sz : string → Z)
    (fuel : nat) (img : Image) (ks : list string) :
  ∀ (w : W) (c : layerLRUCache cacheLayer),
    P w → answersStable P lyr img → NoDup ks →
    (∀ k, k ∈ ks → k ∈ chainIDsOf img ∧ layers c !! k = None
                   ∧ DiffSize (lyr k) = inl (sz k) ∧ 0 ≤ sz k) →
    bounded c →
    - 2 ^ 63 ≤ level (base c) →
    level (base c) + sizeSum sz ks ≤ capacity (base c) →
    capacity (base c) < 2 ^ 63 →
    ∃ w' c', LayerLRU.putLayers fuel w c ks img = Done (w', c')
             ∧ P w'
             ∧ level (base c') = level (base c) + sizeSum sz ks
             ∧ capacity (base c') = capacity (base c)
             ∧ images c' = images c
             ∧ (∀ k, k ∈ ks → recordOf c' k = Some (builtRecord lyr sz img k))
             ∧ (∀ k, k ∉ ks → recordOf c' k = recordOf c k)
             ∧ values (evictList c') =
                 ((λ k, Some (builtRecord lyr sz img k)) <$> rev ks) ++ values (evictList c)
             ∧ bounded c'.
Proof.
  induction ks as [|k rest IH]; intros w c Hw Hstable Hnd Hks Hb Hlow Hfits Hcap.
  - exists w, c. simpl in *. split; [reflexivity|]. split; [exact Hw|].
    split; [lia|]. repeat split; try reflexivity; try apply Hb.
    intros k Hk. apply elem_of_nil in Hk. destruct Hk.
  - apply NoDup_cons in Hnd as [Hk Hnd].
    destruct (Hks k (list_elem_of_here _ _)) as (Hkin & Habsent & Hsize & Hpos).
    assert (0 ≤ sizeSum sz rest) as Hrest.
    { assert (∀ k', k' ∈ rest → 0 ≤ sz k') as Hall
        by (intros k' Hin; apply (Hks k'), elem_of_cons; right; exact Hin).
      clear -Hall. induction rest as [|k' rest IHr]; simpl; [lia|].
      pose proof (Hall k' (list_elem_of_here _ _)).
      assert (0 ≤ sizeSum sz rest)
        by (apply IHr; intros k'' Hin; apply Hall, elem_of_cons; right; exact Hin).
      unfold sizeSum in *. lia. }
    cbn [sizeSum foldr] in Hfits. fold (sizeSum sz rest) in Hfits.
    destruct (layerLRU_putLayer_new P lyr sz fuel img w c k Hw Hstable Hkin Habsent Hsize)
      as (w1 & Hput & Hw1); [unfold int64; lia|lia|].
    cbn [LayerLRU.putLayers]. rewrite Hput.
    match goal with |- context [LayerLRU.putLayers fuel w1 ?x rest img] => set (c1 := x) end.
    destruct Hb as [Hbmap Hborder].
    assert (bounded c1) as Hb1.
    { split; simpl.
      - intros k' e' Hk'. apply lookup_insert_Some in Hk' as [[_ <-]|[_ Hk']]; [lia|].
        apply Hbmap in Hk'. lia.
      - intros e' He'. apply elem_of_cons in He' as [->|He']; [lia|].
        apply Hborder in He'. lia. }
    destruct (IH w1 c1 Hw1 Hstable Hnd) as
      (w2 & c2 & Hputs & Hw2 & Hlevel & Hcapacity & Himages & Hin & Hout & Hvalues & Hb2).
    { intros k' Hk'. destruct (Hks k' (proj2 (elem_of_cons _ _ _) (or_intror Hk')))
        as (H1 & H2 & H3 & H4).
      repeat split; try assumption. simpl. rewrite lookup_insert_ne; [exact H2|].
      intros <-. exact (Hk Hk'). }
    { exact Hb1. }
    { simpl. lia. }
    { simpl. lia. }
    { simpl. exact Hcap. }
    assert (recordOf c1 k = Some (builtRecord lyr sz img k)) as Hrec1.
    { unfold recordOf, c1, Value. simpl. rewrite lookup_insert_eq. simpl.
      apply lookup_insert_eq. }
    assert (∀ k', k' ≠ k → recordOf c1 k' = recordOf c k') as Hrec1'.
    { intros k' Hne. unfold recordOf, c1, Value. simpl.
      rewrite lookup_insert_ne by congruence.
      destruct (layers c !! k') as [e'|] eqn:He'; [|reflexivity]. simpl.
      apply lookup_insert_ne. apply Hbmap in He'. lia. }
    exists w2, c2. split; [exact Hputs|]. split; [exact Hw2|].
    split; [rewrite Hlevel; simpl; unfold sizeSum; simpl; lia|].
    split; [rewrite Hcapacity; reflexivity|]. split; [rewrite Himages; reflexivity|].
    split; [|split; [|split]].
    + intros k' Hk'. apply elem_of_cons in Hk' as [->|Hk']; [|apply Hin, Hk'].
      rewrite Hout by exact Hk. exact Hrec1.
    + intros k' Hk'. apply not_elem_of_cons in Hk' as [Hne Hk'].
      rewrite Hout by exact Hk'. apply Hrec1', Hne.
    + rewrite Hvalues. unfold c1. cbn [evictList].
      rewrite values_PushFront by exact Hborder.
      cbn [rev]. rewrite fmap_app, <- app_assoc. reflexivity.
    + exact Hb2.
Qed.

(** X11: what layer-LRU's [PutImage] makes of an image none of whose layers
    is resident, when the layers fit under the capacity: nothing is evicted,
    the level grows by the diff sizes, the records of the image are in front
    of the list with the base layer first and the top layer last, the other
    records are as before, and the cache is [settled] for the image. *)
Theorem layerLRU_PutImage_new (P : W → Prop) (lyr : string → Layer) (sz : string → Z)
    (fuel : nat) (img : Image) (w : W) (c : layerLRUCache cacheLayer) :
  P w → answersStable P lyr img → NoDup (chainIDsOf img) →
  (∀ k, k ∈ chainIDsOf img →
     layers c !! k = None ∧ DiffSize (lyr k) = inl (sz k) ∧ 0 ≤ sz k) →
  bounded c →
  - 2 ^ 63 ≤ level (base c) →
  level (base c) + sizeSum sz (chainIDsOf img) ≤ capacity (base c) →
  capacity (base c) < 2 ^ 63 →
  (checkImageSize (base c) w img).2 = None →
  ∃ w' c', LayerLRU.PutImage fuel w c (Some img) = Done (w', c')
           ∧ settled id lyr img c'
           ∧ level (base c') = level (base c) + sizeSum sz (chainIDsOf img)
           ∧ values (evictList c') =
               ((λ k, Some (builtRecord lyr sz img k)) <$> rev (chainIDsOf img))
               ++ values (evictList c)
           ∧ (∀ k, k ∉ chainIDsOf img → recordOf c' k = recordOf c k).
Proof.
  intros Hw Hstable Hnd Hks Hb Hlow Hfits Hcap Hcheck. unfold LayerLRU.PutImage.
  pose proof (checkImageSize_stable P lyr img (base c) w Hw Hstable) as Hw1.
  destruct (checkImageSize (base c) w img) as [w1 err]. simpl in Hcheck, Hw1. subst err.
  match goal with |- context [LayerLRU.putLayers fuel w1 ?x _ img] => set (c0 := x) end.
  destruct (layerLRU_putLayers_new P lyr sz fuel img (chainIDsOf img) w1 c0 Hw1 Hstable Hnd)
    as (w2 & c2 & Hputs & Hw2 & Hlevel & Hcapacity & Himages & Hin & Hout & Hvalues & Hb2);
    try assumption.
  { intros k Hk. destruct (Hks k Hk) as (H1 & H2 & H3). repeat split; assumption. }
  exists w2, c2. split; [exact Hputs|]. simpl in Hlevel, Hcapacity.
  split; [|split; [exact Hlevel|split; [exact Hvalues|exact Hout]]].
  split; [rewrite Himages; apply lookup_insert_eq|].
  split; [rewrite Hlevel, Hcapacity; exact Hfits|].
  split.
  { rewrite Hlevel. unfold int64.
    assert (0 ≤ sizeSum sz (chainIDsOf img)) as Hsum.
    { assert (∀ k, k ∈ chainIDsOf img → 0 ≤ sz k) as Hall by (intros k Hk; apply (Hks k Hk)).
      clear -Hall. induction (chainIDsOf img) as [|k rest IHr]; simpl; [lia|].
      pose proof (Hall k (list_elem_of_here _ _)).
      assert (0 ≤ sizeSum sz rest)
        by (apply IHr; intros k'' Hin; apply Hall, elem_of_cons; right; exact Hin).
      unfold sizeSum in *. lia. }
    lia. }
  split; [apply Hb2|].
  intros k Hk. specialize (Hin k Hk). unfold recordOf in Hin.
  destruct (layers c2 !! k) as [e|]; [|discriminate]. simpl in Hin.
  destruct (Hks k Hk) as (_ & Hsize & _).
  exists e, (sz k), (builtRecord lyr sz img k). repeat split; assumption.
Qed.
End PutNewFacts.

Lemma layerLRU_PutImage_new_witness :
  ∃ w' c', LayerLRU.PutImage 0 (storeAB None []) (LayerLRU.newLayerLRUCache 100)
                             (Some imgA) = Done (w', c')
           ∧ settled id (λ _, layerA) imgA c'
           ∧ level (base c') = 0 + sizeSum (λ _, 60) (chainIDsOf imgA)
           ∧ values (evictList c') =
               ((λ k, Some (builtRecord (λ _, layerA) (λ _, 60) imgA k))
                  <$> rev (chainIDsOf imgA))
               ++ values (evictList (LayerLRU.newLayerLRUCache 100))
           ∧ (∀ k, k ∉ chainIDsOf imgA →
                recordOf c' k = recordOf (LayerLRU.newLayerLRUCache 100) k).
Proof.
  apply (layerLRU_PutImage_new tableAB (λ _, layerA) (λ _, 60) 0 imgA (storeAB None [])
           (LayerLRU.newLayerLRUCache 100)).
  - split; reflexivity.
  - exact tableAB_stable.
  - apply NoDup_singleton.
  - intros k Hk. split; [reflexivity|]. split; [reflexivity|lia].
  - split.
    + intros k e Hk. simpl in Hk. rewrite lookup_empty in Hk. discriminate.
    + intros e He. simpl in He. apply elem_of_nil in He. destruct He.
  - simpl. lia.
  - vm_compute. discriminate.
  - simpl. lia.
  - reflexivity.
Defined.

(** ** archive-LRU: the archive that is kept *)

Section ArchiveKeptFacts.
Context {W : Type} `{ImageService W}.

(** X12: archive-LRU's [putLayer] removes the companion archive only when it
    is strictly larger than the layer.  An archive of at most the layer's
    diff size is left alone and its size recorded as the compact size; with
    no archive, or when the file cannot be examined, the compact size is 0.
    In these cases the only collaborator call is [GetReadOnlyLayer]. *)
Theorem archive_putLayer_keeps_archive (w w1 : W) (c : layerLRUCache archiveLayer)
    (chainID : string) (img : Image) (l : Layer) (size : Z) :
  (∀ e, layers c !! chainID = Some e → is_Some (Value (evictList c) e)) →
  GetReadOnlyLayer w chainID (OperatingSystem img) = (w1, inl l) →
  DiffSize l = inl size →
  (∀ archiveSize,
     Stat w1 (createLayerArchivePath w1 (DiffID l)) = StatFile archiveSize →
     archiveSize ≤ size) →
  0 ≤ size →
  ∃ (c' : layerLRUCache archiveLayer) (e : Element),
    ArchiveLRU.putLayerBody w c chainID img = Done (w1, c')
    ∧ layers c' !! chainID = Some e
    ∧ head (order (evictList c')) = Some e
    ∧ Value (evictList c') e =
        Some (mkArchiveLayer
                (mkCacheLayer (Some l) size [ImageID img] (OperatingSystem img))
                match Stat w1 (createLayerArchivePath w1 (DiffID l)) with
                | StatFile archiveSize => archiveSize
                | _ => 0
                end).
Proof.
  intros Hwf Hget Hsize Hsmall Hpos. unfold ArchiveLRU.putLayerBody.
  assert (∃ c1 : layerLRUCache archiveLayer,
            match layers c !! chainID with
            | None => Some c
            | Some e =>
                match Value (evictList c) e with
                | None => None
                | Some oldLayer =>
                    Some (mkLayerCache
                            (subLevel (base c) (cl_size (al_cacheLayer oldLayer)))
                            (images c) (layers c) (Remove (evictList c) e))
                end
            end = Some c1) as [c1 ->].
  { destruct (layers c !! chainID) as [e|] eqn:He; [|eauto].
    destruct (Hwf e eq_refl) as [v ->]. eauto. }
  rewrite Hget, Hsize. unfold getLayerArchiveInfo.
  destruct (Stat w1 (createLayerArchivePath w1 (DiffID l))) as [archiveSize| |msg] eqn:Hstat;
    simpl.
  - specialize (Hsmall archiveSize eq_refl).
    apply Z.ltb_ge in Hsmall. rewrite Hsmall.
    eexists _, _. split; [reflexivity|]. simpl.
    split; [apply lookup_insert_eq|]. split; [reflexivity|].
    unfold Value. simpl. apply lookup_insert_eq.
  - apply Z.ltb_ge in Hpos. rewrite Hpos.
    eexists _, _. split; [reflexivity|]. simpl.
    split; [apply lookup_insert_eq|]. split; [reflexivity|].
    unfold Value. simpl. apply lookup_insert_eq.
  - apply Z.ltb_ge in Hpos. rewrite Hpos.
    eexists _, _. split; [reflexivity|]. simpl.
    split; [apply lookup_insert_eq|]. split; [reflexivity|].
    unfold Value. simpl. apply lookup_insert_eq.
Qed.
End ArchiveKeptFacts.

Lemma archive_putLayer_keeps_archive_witness :
  ∃ (c' : layerLRUCache archiveLayer) (e : Element),
    ArchiveLRU.putLayerBody
      (mkScript [] [] None [] [("sha256:a"%string, layerA)] [] (inl [])
                [("/tmp/a"%string, 60)] [])
      (ArchiveLRU.newArchiveLRUCache 1000) "sha256:a" imgA =
      Done (mkScript [] [] None [] [("sha256:a"%string, layerA)] [] (inl [])
                     [("/tmp/a"%string, 60)] [CallGetReadOnlyLayer "sha256:a" "linux"], c')
    ∧ layers c' !! "sha256:a"%string = Some e
    ∧ head (order (evictList c')) = Some e
    ∧ Value (evictList c') e = Some (mkArchiveLayer recordA 60).
Proof.
  exact (archive_putLayer_keeps_archive
           (mkScript [] [] None [] [("sha256:a"%string, layerA)] [] (inl [])
                     [("/tmp/a"%string, 60)] [])
           (mkScript [] [] None [] [("sha256:a"%string, layerA)] [] (inl [])
                     [("/tmp/a"%string, 60)] [CallGetReadOnlyLayer "sha256:a" "linux"])
           (ArchiveLRU.newArchiveLRUCache 1000) "sha256:a" imgA layerA 60
           ltac:(intros e He; discriminate He) eq_refl eq_refl
           ltac:(intros archiveSize Hstat; injection Hstat as <-; lia)
           ltac:(lia)).
Defined.

(** ** What eviction leaves alone *)

Lemma onlyEvicted_refl {V : Type} (c : layerLRUCache V) : onlyEvicted c c.
Proof. split; [reflexivity|]. split; reflexivity. Qed.

Lemma onlyEvicted_trans {V : Type} (c1 c2 c3 : layerLRUCache V) :
  onlyEvicted c1 c2 → onlyEvicted c2 c3 → onlyEvicted c1 c3.
Proof.
  intros (Hi & Hl & Hc) (Hi' & Hl' & Hc').
  split; [congruence|]. split; [etrans; eassumption|congruence].
Qed.

Lemma dropReleased_onlyEvicted {V : Type} (released : list Metadata)
    (c : layerLRUCache V) :
  onlyEvicted c (dropReleased c released).
Proof.
  revert c. induction released as [|l rest IH]; intros c; simpl.
  - apply onlyEvicted_refl.
  - destruct (layers c !! mChainID l) as [e|]; [|apply IH].
    eapply onlyEvicted_trans; [|apply IH].
    split; [reflexivity|]. split; [apply delete_subseteq|reflexivity].
Qed.

Section EvictFrame.
Context {W : Type} `{ImageService W}.

Ltac frame_end :=
  let Heq := fresh "Heq" in
  solve [ intros [Heq|Heq]; try discriminate Heq; inversion Heq; subst; clear Heq;
          first [ apply onlyEvicted_refl
                | split; [reflexivity|split; reflexivity] ] ].

Lemma layerLRU_evictTurn_onlyEvicted (fuel : nat) (current : string) (w w' : W)
    (c c' : layerLRUCache cacheLayer) (cb cb' : gmap string nat) :
  LayerLRU.evictTurn fuel current (w, c, cb) = Done (Continue (w', c', cb'))
  ∨ LayerLRU.evictTurn fuel current (w, c, cb) = Done (Return (w', c', cb')) →
  onlyEvicted c c'.
Proof.
  unfold LayerLRU.evictTurn.
  destruct (Back (evictList c)) as [e|]; [|frame_end].
  destruct (Value (evictList c) e) as [cl|]; [|frame_end].
  destruct (cl_layer cl) as [l|]; [|frame_end].
  destruct (LayerLRU.deleteImages w current (cl_images cl)) as [w1 d].
  destruct d.
  - destruct (LayerLRU.release fuel w1 (ChainID l) cl) as [r released].
    destruct r as [[[w2 cl']|[w2 cl']|]| |]; try frame_end.
    destruct released as [|m rest].
    + destruct (bump cb (ChainID l)) as [cb1 stop]. destruct stop; frame_end.
    + intros [Heq|Heq]; try discriminate Heq; inversion Heq; subst; clear Heq.
      eapply onlyEvicted_trans;
        [|exact (dropReleased_onlyEvicted (m :: rest)
                   (mkLayerCache (base c) (images c) (layers c)
                                 (Store (evictList c) e cl')))].
      split; [reflexivity|]. split; reflexivity.
  - destruct (bump cb (ChainID l)) as [cb1 stop]. destruct stop; frame_end.
  - frame_end.
Qed.

Lemma layerLRU_evictLoop_onlyEvicted (fuel : nat) (current : string) (w w' : W)
    (c c' : layerLRUCache cacheLayer) (cb : gmap string nat) :
  LayerLRU.evictLoop fuel current (w, c, cb) = Done (w', c') → onlyEvicted c c'.
Proof.
  revert w c cb. induction fuel as [|fuel IH]; intros w c cb; cbn [LayerLRU.evictLoop].
  - destruct (capacity (base c) <? level (base c)); [discriminate|].
    intros Heq. inversion Heq. apply onlyEvicted_refl.
  - destruct (capacity (base c) <? level (base c));
      [|intros Heq; inversion Heq; apply onlyEvicted_refl].
    destruct (LayerLRU.evictTurn fuel current (w, c, cb))
      as [[[[w1 c1] cb1]|[[w1 c1] cb1]|]| |] eqn:Hturn; try discriminate.
    + intros Hloop. eapply onlyEvicted_trans; [|exact (IH _ _ _ Hloop)].
      eapply layerLRU_evictTurn_onlyEvicted. left. exact Hturn.
    + intros Heq. inversion Heq; subst.
      eapply layerLRU_evictTurn_onlyEvicted. right. exact Hturn.
Qed.

Lemma layerLRU_evict_onlyEvicted (fuel : nat) (current : string) (w w' : W)
    (c c' : layerLRUCache cacheLayer) :
  LayerLRU.evict fuel w c current = Done (w', c') → onlyEvicted c c'.
Proof.
  unfold LayerLRU.evict. case_bool_decide.
  - intros Heq. inversion Heq. apply onlyEvicted_refl.
  - apply layerLRU_evictLoop_onlyEvicted.
Qed.

Lemma archiveLRU_evictTurn_onlyEvicted (w w' : W)
    (c c' : layerLRUCache archiveLayer) (cb cb' : gmap string nat) :
  ArchiveLRU.evictTurn (w, c, cb) = Continue (w', c', cb')
  ∨ ArchiveLRU.evictTurn (w, c, cb) = Return (w', c', cb') →
  onlyEvicted c c'.
Proof.
  unfold ArchiveLRU.evictTurn.
  destruct (Back (evictList c)) as [e|]; [|frame_end].
  destruct (Value (evictList c) e) as [al|]; [|frame_end].
  destruct (cl_layer (al_cacheLayer al)) as [l|]; [|frame_end].
  destruct (ArchiveLRU.deleteImages w (cl_images (al_cacheLayer al))) as [w1 d].
  destruct d.
  - destruct (ReleaseReadOnlyLayer w1 (Some l) (cl_os (al_cacheLayer al))) as [w2 r].
    destruct r as [[|m rest]|msg]; try frame_end.
    + destruct (bump cb (ChainID l)) as [cb1 stop]. destruct stop; frame_end.
    + intros [Heq|Heq]; try discriminate Heq; inversion Heq; subst; clear Heq.
      exact (dropReleased_onlyEvicted (m :: rest) c).
  - destruct (bump cb (ChainID l)) as [cb1 stop]. destruct stop; frame_end.
  - frame_end.
Qed.

Lemma archiveLRU_evictLoop_onlyEvicted (fuel : nat) (w w' : W)
    (c c' : layerLRUCache archiveLayer) (cb : gmap string nat) :
  ArchiveLRU.evictLoop fuel (w, c, cb) = Done (w', c') → onlyEvicted c c'.
Proof.
  revert w c cb. induction fuel as [|fuel IH]; intros w c cb; cbn [ArchiveLRU.evictLoop].
  - destruct (capacity (base c) <? level (base c)); [discriminate|].
    intros Heq. inversion Heq. apply onlyEvicted_refl.
  - destruct (capacity (base c) <? level (base c));
      [|intros Heq; inversion Heq; apply onlyEvicted_refl].
    destruct (ArchiveLRU.evictTurn (w, c, cb))
      as [[[w1 c1] cb1]|[[w1 c1] cb1]|] eqn:Hturn; try discriminate.
    + intros Hloop. eapply onlyEvicted_trans; [|exact (IH _ _ _ Hloop)].
      eapply archiveLRU_evictTurn_onlyEvicted. left. exact Hturn.
    + intros Heq. inversion Heq; subst.
      eapply archiveLRU_evictTurn_onlyEvicted. right. exact Hturn.
Qed.

Lemma archiveLRU_evict_onlyEvicted (fuel : nat) (w w' : W)
    (c c' : layerLRUCache archiveLayer) :
  ArchiveLRU.evict fuel w c = Done (w', c') → onlyEvicted c c'.
Proof.
  unfold ArchiveLRU.evict. case_bool_decide.
  - intros Heq. inversion Heq. apply onlyEvicted_refl.
  - apply archiveLRU_evictLoop_onlyEvicted.
Qed.
End EvictFrame.

Lemma addedOnly_evicted {V : Type} (ks : list string) (c c1 c2 : layerLRUCache V) :
  addedOnly ks c c1 → onlyEvicted c1 c2 → addedOnly ks c c2.
Proof.
  intros (Hi & Hc & Hl) (Hi' & Hl' & Hc').
  split; [congruence|]. split; [congruence|].
  intros k e Hk. apply Hl. exact (lookup_weaken _ _ _ _ Hk Hl').
Qed.

Lemma addedOnly_cons {V : Type} (k : string) (ks : list string)
    (c c1 c2 : layerLRUCache V) :
  addedOnly [k] c c1 → addedOnly ks c1 c2 → addedOnly (k :: ks) c c2.
Proof.
  intros (Hi & Hc & Hl) (Hi' & Hc' & Hl').
  split; [congruence|]. split; [congruence|].
  intros k' e Hk. destruct (Hl' k' e Hk) as [Hin|Hold].
  - left. apply elem_of_cons. right. exact Hin.
  - destruct (Hl k' e Hold) as [Hin|Hold'].
    + left. apply list_elem_of_singleton in Hin. subst k'. apply list_elem_of_here.
    + right. exact Hold'.
Qed.

Lemma addedOnly_insert {V : Type} (k : string) (e : Element) (c c' : layerLRUCache V) :
  images c' = images c →
  capacity (base c') = capacity (base c) →
  layers c' = <[k := e]> (layers c) ∨ layers c' = layers c →
  addedOnly [k] c c'.
Proof.
  intros Hi Hc Hl. split; [exact Hi|]. split; [exact Hc|].
  intros k' e' Hk. destruct Hl as [Hl|Hl]; rewrite Hl in Hk; [|right; exact Hk].
  apply lookup_insert_Some in Hk as [[<- _]|[_ Hk]].
  - left. apply list_elem_of_here.
  - right. exact Hk.
Qed.

Section FrameFacts.
Context {W : Type} `{ImageService W}.

Lemma layerLRU_updateLayers_onlyEvicted (fuel : nat) (img : Image) (ks : list string) :
  ∀ (w w' : W) (c c' : layerLRUCache cacheLayer),
    LayerLRU.updateLayers fuel w c ks img = Done (w', c') → onlyEvicted c c'.
Proof.
  induction ks as [|k ks IH]; intros w w' c c'; cbn [LayerLRU.updateLayers].
  - intros Heq. inversion Heq. apply onlyEvicted_refl.
  - unfold LayerLRU.updateLayer.
    destruct (LayerLRU.updateLayerBody c k img) as [c1| |] eqn:Hbody; try discriminate.
    destruct (LayerLRU.evict fuel w c1 "") as [[w2 c2]| |] eqn:Hev; try discriminate.
    intros Hrest.
    apply (onlyEvicted_trans c c1 c'); [|apply (onlyEvicted_trans c1 c2 c')].
    + unfold LayerLRU.updateLayerBody in Hbody.
      destruct (layers c !! k) as [e|];
        [|inversion Hbody; apply onlyEvicted_refl].
      destruct (Value (evictList c) e) as [cl|]; [|discriminate].
      inversion Hbody. split; [reflexivity|]. split; reflexivity.
    + exact (layerLRU_evict_onlyEvicted _ _ _ _ _ _ Hev).
    + exact (IH _ _ _ _ Hrest).
Qed.

Lemma archiveLRU_updateLayers_onlyEvicted (fuel : nat) (img : Image) (ks : list string) :
  ∀ (w w' : W) (c c' : layerLRUCache archiveLayer),
    ArchiveLRU.updateLayers fuel w c ks img = Done (w', c') → onlyEvicted c c'.
Proof.
  induction ks as [|k ks IH]; intros w w' c c'; cbn [ArchiveLRU.updateLayers].
  - intros Heq. inversion Heq. apply onlyEvicted_refl.
  - unfold ArchiveLRU.updateLayer.
    destruct (ArchiveLRU.updateLayerBody c k img) as [c1| |] eqn:Hbody; try discriminate.
    destruct (ArchiveLRU.evict fuel w c1) as [[w2 c2]| |] eqn:Hev; try discriminate.
    intros Hrest.
    apply (onlyEvicted_trans c c1 c'); [|apply (onlyEvicted_trans c1 c2 c')].
    + unfold ArchiveLRU.updateLayerBody in Hbody.
      destruct (layers c !! k) as [e|];
        [|inversion Hbody; apply onlyEvicted_refl].
      destruct (Value (evictList c) e) as [al|]; [|discriminate].
      inversion Hbody. split; [reflexivity|]. split; reflexivity.
    + exact (archiveLRU_evict_onlyEvicted _ _ _ _ _ Hev).
    + exact (IH _ _ _ _ Hrest).
Qed.

(** X13: [UpdateImage] of layer-LRU and of archive-LRU, eviction included,
    changes neither the image table nor the capacity, and adds no key to
    the layer index: a key of the index afterwards was there before, bound
    to the same element.  In particular an image that eviction deleted from
    the daemon is still listed in the image table. *)
Theorem UpdateImage_only_evicts (fuel : nat) (refOrID : string) (w w' wa wa' : W)
    (c c' : layerLRUCache cacheLayer) (ca ca' : layerLRUCache archiveLayer) :
  (LayerLRU.UpdateImage fuel w c refOrID = Done (w', c') →
   images c' = images c
   ∧ layers c' ⊆ layers c
   ∧ capacity (base c') = capacity (base c))
  ∧ (ArchiveLRU.UpdateImage fuel wa ca refOrID = Done (wa', ca') →
     images ca' = images ca
     ∧ layers ca' ⊆ layers ca
     ∧ capacity (base ca') = capacity (base ca)).
Proof.
  split.
  - unfold LayerLRU.UpdateImage.
    destruct (GetImage w refOrID) as [w1 [img|msg]].
    + apply layerLRU_updateLayers_onlyEvicted.
    + intros Heq. inversion Heq. apply onlyEvicted_refl.
  - unfold ArchiveLRU.UpdateImage.
    destruct (GetImage wa refOrID) as [w1 [img|msg]].
    + apply archiveLRU_updateLayers_onlyEvicted.
    + intros Heq. inversion Heq. apply onlyEvicted_refl.
Qed.

Lemma layerLRU_putLayers_addedOnly (fuel : nat) (img : Image) (ks : list string) :
  ∀ (w w' : W) (c c' : layerLRUCache cacheLayer),
    LayerLRU.putLayers fuel w c ks img = Done (w', c') → addedOnly ks c c'.
Proof.
  induction ks as [|k ks IH]; intros w w' c c'; cbn [LayerLRU.putLayers].
  - intros Heq. inversion Heq. split; [reflexivity|]. split; [reflexivity|].
    intros k e Hk. right. exact Hk.
  - unfold LayerLRU.putLayer.
    destruct (LayerLRU.putLayerBody w c k img) as [[w1 c1]| |] eqn:Hbody;
      try discriminate.
    destruct (LayerLRU.evict fuel w1 c1 (ID img)) as [[w2 c2]| |] eqn:Hev;
      try discriminate.
    intros Hrest.
    apply (addedOnly_cons k ks c c2 c'); [|exact (IH _ _ _ _ Hrest)].
    apply (addedOnly_evicted [k] c c1 c2);
      [|exact (layerLRU_evict_onlyEvicted _ _ _ _ _ _ Hev)].
    unfold LayerLRU.putLayerBody in Hbody.
    assert (∃ c0 : layerLRUCache cacheLayer,
              images c0 = images c ∧ capacity (base c0) = capacity (base c)
              ∧ layers c0 = layers c
              ∧ match GetReadOnlyLayer w k (OperatingSystem img) with
                | (w1', inr _) => Done (w1', c0)
                | (w1', inl l) =>
                    match DiffSize l with
                    | inr _ => Done (w1', c0)
                    | inl size =>
                        let '(lst, e) :=
                          PushFront (evictList c0)
                            (mkCacheLayer (Some l) size [ImageID img] (OperatingSystem img)) in
                        Done (w1', mkLayerCache (addLevel (base c0) size) (images c0)
                                                (<[k := e]> (layers c0)) lst)
                    end
                end = Done (w1, c1)) as (c0 & Hi0 & Hc0 & Hl0 & Hrun).
    { destruct (layers c !! k) as [e|].
      - destruct (Value (evictList c) e) as [old|]; [|discriminate].
        eexists. split; [|split; [|split; [|exact Hbody]]]; reflexivity.
      - exists c. split; [|split; [|split; [|exact Hbody]]]; reflexivity. }
    destruct (GetReadOnlyLayer w k (OperatingSystem img)) as [w1' [l|msg]].
    + destruct (DiffSize l) as [size|msg].
      * destruct (PushFront (evictList c0) _) as [lst e] in Hrun.
        inversion Hrun; subst w1 c1. apply (addedOnly_insert k e); simpl.
        -- exact Hi0.
        -- exact Hc0.
        -- left. rewrite Hl0. reflexivity.
      * inversion Hrun; subst w1 c1. apply (addedOnly_insert k 0%nat); auto.
    + inversion Hrun; subst w1 c1. apply (addedOnly_insert k 0%nat); auto.
Qed.

Lemma archiveLRU_putLayers_addedOnly (fuel : nat) (img : Image) (ks : list string) :
  ∀ (w w' : W) (c c' : layerLRUCache archiveLayer),
    ArchiveLRU.putLayers fuel w c ks img = Done (w', c') → addedOnly ks c c'.
Proof.
  induction ks as [|k ks IH]; intros w w' c c'; cbn [ArchiveLRU.putLayers].
  - intros Heq. inversion Heq. split; [reflexivity|]. split; [reflexivity|].
    intros k e Hk. right. exact Hk.
  - unfold ArchiveLRU.putLayer.
    destruct (ArchiveLRU.putLayerBody w c k img) as [[w1 c1]| |] eqn:Hbody;
      try discriminate.
    destruct (ArchiveLRU.evict fuel w1 c1) as [[w2 c2]| |] eqn:Hev;
      try discriminate.
    intros Hrest.
    apply (addedOnly_cons k ks c c2 c'); [|exact (IH _ _ _ _ Hrest)].
    apply (addedOnly_evicted [k] c c1 c2);
      [|exact (archiveLRU_evict_onlyEvicted _ _ _ _ _ Hev)].
    unfold ArchiveLRU.putLayerBody in Hbody.
    destruct (layers c !! k) as [e|];
      [destruct (Value (evictList c) e) as [old|]; [|discriminate]|];
      destruct (GetReadOnlyLayer w k (OperatingSystem img)) as [w1' [l|msg]];
      try destruct (DiffSize l) as [size|msg];
      cbn in Hbody; inversion Hbody; subst w1 c1;
      first [ eapply addedOnly_insert; [reflexivity|reflexivity|left; reflexivity]
            | apply (addedOnly_insert k 0%nat);
              [reflexivity|reflexivity|right; reflexivity] ].
Qed.

(** X14: [PutImage] of layer-LRU and of archive-LRU, eviction included,
    leaves the capacity alone, adds at most the image itself to the image
    table, and adds to the layer index only chain IDs of that image: any
    other key of the index afterwards was there before, bound to the same
    element. *)
Theorem PutImage_adds_own_chain (fuel : nat) (img : Image) (w w' wa wa' : W)
    (c c' : layerLRUCache cacheLayer) (ca ca' : layerLRUCache archiveLayer) :
  (LayerLRU.PutImage fuel w c (Some img) = Done (w', c') →
   (images c' = images c ∨ images c' = <[ID img := img]> (images c))
   ∧ capacity (base c') = capacity (base c)
   ∧ ∀ k e, layers c' !! k = Some e → k ∈ chainIDsOf img ∨ layers c !! k = Some e)
  ∧ (ArchiveLRU.PutImage fuel wa ca (Some img) = Done (wa', ca') →
     (images ca' = images ca ∨ images ca' = <[ID img := img]> (images ca))
     ∧ capacity (base ca') = capacity (base ca)
     ∧ ∀ k e, layers ca' !! k = Some e → k ∈ chainIDsOf img ∨ layers ca !! k = Some e).
Proof.
  split.
  - unfold LayerLRU.PutImage.
    destruct (checkImageSize (base c) w img) as [w1 [msg|]].
    + intros Heq. inversion Heq. split; [left; reflexivity|].
      split; [reflexivity|]. intros k e Hk. right. exact Hk.
    + intros Hput.
      destruct (layerLRU_putLayers_addedOnly _ _ _ _ _ _ _ Hput) as (Hi & Hc & Hl).
      split; [right; exact Hi|]. split; [exact Hc|exact Hl].
  - unfold ArchiveLRU.PutImage.
    destruct (checkImageSize (base ca) wa img) as [w1 [msg|]].
    + intros Heq. inversion Heq. split; [left; reflexivity|].
      split; [reflexivity|]. intros k e Hk. right. exact Hk.
    + intros Hput.
      destruct (archiveLRU_putLayers_addedOnly _ _ _ _ _ _ _ Hput) as (Hi & Hc & Hl).
      split; [right; exact Hi|]. split; [exact Hc|exact Hl].
Qed.
End FrameFacts.

Lemma UpdateImage_only_evicts_witness :
  ∃ (w' wa' : Script) (c' : layerLRUCache cacheLayer) (ca' : layerLRUCache archiveLayer),
    LayerLRU.UpdateImage 5 storeReleasing layerCacheBA "B" = Done (w', c')
    ∧ ArchiveLRU.UpdateImage 5 storeReleasing archiveCacheBA "B" = Done (wa', ca')
    ∧ CallImageDelete "A" false false ∈ trace w'
    ∧ layers c' !! "sha256:a"%string = None
    ∧ (images c' = images layerCacheBA
       ∧ layers c' ⊆ layers layerCacheBA
       ∧ capacity (base c') = capacity (base layerCacheBA))
    ∧ (images ca' = images archiveCacheBA
       ∧ layers ca' ⊆ layers archiveCacheBA
       ∧ capacity (base ca') = capacity (base archiveCacheBA)).
Proof.
  eexists _, _, _, _.
  split; [vm_compute; reflexivity|].
  split; [vm_compute; reflexivity|].
  split; [cbn [trace]; rewrite !elem_of_cons; tauto|].
  split; [vm_compute; reflexivity|].
  split.
  - eapply (proj1 (UpdateImage_only_evicts 5 "B" storeReleasing _ storeReleasing
                    storeReleasing layerCacheBA _ archiveCacheBA archiveCacheBA)).
    vm_compute; reflexivity.
  - eapply (proj2 (UpdateImage_only_evicts 5 "B" storeReleasing storeReleasing
                    storeReleasing _ layerCacheBA layerCacheBA archiveCacheBA _)).
    vm_compute; reflexivity.
Defined.

Lemma PutImage_adds_own_chain_witness :
  ∃ (w' wa' : Script) (c' : layerLRUCache cacheLayer) (ca' : layerLRUCache archiveLayer),
    LayerLRU.PutImage 5 storeReleasing layerCacheA (Some imgB) = Done (w', c')
    ∧ ArchiveLRU.PutImage 5 storeReleasing archiveCacheA (Some imgB) = Done (wa', ca')
    ∧ layers c' !! "sha256:a"%string = None
    ∧ ((images c' = images layerCacheA
        ∨ images c' = <[ID imgB := imgB]> (images layerCacheA))
       ∧ capacity (base c') = capacity (base layerCacheA)
       ∧ ∀ k e, layers c' !! k = Some e →
           k ∈ chainIDsOf imgB ∨ layers layerCacheA !! k = Some e)
    ∧ ((images ca' = images archiveCacheA
        ∨ images ca' = <[ID imgB := imgB]> (images archiveCacheA))
       ∧ capacity (base ca') = capacity (base archiveCacheA)
       ∧ ∀ k e, layers ca' !! k = Some e →
           k ∈ chainIDsOf imgB ∨ layers archiveCacheA !! k = Some e).
Proof.
  eexists _, _, _, _.
  split; [vm_compute; reflexivity|].
  split; [vm_compute; reflexivity|].
  split; [vm_compute; reflexivity|].
  split.
  - eapply (proj1 (PutImage_adds_own_chain 5 imgB storeReleasing _ storeReleasing
                    storeReleasing layerCacheA _ archiveCacheA archiveCacheA)).
    vm_compute; reflexivity.
  - eapply (proj2 (PutImage_adds_own_chain 5 imgB storeReleasing storeReleasing
                    storeReleasing _ layerCacheA layerCacheA archiveCacheA _)).
    vm_compute; reflexivity.
Defined.

(** ** The legacy driver *)

Lemma elem_of_MoveToFront {V : Type} (l : List V) (e x : Element) :
  x ∈ order (MoveToFront l e) ↔ x ∈ order l.
Proof.
  unfold MoveToFront, linked. case_bool_decide as He; [|reflexivity]. simpl.
  rewrite elem_of_cons, elem_of_unlink.
  split.
  - intros [->|[_ Hx]]; assumption.
  - intros Hx. destruct (decide (x = e)) as [->|Hne]; [left; reflexivity|right; tauto].
Qed.

Section LegacyBlocked.
Context {W : Type} `{LegacyLRU.Stores W}.

Lemma legacy_evict_inUse (w : W) (d : LegacyLRU.lruLayerCacheDriver)
    (imgID rootID : string) (e : Element) :
  Back (LegacyLRU.evictList d) = Some e →
  inUse w imgID (LegacyLRU.evictList d) e →
  LegacyLRU.evict w d imgID rootID =
    Done (w, LegacyLRU.withList d (MoveToFront (LegacyLRU.evictList d) e), None).
Proof.
  intros Hback (i & size & id & Hv & Hsize & Hid & Hwhy).
  unfold LegacyLRU.evict. rewrite Hback, Hv, Hsize.
  assert (existsb (λ id0, bool_decide (id0 = imgID)
                          || LegacyLRU.checkImageDeleteConflict w id0)
                  (elements (LegacyLRU.images i)) = true) as Hex.
  { apply existsb_exists. exists id. split.
    - apply list_elem_of_In, elem_of_elements, Hid.
    - destruct Hwhy as [Heq|Heq]; [|rewrite Heq; apply orb_true_r].
      rewrite bool_decide_eq_true_2 by exact Heq. reflexivity. }
  rewrite Hex. reflexivity.
Qed.

Lemma legacy_evictLoop_inUse (w : W) (size : Z) (imgID rootID : string) (fuel : nat) :
  ∀ d : LegacyLRU.lruLayerCacheDriver,
    LegacyLRU.capacity (LegacyLRU.base d) < add64 (LegacyLRU.level (LegacyLRU.base d)) size →
    (∀ e, e ∈ order (LegacyLRU.evictList d) → inUse w imgID (LegacyLRU.evictList d) e) →
    LegacyLRU.evictLoop fuel w d size imgID rootID = OutOfFuel.
Proof.
  induction fuel as [|fuel IH]; intros d Hover Hall; cbn [LegacyLRU.evictLoop];
    pose proof Hover as Hlt; apply Z.ltb_lt in Hlt; rewrite Hlt; [reflexivity|].
  destruct (Back (LegacyLRU.evictList d)) as [e|] eqn:Hback.
  - rewrite (legacy_evict_inUse w d imgID rootID e Hback)
      by (apply Hall, last_Some_elem_of, Hback).
    apply IH; [exact Hover|].
    intros x Hx. simpl in Hx. apply elem_of_MoveToFront in Hx.
    destruct (Hall x Hx) as (i & sz & id & Hv & Hrest).
    exists i, sz, id. split; [|exact Hrest].
    simpl. unfold MoveToFront. destruct (linked _ _); exact Hv.
  - unfold LegacyLRU.evict at 1. rewrite Hback. apply IH; assumption.
Qed.

(** X15: the legacy driver's [putLayer] never returns (it runs out of any
    fuel) when the layer is not cached, does not fit
    ([level + size > capacity]) and no cached layer can be evicted because
    each one belongs to the image being put or to an image that cannot be
    deleted: [evict] moves the back of the list to the front and answers
    nil, and the loop asks again.  An empty list is such a case. *)
Theorem legacy_putLayer_blocked (fuel : nat) (w : W) (d : LegacyLRU.lruLayerCacheDriver)
    (l : LegacyLRU.Layer) (size : Z) (imgID childID rootID : string) :
  LegacyLRU.DiffSize l = inl size →
  LegacyLRU.cacheL (LegacyLRU.base d) = LegacyLRU.Free →
  LegacyLRU.items d !! LegacyLRU.ChainID l = None →
  LegacyLRU.capacity (LegacyLRU.base d) < add64 (LegacyLRU.level (LegacyLRU.base d)) size →
  (∀ e, e ∈ order (LegacyLRU.evictList d) → inUse w imgID (LegacyLRU.evictList d) e) →
  LegacyLRU.putLayer fuel w d l imgID childID rootID = OutOfFuel.
Proof.
  intros Hsize Hfree Hmiss Hover Hall.
  unfold LegacyLRU.putLayer. rewrite Hsize, Hfree. cbn [LegacyLRU.Lock].
  cbn [LegacyLRU.items LegacyLRU.withMutex]. rewrite Hmiss.
  rewrite legacy_evictLoop_inUse; [reflexivity|exact Hover|exact Hall].
Qed.
End LegacyBlocked.

Lemma legacy_putLayer_blocked_witness :
  LegacyLRU.putLayer 9 (depotPQ ["P"%string] (inl true)) legacyDriverP legacyLayerQ
                     "Q" "" "sha256:q" = OutOfFuel.
Proof.
  apply (legacy_putLayer_blocked 9 (depotPQ ["P"%string] (inl true)) legacyDriverP
           legacyLayerQ 60 "Q" "" "sha256:q"); try reflexivity.
  intros e He. apply list_elem_of_singleton in He. subst e.
  exists (LegacyLRU.mkItem legacyLayerP {[ "P"%string ]} ∅), 60, "P"%string.
  split; [reflexivity|]. split; [reflexivity|].
  split; [vm_compute; reflexivity|right; reflexivity].
Defined.

Section LegacyVisits.
Context {W : Type} `{LegacyLRU.Stores W}.

Lemma legacy_applyFrom_visits (f : LegacyLRU.layerFunc) (imgID : string)
    (chainIDs : list string) (n : nat) :
  (n ≤ length chainIDs)%nat →
  ∀ (w : W) (d : LegacyLRU.lruLayerCacheDriver),
    LegacyLRU.applyFrom f w d imgID chainIDs n =
      visitAll f w d imgID
        (visitsDown (reverse (take n chainIDs))
           (if (n <? length chainIDs)%nat
            then default EmptyString (chainIDs !! n) else EmptyString)
           (default EmptyString (chainIDs !! 0%nat))).
Proof.
  induction n as [|i IH]; intros Hn w d.
  - reflexivity.
  - destruct (lookup_lt_is_Some_2 chainIDs i ltac:(lia)) as [chainID Hi].
    destruct (lookup_lt_is_Some_2 chainIDs 0 ltac:(lia)) as [rootID H0].
    cbn [LegacyLRU.applyFrom]. rewrite Hi, H0.
    change (default EmptyString (Some rootID)) with rootID.
    rewrite (take_S_r _ _ _ Hi), reverse_snoc. cbn [visitsDown visitAll].
    destruct (LegacyLRU.Peek w chainID) as [w1 [l|err]]; [|reflexivity].
    assert ((if (i <? length chainIDs - 1)%nat then chainIDs !! S i
             else Some EmptyString) =
            Some (if (S i <? length chainIDs)%nat
                  then default EmptyString (chainIDs !! S i) else EmptyString)) as ->.
    { destruct (Nat.ltb_spec (S i) (length chainIDs)) as [Hlt|Hge].
      - destruct (lookup_lt_is_Some_2 chainIDs (S i) Hlt) as [c Hc].
        rewrite Hc. destruct (Nat.ltb_spec i (length chainIDs - 1)); [reflexivity|lia].
      - destruct (Nat.ltb_spec i (length chainIDs - 1)); [lia|reflexivity]. }
    cbv beta iota.
    destruct (f w1 d l imgID _ rootID) as [[[w2 d2] [err|]]| |]; try reflexivity.
    rewrite IH by lia. rewrite H0, Hi.
    destruct (Nat.ltb_spec i (length chainIDs)); [reflexivity|lia].
Qed.

(** X16: [applyFuncToLayers] of the legacy driver peeks the layers of the
    image from the top layer down to the base layer and hands each one to
    the layer function together with the chain ID of the layer above it
    (empty for the top layer) and, as [rootID], the chain ID of the base
    layer; it stops at the first error.  Without a layer store it answers
    [LayerStoreNotSet] and touches nothing. *)
Theorem legacy_applyFuncToLayers_visits (f : LegacyLRU.layerFunc) (w : W)
    (d : LegacyLRU.lruLayerCacheDriver) (img : LegacyLRU.Image) (diffIDs : list string) :
  LegacyLRU.RootFS img = Some diffIDs →
  LegacyLRU.applyFuncToLayers img f w d =
    if LegacyLRU.hasLayerStore w
    then visitAll f w d (LegacyLRU.ID img) (legacyVisits diffIDs)
    else Done (w, d, Some LegacyLRU.LayerStoreNotSet).
Proof.
  intros Hroot. unfold LegacyLRU.applyFuncToLayers, legacyVisits.
  destruct (LegacyLRU.hasLayerStore w); [|reflexivity]. cbn [negb]. rewrite Hroot.
  rewrite legacy_applyFrom_visits by lia.
  rewrite Nat.ltb_irrefl, firstn_all. reflexivity.
Qed.
End LegacyVisits.
(** *** Index and list of the legacy driver *)

Lemma elem_of_insertBefore (mark e x : Element) (es : list Element) :
  mark ∈ es → x ∈ LegacyLRU.insertBefore mark e es ↔ x = e ∨ x ∈ es.
Proof.
  induction es as [|y es IH]; intros Hmark; [apply elem_of_nil in Hmark; destruct Hmark|].
  cbn [LegacyLRU.insertBefore]. case_bool_decide as Hy.
  - rewrite elem_of_cons. reflexivity.
  - apply elem_of_cons in Hmark as [->|Hmark]; [congruence|].
    rewrite !elem_of_cons, (IH Hmark). tauto.
Qed.

Lemma elem_of_MoveBefore {V : Type} (l : List V) (e mark x : Element) :
  x ∈ order (LegacyLRU.MoveBefore l e mark) ↔ x ∈ order l.
Proof.
  unfold LegacyLRU.MoveBefore, linked.
  case_bool_decide as He; [|reflexivity].
  case_bool_decide as Hmark; [|reflexivity].
  case_bool_decide as Hne; [reflexivity|]. simpl.
  rewrite elem_of_insertBefore by (apply elem_of_unlink; split; [congruence|exact Hmark]).
  rewrite elem_of_unlink.
  destruct (decide (x = e)) as [->|Hx]; tauto.
Qed.

Lemma legacyIndexed_reordered (its : gmap string Element)
    (l l' : List LegacyLRU.imageCacheItem) :
  (∀ x, x ∈ order l' ↔ x ∈ order l) → cells l' = cells l → fresh l' = fresh l →
  legacyIndexed its l → legacyIndexed its l'.
Proof.
  intros Hsame Hcells Hfresh (Hf & Hmap & Hlist).
  split; [|split].
  - intros x Hx. rewrite Hfresh. apply Hf, Hsame, Hx.
  - intros k x Hk. destruct (Hmap k x Hk) as [Hx Hi]. split; [apply Hsame, Hx|].
    unfold Value in *. rewrite Hcells. exact Hi.
  - intros x Hx. apply Hlist, Hsame, Hx.
Qed.

Lemma legacyIndexed_MoveToFront (its : gmap string Element)
    (l : List LegacyLRU.imageCacheItem) (e : Element) :
  legacyIndexed its l → legacyIndexed its (MoveToFront l e).
Proof.
  apply legacyIndexed_reordered.
  - intros x. apply elem_of_MoveToFront.
  - unfold MoveToFront. destruct (linked l e); reflexivity.
  - unfold MoveToFront. destruct (linked l e); reflexivity.
Qed.

Lemma legacyIndexed_MoveBefore (its : gmap string Element)
    (l : List LegacyLRU.imageCacheItem) (e mark : Element) :
  legacyIndexed its l → legacyIndexed its (LegacyLRU.MoveBefore l e mark).
Proof.
  apply legacyIndexed_reordered.
  - intros x. apply elem_of_MoveBefore.
  - unfold LegacyLRU.MoveBefore. destruct (_ && _); reflexivity.
  - unfold LegacyLRU.MoveBefore. destruct (_ && _); reflexivity.
Qed.

Lemma legacyIndexed_Store (its : gmap string Element)
    (l : List LegacyLRU.imageCacheItem) (e : Element) (i i' : LegacyLRU.imageCacheItem) :
  legacyIndexed its l → Value l e = Some i →
  LegacyLRU.layer i' = LegacyLRU.layer i →
  legacyIndexed its (Store l e i').
Proof.
  intros (Hf & Hmap & Hlist) Hv Hlayer.
  split; [exact Hf|]. split; [|exact Hlist].
  intros k x Hk. destruct (Hmap k x Hk) as (Hx & ix & Hvx & Hchain).
  split; [exact Hx|]. unfold Value, Store in *. simpl.
  destruct (decide (x = e)) as [->|Hne].
  - exists i'. rewrite lookup_insert_eq. split; [reflexivity|].
    rewrite Hlayer. congruence.
  - exists ix. rewrite lookup_insert_ne by congruence. split; assumption.
Qed.

Lemma legacyIndexed_Remove (its : gmap string Element)
    (l : List LegacyLRU.imageCacheItem) (k : string) (e : Element) :
  legacyIndexed its l → its !! k = Some e →
  legacyIndexed (delete k its) (Remove l e).
Proof.
  intros (Hf & Hmap & Hlist) Hk.
  destruct (Hmap k e Hk) as (He & i & Hv & Hchain).
  split; [|split]; simpl.
  - intros x Hx. apply elem_of_unlink in Hx as [_ Hx]. apply Hf, Hx.
  - intros k' x Hk'. apply lookup_delete_Some in Hk' as [Hne Hk'].
    destruct (Hmap k' x Hk') as (Hx & ix & Hvx & Hcx). split; [|eauto].
    apply elem_of_unlink. split; [|exact Hx]. intros ->. congruence.
  - intros x Hx. apply elem_of_unlink in Hx as [Hne Hx].
    destruct (Hlist x Hx) as [k' Hk']. exists k'. apply lookup_delete_Some.
    split; [|exact Hk']. intros <-. congruence.
Qed.

Lemma legacyIndexed_PushFront (its : gmap string Element)
    (l : List LegacyLRU.imageCacheItem) (i : LegacyLRU.imageCacheItem) :
  legacyIndexed its l →
  its !! LegacyLRU.ChainID (LegacyLRU.layer i) = None →
  legacyIndexed (<[LegacyLRU.ChainID (LegacyLRU.layer i) := (PushFront l i).2]> its)
                (PushFront l i).1.
Proof.
  intros (Hf & Hmap & Hlist) Hnew.
  split; [|split]; simpl.
  - intros x Hx. apply elem_of_cons in Hx as [->|Hx]; [lia|].
    specialize (Hf x Hx). lia.
  - intros k x Hk. apply lookup_insert_Some in Hk as [[<- <-]|[Hne Hk]].
    + split; [apply list_elem_of_here|]. exists i. unfold Value. simpl.
      rewrite lookup_insert_eq. split; reflexivity.
    + destruct (Hmap k x Hk) as (Hx & ix & Hvx & Hcx).
      split; [apply elem_of_cons; right; exact Hx|].
      exists ix. unfold Value in *. simpl.
      rewrite lookup_insert_ne by (specialize (Hf x Hx); lia). split; assumption.
  - intros x Hx. apply elem_of_cons in Hx as [->|Hx].
    + eexists. apply lookup_insert_eq.
    + destruct (Hlist x Hx) as [k Hk]. exists k.
      rewrite lookup_insert_ne by congruence. exact Hk.
Qed.
Lemma legacyWellFormed_withMutex (m m' : LegacyLRU.RWMutex)
    (d : LegacyLRU.lruLayerCacheDriver) :
  legacyWellFormed m d → legacyWellFormed m' (LegacyLRU.withMutex d m').
Proof. intros [_ Hidx]. split; [reflexivity|exact Hidx]. Qed.

Lemma legacy_removeChild_safe (m : LegacyLRU.RWMutex) (d : LegacyLRU.lruLayerCacheDriver)
    (p : LegacyLRU.Layer) (childID : string) :
  legacyWellFormed m d →
  ∃ d', LegacyLRU.removeChild d p childID = Done d'
        ∧ legacyWellFormed m d'
        ∧ LegacyLRU.items d' = LegacyLRU.items d.
Proof.
  intros [Hm Hidx]. unfold LegacyLRU.removeChild.
  destruct (LegacyLRU.items d !! LegacyLRU.ChainID p) as [e|] eqn:He.
  - pose proof Hidx as (_ & Hmap & _).
    destruct (Hmap _ _ He) as (_ & i & Hv & _). rewrite Hv.
    eexists. split; [reflexivity|]. split; [|reflexivity].
    split; [exact Hm|]. simpl.
    apply (legacyIndexed_Store _ _ _ i); [exact Hidx|exact Hv|reflexivity].
  - exists d. split; [reflexivity|]. split; [split; assumption|reflexivity].
Qed.

Lemma newLRULayerCacheDriver_wellFormed (cap : Z) :
  legacyWellFormed LegacyLRU.Free (LegacyLRU.newLRULayerCacheDriver cap).
Proof.
  split; [reflexivity|]. split; [|split]; simpl.
  - intros e He. apply elem_of_nil in He. destruct He.
  - intros k e Hk. rewrite lookup_empty in Hk. discriminate Hk.
  - intros e He. apply elem_of_nil in He. destruct He.
Qed.

Section LegacySafety.
Context {W : Type} `{LegacyLRU.Stores W}.
Variable P : W → Prop.
Hypothesis Hkeep : storesKeep P.

Lemma legacy_removeLayer_safe (w : W) (d : LegacyLRU.lruLayerCacheDriver)
    (l : LegacyLRU.Layer) (imgID childID rootID : string) :
  P w → legacyWellFormed LegacyLRU.Free d →
  ∃ d' err, LegacyLRU.removeLayer w d l imgID childID rootID = Done (w, d', err)
            ∧ legacyWellFormed LegacyLRU.Free d'
            ∧ LegacyLRU.items d' ⊆ LegacyLRU.items d.
Proof.
  intros Hw [Hm Hidx]. unfold LegacyLRU.removeLayer. rewrite Hm.
  cbn [LegacyLRU.RLock].
  destruct (LegacyLRU.items d !! LegacyLRU.ChainID l) as [e|] eqn:He.
  - cbn [LegacyLRU.RUnlock LegacyLRU.Lock].
    pose proof Hidx as (_ & Hmap & _).
    destruct (Hmap _ _ He) as (Hin & i & Hv & Hc).
    cbn [LegacyLRU.evictList LegacyLRU.withMutex]. rewrite Hv.
    destruct (LegacyLRU.DiffSize l) as [size|msg].
    + set (i' := LegacyLRU.mkItem _ _ _).
      set (d4 := LegacyLRU.withList (LegacyLRU.withMutex d LegacyLRU.Writer)
                   (Store (LegacyLRU.evictList d) e i')).
      assert (legacyWellFormed LegacyLRU.Writer d4) as Hwf4.
      { split; [reflexivity|]. simpl.
        apply (legacyIndexed_Store _ _ _ i); [exact Hidx|exact Hv|reflexivity]. }
      destruct (_ && _).
      * set (d5 := LegacyLRU.mkDriver _ _ _).
        assert (legacyWellFormed LegacyLRU.Writer d5) as Hwf5.
        { split; [reflexivity|]. simpl.
          apply legacyIndexed_Remove; [apply Hwf4|exact He]. }
        assert (LegacyLRU.items d5 ⊆ LegacyLRU.items d) as Hsub5
          by apply delete_subseteq.
        destruct (LegacyLRU.Parent l) as [p|].
        -- destruct (legacy_removeChild_safe _ d5 p (LegacyLRU.ChainID l) Hwf5)
             as (d6 & -> & [Hm6 Hidx6] & Hit6).
           cbn [LegacyLRU.unlocking]. rewrite Hm6. cbn [LegacyLRU.Unlock].
           eexists _, _. split; [reflexivity|].
           split; [split; [reflexivity|exact Hidx6]|].
           simpl. rewrite Hit6. exact Hsub5.
        -- cbn [LegacyLRU.unlocking]. destruct Hwf5 as [Hm5 Hidx5].
           rewrite Hm5. cbn [LegacyLRU.Unlock].
           eexists _, _. split; [reflexivity|].
           split; [split; [reflexivity|exact Hidx5]|exact Hsub5].
      * destruct Hwf4 as [Hm4 Hidx4].
        destruct (LegacyLRU.items d4 !! rootID) as [re|];
          cbn [LegacyLRU.unlocking LegacyLRU.withList LegacyLRU.base];
          rewrite Hm4; cbn [LegacyLRU.Unlock];
          (eexists _, _; split; [reflexivity|]);
          (split; [split; [reflexivity|]|reflexivity]); simpl.
        -- apply legacyIndexed_MoveBefore, Hidx4.
        -- exact Hidx4.
    + cbn [LegacyLRU.unlocking LegacyLRU.withMutex LegacyLRU.base LegacyLRU.cacheL
           LegacyLRU.Unlock].
      eexists _, _. split; [reflexivity|].
      split; [split; [reflexivity|exact Hidx]|reflexivity].
  - cbn [LegacyLRU.RUnlock].
    eexists _, _. split; [reflexivity|].
    split; [split; [reflexivity|exact Hidx]|reflexivity].
Qed.

Lemma legacy_getLayer_safe (w : W) (d : LegacyLRU.lruLayerCacheDriver)
    (l : LegacyLRU.Layer) (imgID childID rootID : string) :
  P w → legacyWellFormed LegacyLRU.Free d →
  ∃ d', LegacyLRU.getLayer w d l imgID childID rootID = Done (w, d', None)
        ∧ legacyWellFormed LegacyLRU.Free d'
        ∧ LegacyLRU.items d' = LegacyLRU.items d
        ∧ LegacyLRU.level (LegacyLRU.base d') = LegacyLRU.level (LegacyLRU.base d).
Proof.
  intros Hw [Hm Hidx]. unfold LegacyLRU.getLayer. rewrite Hm.
  cbn [LegacyLRU.RLock].
  destruct (LegacyLRU.items d !! LegacyLRU.ChainID l) as [e|] eqn:He.
  - cbn [LegacyLRU.RUnlock LegacyLRU.Lock].
    pose proof Hidx as (_ & Hmap & _).
    destruct (Hmap _ _ He) as (Hin & i & Hv & Hc).
    cbn [LegacyLRU.evictList LegacyLRU.withMutex]. rewrite Hv.
    cbn [LegacyLRU.unlocking LegacyLRU.withList LegacyLRU.base LegacyLRU.cacheL
         LegacyLRU.Unlock].
    eexists. split; [reflexivity|].
    split; [split; [reflexivity|]|split; reflexivity]. simpl.
    apply legacyIndexed_MoveToFront.
    apply (legacyIndexed_Store _ _ _ i); [exact Hidx|exact Hv|reflexivity].
  - cbn [LegacyLRU.RUnlock].
    eexists. split; [reflexivity|].
    split; [split; [reflexivity|exact Hidx]|split; reflexivity].
Qed.

Lemma legacy_removeImages_safe (l : LegacyLRU.Layer) (rootID : string) (ids : list string) :
  ∀ (w : W) (d : LegacyLRU.lruLayerCacheDriver),
    P w → legacyWellFormed LegacyLRU.Writer d →
    ∃ w' d', LegacyLRU.removeImages w d l rootID ids = Done (w', d', None)
             ∧ P w' ∧ legacyWellFormed LegacyLRU.Writer d'
             ∧ LegacyLRU.items d' ⊆ LegacyLRU.items d.
Proof.
  induction ids as [|id ids IH]; intros w d Hw Hwf.
  - exists w, d. split; [reflexivity|]. split; [exact Hw|]. split; [exact Hwf|reflexivity].
  - cbn [LegacyLRU.removeImages].
    set (w1 := if bool_decide _ then _ else w).
    assert (P w1) as Hw1.
    { subst w1. case_bool_decide; [|exact Hw].
      destruct Hkeep as (_ & _ & _ & Hdel & _). apply Hdel, Hw. }
    pose proof Hwf as [Hm Hidx]. rewrite Hm. cbn [LegacyLRU.Unlock].
    destruct (legacy_removeLayer_safe w1 (LegacyLRU.withMutex d LegacyLRU.Free) l id
                EmptyString rootID Hw1 (legacyWellFormed_withMutex _ _ d Hwf))
      as (d2 & err & -> & Hwf2 & Hsub2).
    pose proof Hwf2 as [Hm2 _]. rewrite Hm2. cbn [LegacyLRU.Lock].
    destruct (IH w1 (LegacyLRU.withMutex d2 LegacyLRU.Writer) Hw1
                (legacyWellFormed_withMutex _ _ d2 Hwf2))
      as (w' & d' & -> & Hw' & Hwf' & Hsub').
    exists w', d'. split; [reflexivity|]. split; [exact Hw'|]. split; [exact Hwf'|].
    etrans; [exact Hsub'|exact Hsub2].
Qed.

Lemma legacy_evict_safe (w : W) (d : LegacyLRU.lruLayerCacheDriver)
    (imgID rootID : string) :
  P w → legacyWellFormed LegacyLRU.Writer d →
  ∃ w' d' err, LegacyLRU.evict w d imgID rootID = Done (w', d', err)
               ∧ P w' ∧ legacyWellFormed LegacyLRU.Writer d'
               ∧ LegacyLRU.items d' ⊆ LegacyLRU.items d.
Proof.
  intros Hw Hwf. pose proof Hwf as [Hm Hidx]. unfold LegacyLRU.evict.
  destruct (Back (LegacyLRU.evictList d)) as [e|] eqn:Hback.
  - pose proof Hidx as (_ & Hmap & Hlist).
    destruct (Hlist e (last_Some_elem_of _ _ Hback)) as [k Hk].
    destruct (Hmap k e Hk) as (_ & i & Hv & _). rewrite Hv.
    destruct (LegacyLRU.DiffSize (LegacyLRU.layer i)) as [size|msg].
    + destruct (existsb _ _).
      * eexists _, _, _. split; [reflexivity|]. split; [exact Hw|].
        split; [|reflexivity]. split; [exact Hm|].
        apply legacyIndexed_MoveToFront, Hidx.
      * destruct Hkeep as (Hstore & _ & Hrel & _).
        rewrite (Hstore w Hw). cbn [negb].
        specialize (Hrel w (LegacyLRU.layer i) Hw).
        destruct (LegacyLRU.ReleaseSingle w (LegacyLRU.layer i)) as [w1 [[|]|msg]];
          simpl in Hrel.
        -- destruct (legacy_removeImages_safe (LegacyLRU.layer i) rootID
                       (elements (LegacyLRU.images i)) w1 d Hrel Hwf)
             as (w' & d' & Hrun & Hrest).
           exists w', d', None. split; [exact Hrun|exact Hrest].
        -- eexists _, _, _. split; [reflexivity|]. split; [exact Hrel|].
           split; [exact Hwf|reflexivity].
        -- eexists _, _, _. split; [reflexivity|]. split; [exact Hrel|].
           split; [exact Hwf|reflexivity].
    + eexists _, _, _. split; [reflexivity|]. split; [exact Hw|].
      split; [exact Hwf|reflexivity].
  - eexists _, _, _. split; [reflexivity|]. split; [exact Hw|].
    split; [exact Hwf|reflexivity].
Qed.

Lemma legacy_evictLoop_safe (size : Z) (imgID rootID : string) (fuel : nat) :
  ∀ (w : W) (d : LegacyLRU.lruLayerCacheDriver),
    P w → legacyWellFormed LegacyLRU.Writer d →
    match LegacyLRU.evictLoop fuel w d size imgID rootID with
    | Done (w', d', _) =>
        P w' ∧ legacyWellFormed LegacyLRU.Writer d'
        ∧ LegacyLRU.items d' ⊆ LegacyLRU.items d
    | Panic => False
    | OutOfFuel => True
    end.
Proof.
  induction fuel as [|fuel IH]; intros w d Hw Hwf; cbn [LegacyLRU.evictLoop];
    destruct (_ <? _); try exact I;
    try (split; [exact Hw|split; [exact Hwf|reflexivity]]).
  destruct (legacy_evict_safe w d imgID rootID Hw Hwf)
    as (w1 & d1 & err & -> & Hw1 & Hwf1 & Hsub1).
  destruct err as [err|].
  - split; [exact Hw1|]. split; [exact Hwf1|exact Hsub1].
  - specialize (IH w1 d1 Hw1 Hwf1).
    destruct (LegacyLRU.evictLoop fuel w1 d1 size imgID rootID)
      as [[[w2 d2] err2]| |]; try exact IH.
    destruct IH as (Hw2 & Hwf2 & Hsub2).
    split; [exact Hw2|]. split; [exact Hwf2|]. etrans; [exact Hsub2|exact Hsub1].
Qed.

Lemma legacy_putLayer_safe (fuel : nat) (w : W) (d : LegacyLRU.lruLayerCacheDriver)
    (l : LegacyLRU.Layer) (imgID childID rootID : string) :
  P w → legacyWellFormed LegacyLRU.Free d →
  legacySafe P LegacyLRU.Free true (LegacyLRU.putLayer fuel w d l imgID childID rootID).
Proof.
  intros Hw Hwf. pose proof Hwf as [Hm Hidx]. unfold LegacyLRU.putLayer.
  destruct (LegacyLRU.DiffSize l) as [size|msg]; [|split; assumption].
  rewrite Hm. cbn [LegacyLRU.Lock LegacyLRU.withMutex LegacyLRU.items LegacyLRU.evictList].
  destruct (LegacyLRU.items d !! LegacyLRU.ChainID l) as [e|] eqn:He.
  - pose proof Hidx as (_ & Hmap & _).
    destruct (Hmap _ _ He) as (_ & i & Hv & _). rewrite Hv.
    cbn [LegacyLRU.unlocking LegacyLRU.withList LegacyLRU.base LegacyLRU.cacheL
         LegacyLRU.Unlock legacySafe].
    split; [exact Hw|]. split; [reflexivity|]. simpl.
    apply legacyIndexed_MoveToFront.
    apply (legacyIndexed_Store _ _ _ i); [exact Hidx|exact Hv|reflexivity].
  - pose proof (legacy_evictLoop_safe size imgID rootID fuel w
                  (LegacyLRU.withMutex d LegacyLRU.Writer) Hw
                  (legacyWellFormed_withMutex _ _ d Hwf)) as Hloop.
    fold (LegacyLRU.withMutex d LegacyLRU.Writer).
    destruct (LegacyLRU.evictLoop fuel w (LegacyLRU.withMutex d LegacyLRU.Writer)
                size imgID rootID) as [[[w2 d2] [err|]]| |];
      [| |destruct Hloop|reflexivity].
    + destruct Hloop as (Hw2 & [Hm2 Hidx2] & _).
      cbn [LegacyLRU.unlocking]. rewrite Hm2. cbn [LegacyLRU.Unlock legacySafe].
      split; [exact Hw2|]. split; [reflexivity|exact Hidx2].
    + destruct Hloop as (Hw2 & [Hm2 Hidx2] & Hsub2).
      set (i := LegacyLRU.mkItem l _ _).
      assert (LegacyLRU.items d2 !! LegacyLRU.ChainID (LegacyLRU.layer i) = None) as Hnew.
      { exact (lookup_weaken_None _ _ _ He Hsub2). }
      pose proof (legacyIndexed_PushFront _ _ i Hidx2 Hnew) as Hpush.
      cbn [PushFront LegacyLRU.unlocking LegacyLRU.base LegacyLRU.cacheL].
      rewrite Hm2. cbn [LegacyLRU.Unlock legacySafe].
      split; [exact Hw2|]. split; [reflexivity|exact Hpush].
Qed.

Lemma legacy_applyFrom_safe (spin : bool) (f : LegacyLRU.layerFunc) (imgID : string)
    (chainIDs : list string) :
  (∀ w d l childID rootID, P w → legacyWellFormed LegacyLRU.Free d →
     legacySafe P LegacyLRU.Free spin (f w d l imgID childID rootID)) →
  ∀ n : nat, (n ≤ length chainIDs)%nat →
    ∀ (w : W) (d : LegacyLRU.lruLayerCacheDriver),
      P w → legacyWellFormed LegacyLRU.Free d →
      legacySafe P LegacyLRU.Free spin (LegacyLRU.applyFrom f w d imgID chainIDs n).
Proof.
  intros Hf. induction n as [|i IH]; intros Hn w d Hw Hwf.
  - split; assumption.
  - destruct (lookup_lt_is_Some_2 chainIDs i ltac:(lia)) as [chainID Hi].
    destruct (lookup_lt_is_Some_2 chainIDs 0 ltac:(lia)) as [rootID H0].
    cbn [LegacyLRU.applyFrom]. rewrite Hi, H0.
    destruct Hkeep as (_ & Hpeek & _). specialize (Hpeek w chainID Hw).
    destruct (LegacyLRU.Peek w chainID) as [w1 [l|msg]]; simpl in Hpeek;
      [|split; assumption].
    assert (∃ childID, (if (i <? length chainIDs - 1)%nat then chainIDs !! S i
                        else Some EmptyString) = Some childID) as [childID ->].
    { destruct (Nat.ltb_spec i (length chainIDs - 1)) as [Hlt|_]; [|eauto].
      apply (lookup_lt_is_Some_2 chainIDs (S i)). lia. }
    specialize (Hf w1 d l childID rootID Hpeek Hwf).
    destruct (f w1 d l imgID childID rootID) as [[[w2 d2] [err|]]| |];
      try exact Hf.
    destruct Hf as [Hw2 Hwf2]. apply IH; [lia|exact Hw2|exact Hwf2].
Qed.

Lemma legacy_applyFuncToLayers_safe (spin : bool) (f : LegacyLRU.layerFunc)
    (img : LegacyLRU.Image) (w : W) (d : LegacyLRU.lruLayerCacheDriver) :
  (∀ w d l childID rootID, P w → legacyWellFormed LegacyLRU.Free d →
     legacySafe P LegacyLRU.Free spin (f w d l (LegacyLRU.ID img) childID rootID)) →
  LegacyLRU.RootFS img ≠ None →
  P w → legacyWellFormed LegacyLRU.Free d →
  legacySafe P LegacyLRU.Free spin (LegacyLRU.applyFuncToLayers img f w d).
Proof.
  intros Hf Hroot Hw Hwf. unfold LegacyLRU.applyFuncToLayers.
  destruct (LegacyLRU.hasLayerStore w); [|split; assumption]. cbn [negb].
  destruct (LegacyLRU.RootFS img) as [diffIDs|]; [|congruence].
  apply legacy_applyFrom_safe; [exact Hf|lia|exact Hw|exact Hwf].
Qed.

Lemma legacy_Put_safe (fuel : nat) (w : W) (d : LegacyLRU.lruLayerCacheDriver)
    (img : option LegacyLRU.Image) :
  P w → legacyWellFormed LegacyLRU.Free d →
  legacySafe P LegacyLRU.Free true (LegacyLRU.Put fuel w d img).
Proof.
  intros Hw Hwf. unfold LegacyLRU.Put.
  destruct img as [img|]; [|split; assumption].
  destruct (LegacyLRU.RootFS img) as [diffIDs|] eqn:Hroot; [|split; assumption].
  unfold LegacyLRU.checkImageSize.
  pose proof Hkeep as (Hstore & Hpeek & _).
  rewrite (Hstore w Hw). cbn [negb].
  specialize (Hpeek w (LegacyLRU.CreateChainID diffIDs) Hw).
  destruct (LegacyLRU.Peek w (LegacyLRU.CreateChainID diffIDs)) as [w1 [top|msg]];
    simpl in Hpeek; [|split; assumption].
  destruct (LegacyLRU.Size top) as [topSize|msg]; [|split; assumption].
  destruct (_ <? _); [split; assumption|].
  apply legacy_applyFuncToLayers_safe; [|congruence|exact Hpeek|exact Hwf].
  intros w0 d0 l childID rootID. apply legacy_putLayer_safe.
Qed.

Lemma legacy_loadImages_safe (fuel : nat) (imgs : list (string * LegacyLRU.Image)) :
  ∀ (w : W) (d : LegacyLRU.lruLayerCacheDriver),
    P w → legacyWellFormed LegacyLRU.Free d →
    match LegacyLRU.loadImages fuel w d imgs with
    | Done (w', d') => P w' ∧ legacyWellFormed LegacyLRU.Free d'
    | Panic => False
    | OutOfFuel => True
    end.
Proof.
  induction imgs as [|[id img] imgs IH]; intros w d Hw Hwf; cbn [LegacyLRU.loadImages].
  - split; assumption.
  - pose proof (legacy_Put_safe fuel w d (Some img) Hw Hwf) as Hput.
    destruct (LegacyLRU.Put fuel w d (Some img)) as [[[w1 d1] err]| |];
      [|destruct Hput|exact I].
    destruct Hput as [Hw1 Hwf1]. apply IH; assumption.
Qed.

(** X17: the legacy driver never crashes and keeps its invariants.  From a
    state where the mutex is free, every key of the index resolves to a
    linked element that holds the layer with this chain ID, and every
    linked element is indexed, with a layer store in place: [Put] returns
    or goes on evicting for ever, [Get] and [Remove] of images with a
    [RootFS] return, and each time the mutex is free again and the
    invariants hold; the driver [newCacheDriver] builds and loads is in
    such a state.  No lock is taken twice, no unlocked mutex is unlocked
    and no element is read that holds nothing. *)
Theorem legacy_driver_safe (RAMInBytes : string → Z + string) (fuel : nat) (w : W)
    (d : LegacyLRU.lruLayerCacheDriver) :
  P w → legacyWellFormed LegacyLRU.Free d →
  (∀ img, legacySafe P LegacyLRU.Free true (LegacyLRU.Put fuel w d img))
  ∧ (∀ id,
       (∀ img, (LegacyLRU.Get w id).2 = inl img → LegacyLRU.RootFS img ≠ None) →
       legacySafe P LegacyLRU.Free false (LegacyLRU.GetImage w d id))
  ∧ (∀ img,
       (∀ i, img = Some i → LegacyLRU.RootFS i ≠ None) →
       legacySafe P LegacyLRU.Free false (LegacyLRU.Remove w d img))
  ∧ (∀ driver capacityStr,
       match LegacyLRU.newCacheDriver RAMInBytes fuel driver capacityStr w with
       | Done (w', d') => P w' ∧ legacyWellFormed LegacyLRU.Free d'
       | Panic => False
       | OutOfFuel => True
       end).
Proof.
  intros Hw Hwf. split; [|split; [|split]].
  - intros img. apply legacy_Put_safe; assumption.
  - intros id Hroot. unfold LegacyLRU.GetImage.
    destruct Hkeep as (_ & _ & _ & _ & Hget). specialize (Hget w id Hw).
    destruct (LegacyLRU.Get w id) as [w1 [img|msg]]; simpl in Hget, Hroot;
      [|split; assumption].
    apply legacy_applyFuncToLayers_safe; [|apply Hroot; reflexivity|exact Hget|exact Hwf].
    intros w0 d0 l childID rootID Hw0 Hwf0.
    destruct (legacy_getLayer_safe w0 d0 l (LegacyLRU.ID img) childID rootID Hw0 Hwf0)
      as (d' & -> & Hwf' & _). split; assumption.
  - intros [img|] Hroot; [|split; assumption]. unfold LegacyLRU.Remove.
    apply legacy_applyFuncToLayers_safe; [|apply Hroot; reflexivity|exact Hw|exact Hwf].
    intros w0 d0 l childID rootID Hw0 Hwf0.
    destruct (legacy_removeLayer_safe w0 d0 l (LegacyLRU.ID img) childID rootID Hw0 Hwf0)
      as (d' & err & -> & Hwf' & _). split; assumption.
  - intros driver capacityStr. unfold LegacyLRU.newCacheDriver, LegacyLRU.loadExistingImages.
    apply legacy_loadImages_safe; [exact Hw|].
    destruct (bool_decide _); apply newLRULayerCacheDriver_wellFormed.
Qed.
End LegacySafety.
Lemma legacy_applyFuncToLayers_visits_witness :
  LegacyLRU.RootFS legacyImgR = Some ["sha256:r1"%string; "sha256:r2"%string]
  ∧ LegacyLRU.applyFuncToLayers legacyImgR (LegacyLRU.putLayer 5) depotR
                                (LegacyLRU.newLRULayerCacheDriver 100) =
    visitAll (LegacyLRU.putLayer 5) depotR (LegacyLRU.newLRULayerCacheDriver 100) "R"
      [("sha256:r1+sha256:r2"%string, EmptyString, "sha256:r1"%string);
       ("sha256:r1"%string, "sha256:r1+sha256:r2"%string, "sha256:r1"%string)].
Proof.
  split; [reflexivity|].
  exact (legacy_applyFuncToLayers_visits (LegacyLRU.putLayer 5) depotR
           (LegacyLRU.newLRULayerCacheDriver 100) legacyImgR
           ["sha256:r1"%string; "sha256:r2"%string] eq_refl).
Defined.

Lemma depot_storesKeep : storesKeep (λ w : Depot, depotHasStore w = true).
Proof.
  split; [intros w Hw; exact Hw|].
  split; [intros w c Hw; exact Hw|].
  split; [intros w l Hw; exact Hw|].
  split; [intros w id Hw; exact Hw|intros w id Hw; exact Hw].
Qed.

Lemma legacyDriverP_wellFormed : legacyWellFormed LegacyLRU.Free legacyDriverP.
Proof.
  split; [reflexivity|]. split; [|split]; simpl.
  - intros e He. apply list_elem_of_singleton in He. subst e. lia.
  - intros k e Hk. apply lookup_singleton_Some in Hk as [<- <-].
    split; [apply list_elem_of_here|].
    eexists. split; [vm_compute; reflexivity|reflexivity].
  - intros e He. apply list_elem_of_singleton in He. subst e.
    exists "sha256:p"%string. vm_compute. reflexivity.
Qed.

Lemma legacy_driver_safe_witness :
  (∀ img, legacySafe (λ w : Depot, depotHasStore w = true) LegacyLRU.Free true
            (LegacyLRU.Put 9 (depotPQ ["P"%string] (inl true)) legacyDriverP img))
  ∧ (∀ id,
       (∀ img, (LegacyLRU.Get (depotPQ ["P"%string] (inl true)) id).2 = inl img →
               LegacyLRU.RootFS img ≠ None) →
       legacySafe (λ w : Depot, depotHasStore w = true) LegacyLRU.Free false
         (LegacyLRU.GetImage (depotPQ ["P"%string] (inl true)) legacyDriverP id))
  ∧ (∀ img,
       (∀ i, img = Some i → LegacyLRU.RootFS i ≠ None) →
       legacySafe (λ w : Depot, depotHasStore w = true) LegacyLRU.Free false
         (LegacyLRU.Remove (depotPQ ["P"%string] (inl true)) legacyDriverP img))
  ∧ (∀ driver capacityStr,
       match LegacyLRU.newCacheDriver wholeRAMInBytes 9 driver capacityStr
               (depotPQ ["P"%string] (inl true)) with
       | Done (w', d') => depotHasStore w' = true ∧ legacyWellFormed LegacyLRU.Free d'
       | Panic => False
       | OutOfFuel => True
       end).
Proof.
  exact (legacy_driver_safe (λ w : Depot, depotHasStore w = true) depot_storesKeep
           wholeRAMInBytes 9 (depotPQ ["P"%string] (inl true)) legacyDriverP
           eq_refl legacyDriverP_wellFormed).
Defined.

(** *** The level of the legacy driver *)

Lemma add64_wrap64 (a b : Z) : add64 (wrap64 a) b = wrap64 (a + b).
Proof.
  unfold add64, wrap64.
  replace ((a + 2 ^ 63) mod 2 ^ 64 - 2 ^ 63 + b + 2 ^ 63)
    with ((a + 2 ^ 63) mod 2 ^ 64 + b) by lia.
  rewrite Zplus_mod_idemp_l. f_equal. f_equal. lia.
Qed.

Lemma keysSize_perm (sz : string → Z) (l l' : list (string * Element)) :
  l ≡ₚ l' →
  foldr (λ kv acc, sz kv.1 + acc) 0 l = foldr (λ kv acc, sz kv.1 + acc) 0 l'.
Proof.
  induction 1 as [|x l l' _ IH|x y l|l l' l'' _ IH1 _ IH2]; simpl.
  - reflexivity.
  - rewrite IH. reflexivity.
  - lia.
  - congruence.
Qed.

Lemma keysSize_insert (sz : string → Z) (its : gmap string Element) (k : string)
    (e : Element) :
  its !! k = None → keysSize sz (<[k := e]> its) = sz k + keysSize sz its.
Proof.
  intros Hk. unfold keysSize.
  rewrite (keysSize_perm sz _ _ (map_to_list_insert its k e Hk)). reflexivity.
Qed.

Lemma keysSize_delete (sz : string → Z) (its : gmap string Element) (k : string)
    (e : Element) :
  its !! k = Some e → keysSize sz its = sz k + keysSize sz (delete k its).
Proof.
  intros Hk. unfold keysSize.
  rewrite <- (keysSize_perm sz _ _ (map_to_list_delete its k e Hk)). reflexivity.
Qed.

Lemma legacyAccounted_cells (sz : string → Z) (lvl : Z) (its : gmap string Element)
    (l l' : List LegacyLRU.imageCacheItem) :
  cells l' = cells l → legacyAccounted sz lvl its l → legacyAccounted sz lvl its l'.
Proof.
  intros Hcells [Hlvl Hsz]. split; [exact Hlvl|].
  intros k e i Hk Hv. unfold Value in *. rewrite Hcells in Hv. exact (Hsz k e i Hk Hv).
Qed.

Lemma legacyAccounted_MoveToFront (sz : string → Z) (lvl : Z)
    (its : gmap string Element) (l : List LegacyLRU.imageCacheItem) (e : Element) :
  legacyAccounted sz lvl its l → legacyAccounted sz lvl its (MoveToFront l e).
Proof.
  apply legacyAccounted_cells. unfold MoveToFront. destruct (linked l e); reflexivity.
Qed.

Lemma legacyAccounted_MoveBefore (sz : string → Z) (lvl : Z)
    (its : gmap string Element) (l : List LegacyLRU.imageCacheItem) (e mark : Element) :
  legacyAccounted sz lvl its l → legacyAccounted sz lvl its (LegacyLRU.MoveBefore l e mark).
Proof.
  apply legacyAccounted_cells. unfold LegacyLRU.MoveBefore. destruct (_ && _); reflexivity.
Qed.

Lemma legacyAccounted_Store (sz : string → Z) (lvl : Z) (its : gmap string Element)
    (l : List LegacyLRU.imageCacheItem) (e : Element) (i i' : LegacyLRU.imageCacheItem) :
  legacyAccounted sz lvl its l → Value l e = Some i →
  LegacyLRU.layer i' = LegacyLRU.layer i →
  legacyAccounted sz lvl its (Store l e i').
Proof.
  intros [Hlvl Hsz] Hv Hlayer. split; [exact Hlvl|].
  intros k x ix Hk Hvx. unfold Value, Store in *. simpl in Hvx.
  destruct (decide (x = e)) as [->|Hne].
  - rewrite lookup_insert_eq in Hvx. injection Hvx as <-.
    rewrite Hlayer. exact (Hsz k e i Hk Hv).
  - rewrite lookup_insert_ne in Hvx by congruence. exact (Hsz k x ix Hk Hvx).
Qed.

Lemma legacyAccounted_Remove (sz : string → Z) (lvl : Z) (its : gmap string Element)
    (l : List LegacyLRU.imageCacheItem) (k : string) (e : Element) :
  legacyAccounted sz lvl its l → its !! k = Some e →
  legacyAccounted sz (sub64 lvl (sz k)) (delete k its) (Remove l e).
Proof.
  intros [Hlvl Hsz] Hk. split.
  - rewrite Hlvl, sub64_wrap64, (keysSize_delete sz its k e Hk). f_equal. lia.
  - intros k' x ix Hk' Hvx. apply lookup_delete_Some in Hk' as [_ Hk'].
    exact (Hsz k' x ix Hk' Hvx).
Qed.

Lemma legacyAccounted_PushFront (sz : string → Z) (lvl : Z) (its : gmap string Element)
    (l : List LegacyLRU.imageCacheItem) (k : string) (i : LegacyLRU.imageCacheItem) :
  legacyIndexed its l → legacyAccounted sz lvl its l →
  its !! k = None →
  LegacyLRU.DiffSize (LegacyLRU.layer i) = inl (sz k) →
  legacyAccounted sz (add64 lvl (sz k)) (<[k := (PushFront l i).2]> its) (PushFront l i).1.
Proof.
  intros (Hf & Hmap & _) [Hlvl Hsz] Hk Hsize. split.
  - rewrite Hlvl, add64_wrap64, (keysSize_insert sz its k _ Hk). f_equal. lia.
  - intros k' x ix Hk' Hvx. unfold Value in *. simpl in *.
    apply lookup_insert_Some in Hk' as [[<- <-]|[Hne Hk']].
    + rewrite lookup_insert_eq in Hvx. injection Hvx as <-. exact Hsize.
    + destruct (Hmap k' x Hk') as [Hx _]. specialize (Hf x Hx).
      rewrite lookup_insert_ne in Hvx by lia. exact (Hsz k' x ix Hk' Hvx).
Qed.
Lemma legacyBalanced_withMutex (sz : string → Z) (d : LegacyLRU.lruLayerCacheDriver)
    (m : LegacyLRU.RWMutex) :
  legacyBalanced sz d → legacyBalanced sz (LegacyLRU.withMutex d m).
Proof. intros Hbal. exact Hbal. Qed.

Lemma legacy_removeChild_balanced (sz : string → Z)
    (d d' : LegacyLRU.lruLayerCacheDriver) (p : LegacyLRU.Layer) (childID : string) :
  legacyBalanced sz d →
  LegacyLRU.removeChild d p childID = Done d' →
  legacyBalanced sz d'.
Proof.
  intros Hbal. unfold LegacyLRU.removeChild.
  destruct (LegacyLRU.items d !! LegacyLRU.ChainID p) as [e|];
    [|intros Heq; inversion Heq; subst; exact Hbal].
  destruct (Value (LegacyLRU.evictList d) e) as [i|] eqn:Hv; [|discriminate].
  intros Heq. inversion Heq; subst. unfold legacyBalanced. simpl.
  apply (legacyAccounted_Store _ _ _ _ _ i); [exact Hbal|exact Hv|reflexivity].
Qed.

Section LegacyLevel.
Context {W : Type} `{LegacyLRU.Stores W}.
Variable P : W → Prop.
Hypothesis Hkeep : storesKeep P.
Variable sz : string → Z.
Hypothesis Hagree : sizesAgree P sz.

Lemma legacy_removeLayer_balanced (w w' : W) (d d' : LegacyLRU.lruLayerCacheDriver)
    (l : LegacyLRU.Layer) (imgID childID rootID : string) (err : option LegacyLRU.Error) :
  legacyWellFormed LegacyLRU.Free d → legacyBalanced sz d → sizedBy sz l →
  LegacyLRU.removeLayer w d l imgID childID rootID = Done (w', d', err) →
  legacyBalanced sz d'.
Proof.
  intros [Hm Hidx] Hbal Hsized. unfold LegacyLRU.removeLayer. rewrite Hm.
  cbn [LegacyLRU.RLock].
  destruct (LegacyLRU.items d !! LegacyLRU.ChainID l) as [e|] eqn:He.
  - cbn [LegacyLRU.RUnlock LegacyLRU.Lock].
    pose proof Hidx as (_ & Hmap & _).
    destruct (Hmap _ _ He) as (Hin & i & Hv & Hc).
    cbn [LegacyLRU.evictList LegacyLRU.withMutex]. rewrite Hv.
    destruct (LegacyLRU.DiffSize l) as [size|msg] eqn:Hsize.
    + pose proof (Hsized size Hsize) as ->.
      set (i' := LegacyLRU.mkItem _ _ _).
      set (d4 := LegacyLRU.withList (LegacyLRU.withMutex d LegacyLRU.Writer)
                   (Store (LegacyLRU.evictList d) e i')).
      assert (legacyBalanced sz d4) as Hbal4.
      { unfold legacyBalanced. simpl.
        apply (legacyAccounted_Store _ _ _ _ _ i); [exact Hbal|exact Hv|reflexivity]. }
      destruct (_ && _).
      * set (d5 := LegacyLRU.mkDriver _ _ _).
        assert (legacyBalanced sz d5) as Hbal5.
        { unfold legacyBalanced. simpl.
          apply legacyAccounted_Remove; [exact Hbal4|exact He]. }
        destruct (LegacyLRU.Parent l) as [p|].
        -- destruct (LegacyLRU.removeChild d5 p (LegacyLRU.ChainID l)) as [d6| |] eqn:Hrc;
             cbn [LegacyLRU.unlocking]; try discriminate.
           pose proof (legacy_removeChild_balanced sz d5 d6 p _ Hbal5 Hrc) as Hbal6.
           destruct (LegacyLRU.Unlock _); [|discriminate].
           intros Heq. inversion Heq; subst. exact Hbal6.
        -- cbn [LegacyLRU.unlocking]. destruct (LegacyLRU.Unlock _); [|discriminate].
           intros Heq. inversion Heq; subst. exact Hbal5.
      * destruct (LegacyLRU.items d4 !! rootID) as [re|];
          cbn [LegacyLRU.unlocking]; (destruct (LegacyLRU.Unlock _); [|discriminate]);
          intros Heq; inversion Heq; subst; [|exact Hbal4].
        unfold legacyBalanced. simpl. apply legacyAccounted_MoveBefore. exact Hbal4.
    + cbn [LegacyLRU.unlocking]. destruct (LegacyLRU.Unlock _); [|discriminate].
      intros Heq. inversion Heq; subst. exact Hbal.
  - cbn [LegacyLRU.RUnlock]. intros Heq. inversion Heq; subst. exact Hbal.
Qed.

Lemma legacy_removeImages_balanced (l : LegacyLRU.Layer) (rootID : string)
    (ids : list string) :
  ∀ (w w' : W) (d d' : LegacyLRU.lruLayerCacheDriver) (err : option LegacyLRU.Error),
    P w → legacyWellFormed LegacyLRU.Writer d → legacyBalanced sz d → sizedBy sz l →
    LegacyLRU.removeImages w d l rootID ids = Done (w', d', err) →
    legacyBalanced sz d'.
Proof.
  induction ids as [|id ids IH]; intros w w' d d' err Hw Hwf Hbal Hsized;
    cbn [LegacyLRU.removeImages].
  - intros Heq. inversion Heq; subst. exact Hbal.
  - set (w1 := if bool_decide _ then _ else w).
    assert (P w1) as Hw1.
    { subst w1. case_bool_decide; [|exact Hw].
      destruct Hkeep as (_ & _ & _ & Hdel & _). apply Hdel, Hw. }
    pose proof Hwf as [Hm Hidx]. rewrite Hm. cbn [LegacyLRU.Unlock].
    destruct (legacy_removeLayer_safe P w1 (LegacyLRU.withMutex d LegacyLRU.Free) l id
                EmptyString rootID Hw1 (legacyWellFormed_withMutex _ _ d Hwf))
      as (d2 & err2 & Hrun & Hwf2 & _).
    rewrite Hrun.
    pose proof (legacy_removeLayer_balanced _ _ _ _ l id EmptyString rootID err2
                  (legacyWellFormed_withMutex _ _ d Hwf) Hbal Hsized Hrun) as Hbal2.
    pose proof Hwf2 as [Hm2 _]. rewrite Hm2. cbn [LegacyLRU.Lock].
    apply IH; [exact Hw1|exact (legacyWellFormed_withMutex _ _ d2 Hwf2)|exact Hbal2|
               exact Hsized].
Qed.

Lemma legacy_evict_balanced (w w' : W) (d d' : LegacyLRU.lruLayerCacheDriver)
    (imgID rootID : string) (err : option LegacyLRU.Error) :
  P w → legacyWellFormed LegacyLRU.Writer d → legacyBalanced sz d →
  LegacyLRU.evict w d imgID rootID = Done (w', d', err) →
  legacyBalanced sz d'.
Proof.
  intros Hw Hwf Hbal. pose proof Hwf as [Hm Hidx]. unfold LegacyLRU.evict.
  destruct (Back (LegacyLRU.evictList d)) as [e|] eqn:Hback;
    [|intros Heq; inversion Heq; subst; exact Hbal].
  pose proof Hidx as (_ & Hmap & Hlist).
  destruct (Hlist e (last_Some_elem_of _ _ Hback)) as [k Hk].
  destruct (Hmap k e Hk) as (_ & i & Hv & Hchain). rewrite Hv.
  assert (sizedBy sz (LegacyLRU.layer i)) as Hsized.
  { intros size Hsize. destruct Hbal as [_ Hsz].
    rewrite (Hsz k e i Hk Hv) in Hsize. rewrite Hchain. congruence. }
  destruct (LegacyLRU.DiffSize (LegacyLRU.layer i)) as [size|msg];
    [|intros Heq; inversion Heq; subst; exact Hbal].
  destruct (existsb _ _).
  - intros Heq. inversion Heq; subst. unfold legacyBalanced. simpl.
    apply legacyAccounted_MoveToFront. exact Hbal.
  - destruct (negb _); [discriminate|].
    destruct Hkeep as (_ & _ & Hrel & _). specialize (Hrel w (LegacyLRU.layer i) Hw).
    destruct (LegacyLRU.ReleaseSingle w (LegacyLRU.layer i)) as [w1 [[|]|msg]];
      simpl in Hrel; try (intros Heq; inversion Heq; subst; exact Hbal).
    apply legacy_removeImages_balanced; assumption.
Qed.

Lemma legacy_evictLoop_balanced (size : Z) (imgID rootID : string) (fuel : nat) :
  ∀ (w w' : W) (d d' : LegacyLRU.lruLayerCacheDriver) (err : option LegacyLRU.Error),
    P w → legacyWellFormed LegacyLRU.Writer d → legacyBalanced sz d →
    LegacyLRU.evictLoop fuel w d size imgID rootID = Done (w', d', err) →
    legacyBalanced sz d'.
Proof.
  induction fuel as [|fuel IH]; intros w w' d d' err Hw Hwf Hbal;
    cbn [LegacyLRU.evictLoop];
    (destruct (_ <? _); [|intros Heq; inversion Heq; subst; exact Hbal]);
    [discriminate|].
  destruct (legacy_evict_safe P Hkeep w d imgID rootID Hw Hwf)
    as (w1 & d1 & err1 & Hrun & Hw1 & Hwf1 & _).
  pose proof (legacy_evict_balanced _ _ _ _ _ _ _ Hw Hwf Hbal Hrun) as Hbal1.
  rewrite Hrun. destruct err1 as [err1|].
  - intros Heq. inversion Heq; subst. exact Hbal1.
  - apply IH; assumption.
Qed.

Lemma legacy_putLayer_balanced (fuel : nat) (w w' : W)
    (d d' : LegacyLRU.lruLayerCacheDriver) (l : LegacyLRU.Layer)
    (imgID childID rootID : string) (err : option LegacyLRU.Error) :
  P w → legacyWellFormed LegacyLRU.Free d → legacyBalanced sz d → sizedBy sz l →
  LegacyLRU.putLayer fuel w d l imgID childID rootID = Done (w', d', err) →
  legacyBalanced sz d'.
Proof.
  intros Hw Hwf Hbal Hsized. pose proof Hwf as [Hm Hidx]. unfold LegacyLRU.putLayer.
  destruct (LegacyLRU.DiffSize l) as [size|msg] eqn:Hsize;
    [|intros Heq; inversion Heq; subst; exact Hbal].
  pose proof (Hsized size Hsize) as ->.
  rewrite Hm. cbn [LegacyLRU.Lock LegacyLRU.withMutex LegacyLRU.items LegacyLRU.evictList].
  destruct (LegacyLRU.items d !! LegacyLRU.ChainID l) as [e|] eqn:He.
  - pose proof Hidx as (_ & Hmap & _).
    destruct (Hmap _ _ He) as (_ & i & Hv & _). rewrite Hv.
    cbn [LegacyLRU.unlocking LegacyLRU.withList LegacyLRU.base LegacyLRU.cacheL
         LegacyLRU.Unlock].
    intros Heq. inversion Heq; subst. unfold legacyBalanced. simpl.
    apply legacyAccounted_MoveToFront.
    apply (legacyAccounted_Store _ _ _ _ _ i); [exact Hbal|exact Hv|reflexivity].
  - fold (LegacyLRU.withMutex d LegacyLRU.Writer).
    pose proof (legacy_evictLoop_safe P Hkeep (sz (LegacyLRU.ChainID l)) imgID rootID fuel w
                  (LegacyLRU.withMutex d LegacyLRU.Writer) Hw
                  (legacyWellFormed_withMutex _ _ d Hwf)) as Hloop.
    destruct (LegacyLRU.evictLoop fuel w (LegacyLRU.withMutex d LegacyLRU.Writer)
                (sz (LegacyLRU.ChainID l)) imgID rootID)
      as [[[w2 d2] err2]| |] eqn:Hrun; try discriminate.
    destruct Hloop as (Hw2 & [Hm2 Hidx2] & Hsub2).
    pose proof (legacy_evictLoop_balanced _ _ _ _ _ _ _ _ _ Hw
                  (legacyWellFormed_withMutex _ _ d Hwf) Hbal Hrun) as Hbal2.
    destruct err2 as [err2|].
    + cbn [LegacyLRU.unlocking]. rewrite Hm2. cbn [LegacyLRU.Unlock].
      intros Heq. inversion Heq; subst. exact Hbal2.
    + set (i := LegacyLRU.mkItem l _ _).
      assert (LegacyLRU.items d2 !! LegacyLRU.ChainID l = None) as Hnew
        by exact (lookup_weaken_None _ _ _ He Hsub2).
      pose proof (legacyAccounted_PushFront sz _ _ _ (LegacyLRU.ChainID l) i
                    Hidx2 Hbal2 Hnew Hsize) as Hpush.
      cbn [PushFront LegacyLRU.unlocking LegacyLRU.base LegacyLRU.cacheL].
      rewrite Hm2. cbn [LegacyLRU.Unlock].
      intros Heq. inversion Heq; subst. exact Hpush.
Qed.

Lemma legacy_applyFrom_balanced (spin : bool) (f : LegacyLRU.layerFunc) (imgID : string)
    (chainIDs : list string) :
  (∀ w d l childID rootID, P w → legacyWellFormed LegacyLRU.Free d →
     legacySafe P LegacyLRU.Free spin (f w d l imgID childID rootID)) →
  (∀ w w' d d' l childID rootID err,
     P w → legacyWellFormed LegacyLRU.Free d → legacyBalanced sz d → sizedBy sz l →
     f w d l imgID childID rootID = Done (w', d', err) → legacyBalanced sz d') →
  ∀ n : nat, (n ≤ length chainIDs)%nat →
    ∀ (w w' : W) (d d' : LegacyLRU.lruLayerCacheDriver) (err : option LegacyLRU.Error),
      P w → legacyWellFormed LegacyLRU.Free d → legacyBalanced sz d →
      LegacyLRU.applyFrom f w d imgID chainIDs n = Done (w', d', err) →
      legacyBalanced sz d'.
Proof.
  intros Hsafe Hbalf. induction n as [|i IH]; intros Hn w w' d d' err Hw Hwf Hbal.
  - intros Heq. inversion Heq; subst. exact Hbal.
  - destruct (lookup_lt_is_Some_2 chainIDs i ltac:(lia)) as [chainID Hi].
    destruct (lookup_lt_is_Some_2 chainIDs 0 ltac:(lia)) as [rootID H0].
    cbn [LegacyLRU.applyFrom]. rewrite Hi, H0.
    destruct Hkeep as (_ & Hpeek & _). specialize (Hpeek w chainID Hw).
    pose proof (Hagree w chainID) as Hsized.
    destruct (LegacyLRU.Peek w chainID) as [w1 [l|msg]]; simpl in Hpeek, Hsized;
      [|intros Heq; inversion Heq; subst; exact Hbal].
    specialize (Hsized l Hw eq_refl).
    destruct (if (i <? length chainIDs - 1)%nat then chainIDs !! S i
              else Some EmptyString) as [childID|]; [|discriminate].
    specialize (Hsafe w1 d l childID rootID Hpeek Hwf).
    destruct (f w1 d l imgID childID rootID) as [[[w2 d2] err2]| |] eqn:Hrun;
      try discriminate.
    destruct Hsafe as [Hw2 Hwf2].
    pose proof (Hbalf _ _ _ _ _ _ _ _ Hpeek Hwf Hbal Hsized Hrun) as Hbal2.
    destruct err2 as [err2|].
    + intros Heq. inversion Heq; subst. exact Hbal2.
    + apply IH; [lia|exact Hw2|exact Hwf2|exact Hbal2].
Qed.

Lemma legacy_applyFuncToLayers_balanced (spin : bool) (f : LegacyLRU.layerFunc)
    (img : LegacyLRU.Image) (w w' : W) (d d' : LegacyLRU.lruLayerCacheDriver)
    (err : option LegacyLRU.Error) :
  (∀ w d l childID rootID, P w → legacyWellFormed LegacyLRU.Free d →
     legacySafe P LegacyLRU.Free spin (f w d l (LegacyLRU.ID img) childID rootID)) →
  (∀ w w' d d' l childID rootID err,
     P w → legacyWellFormed LegacyLRU.Free d → legacyBalanced sz d → sizedBy sz l →
     f w d l (LegacyLRU.ID img) childID rootID = Done (w', d', err) →
     legacyBalanced sz d') →
  P w → legacyWellFormed LegacyLRU.Free d → legacyBalanced sz d →
  LegacyLRU.applyFuncToLayers img f w d = Done (w', d', err) →
  legacyBalanced sz d'.
Proof.
  intros Hsafe Hbalf Hw Hwf Hbal. unfold LegacyLRU.applyFuncToLayers.
  destruct (negb _); [intros Heq; inversion Heq; subst; exact Hbal|].
  destruct (LegacyLRU.RootFS img) as [diffIDs|]; [|discriminate].
  apply (legacy_applyFrom_balanced spin f); try assumption. lia.
Qed.

(** X18: the level of the legacy driver is the sum of the diff sizes of
    the layers it holds.  When the layer store hands out, for each chain
    ID, layers of one diff size, [Put], [Get] and [Remove] keep this
    balance, as an [int64]: [putLayer] adds the diff size together with
    the key, [removeLayer] subtracts it together with the key, whether it
    is called by [Remove] or by [evict], and a layer that stays cached
    because of its children keeps counting. *)
Theorem legacy_level_balanced (fuel : nat) (w : W) (d : LegacyLRU.lruLayerCacheDriver) :
  P w → legacyWellFormed LegacyLRU.Free d → legacyBalanced sz d →
  (∀ img w' d' err,
     LegacyLRU.Put fuel w d img = Done (w', d', err) → legacyBalanced sz d')
  ∧ (∀ id w' d' err,
       LegacyLRU.GetImage w d id = Done (w', d', err) → legacyBalanced sz d')
  ∧ (∀ img w' d' err,
       LegacyLRU.Remove w d img = Done (w', d', err) → legacyBalanced sz d').
Proof.
  intros Hw Hwf Hbal. split; [|split].
  - intros [img|] w' d' err; [|intros Heq; inversion Heq; subst; exact Hbal].
    unfold LegacyLRU.Put.
    destruct (LegacyLRU.RootFS img) as [diffIDs|];
      [|intros Heq; inversion Heq; subst; exact Hbal].
    unfold LegacyLRU.checkImageSize.
    destruct (negb _); [discriminate|].
    destruct Hkeep as (_ & Hpeek & _).
    specialize (Hpeek w (LegacyLRU.CreateChainID diffIDs) Hw).
    destruct (LegacyLRU.Peek w (LegacyLRU.CreateChainID diffIDs)) as [w1 [top|msg]];
      simpl in Hpeek; [|intros Heq; inversion Heq; subst; exact Hbal].
    destruct (LegacyLRU.Size top) as [topSize|msg];
      [|intros Heq; inversion Heq; subst; exact Hbal].
    destruct (_ <? _); [intros Heq; inversion Heq; subst; exact Hbal|].
    apply (legacy_applyFuncToLayers_balanced true); try assumption.
    + intros w0 d0 l childID rootID. apply legacy_putLayer_safe, Hkeep.
    + intros w0 w0' d0 d0' l childID rootID err0. apply legacy_putLayer_balanced.
  - intros id w' d' err. unfold LegacyLRU.GetImage.
    destruct Hkeep as (_ & _ & _ & _ & Hget). specialize (Hget w id Hw).
    destruct (LegacyLRU.Get w id) as [w1 [img|msg]]; simpl in Hget;
      [|intros Heq; inversion Heq; subst; exact Hbal].
    apply (legacy_applyFuncToLayers_balanced false); try assumption.
    + intros w0 d0 l childID rootID Hw0 Hwf0.
      destruct (legacy_getLayer_safe P w0 d0 l (LegacyLRU.ID img) childID rootID Hw0 Hwf0)
        as (d1 & -> & Hwf1 & _). split; assumption.
    + intros w0 w0' d0 d0' l childID rootID err0 Hw0 Hwf0 Hbal0 _.
      pose proof Hwf0 as [_ Hidx0].
      unfold LegacyLRU.getLayer.
      destruct (LegacyLRU.RLock _); [|discriminate].
      destruct (LegacyLRU.items d0 !! LegacyLRU.ChainID l) as [e|] eqn:He.
      * destruct (LegacyLRU.RUnlock _); [|discriminate].
        destruct (LegacyLRU.Lock _); [|discriminate].
        cbn [LegacyLRU.evictList LegacyLRU.withMutex].
        destruct (Value (LegacyLRU.evictList d0) e) as [i|] eqn:Hv; [|discriminate].
        cbn [LegacyLRU.unlocking]. destruct (LegacyLRU.Unlock _); [|discriminate].
        intros Heq. inversion Heq; subst. unfold legacyBalanced. simpl.
        apply legacyAccounted_MoveToFront.
        apply (legacyAccounted_Store _ _ _ _ _ i); [exact Hbal0|exact Hv|reflexivity].
      * destruct (LegacyLRU.RUnlock _); [|discriminate].
        intros Heq. inversion Heq; subst. exact Hbal0.
  - intros [img|] w' d' err; [|intros Heq; inversion Heq; subst; exact Hbal].
    unfold LegacyLRU.Remove.
    apply (legacy_applyFuncToLayers_balanced false); try assumption.
    + intros w0 d0 l childID rootID Hw0 Hwf0.
      destruct (legacy_removeLayer_safe P w0 d0 l (LegacyLRU.ID img) childID rootID
                  Hw0 Hwf0) as (d1 & err1 & -> & Hwf1 & _). split; assumption.
    + intros w0 w0' d0 d0' l childID rootID err0 _. apply legacy_removeLayer_balanced.
Qed.
End LegacyLevel.

Lemma depotPQ_storesKeep :
  storesKeep (λ w : Depot, depotHasStore w = true
                           ∧ depotLayers w = depotLayers (depotPQ [] (inl true))).
Proof.
  split; [intros w [Hw _]; exact Hw|].
  split; [intros w c Hw; exact Hw|].
  split; [intros w l Hw; exact Hw|].
  split; [intros w id Hw; exact Hw|intros w id Hw; exact Hw].
Qed.

Lemma depotPQ_sizesAgree :
  sizesAgree (λ w : Depot, depotHasStore w = true
                           ∧ depotLayers w = depotLayers (depotPQ [] (inl true)))
             (λ _, 60).
Proof.
  intros w chainID l [_ Hlayers]. simpl. rewrite Hlayers. simpl.
  repeat case_bool_decide; intros Heq; inversion Heq; subst;
    intros size Hsize; simpl in Hsize; congruence.
Qed.

Lemma legacyDriverP_balanced : legacyBalanced (λ _, 60) legacyDriverP.
Proof.
  split; [vm_compute; reflexivity|].
  intros k e i Hk Hv. simpl in Hk. apply lookup_singleton_Some in Hk as [<- <-].
  unfold Value in Hv. simpl in Hv. rewrite lookup_singleton_eq in Hv.
  injection Hv as <-. reflexivity.
Qed.

Lemma legacy_level_balanced_witness :
  (∀ img w' d' err,
     LegacyLRU.Put 9 (depotPQ [] (inl true)) legacyDriverP img = Done (w', d', err) →
     legacyBalanced (λ _, 60) d')
  ∧ (∀ id w' d' err,
       LegacyLRU.GetImage (depotPQ [] (inl true)) legacyDriverP id = Done (w', d', err) →
       legacyBalanced (λ _, 60) d')
  ∧ (∀ img w' d' err,
       LegacyLRU.Remove (depotPQ [] (inl true)) legacyDriverP img = Done (w', d', err) →
       legacyBalanced (λ _, 60) d').
Proof.
  exact (legacy_level_balanced _ depotPQ_storesKeep (λ _, 60) depotPQ_sizesAgree 9
           (depotPQ [] (inl true)) legacyDriverP (conj eq_refl eq_refl)
           legacyDriverP_wellFormed legacyDriverP_balanced).
Defined.

(** *** What [evict] of the legacy driver removes *)

Lemma unlink_insertBefore (mark e : Element) (es : list Element) :
  unlink e (LegacyLRU.insertBefore mark e es) = unlink e es.
Proof.
  unfold unlink. induction es as [|x es IH]; [reflexivity|].
  cbn [LegacyLRU.insertBefore]. case_bool_decide as Hx.
  - rewrite filter_cons_False by (intros Hne; apply Hne; reflexivity). reflexivity.
  - rewrite !(filter_cons _ x). destruct (decide (x ≠ e)); rewrite IH; reflexivity.
Qed.

Lemma unlink_idemp (e : Element) (es : list Element) :
  unlink e (unlink e es) = unlink e es.
Proof. apply unlink_absent, unlink_gone. Qed.

Lemma unlink_MoveBefore {V : Type} (l : List V) (e mark : Element) :
  unlink e (order (LegacyLRU.MoveBefore l e mark)) = unlink e (order l).
Proof.
  unfold LegacyLRU.MoveBefore. destruct (_ && _); [|reflexivity]. simpl.
  rewrite unlink_insertBefore. apply unlink_idemp.
Qed.

Lemma legacy_removeChild_frame (d d' : LegacyLRU.lruLayerCacheDriver)
    (p : LegacyLRU.Layer) (childID : string) :
  LegacyLRU.removeChild d p childID = Done d' →
  LegacyLRU.items d' = LegacyLRU.items d
  ∧ order (LegacyLRU.evictList d') = order (LegacyLRU.evictList d)
  ∧ LegacyLRU.base d' = LegacyLRU.base d.
Proof.
  unfold LegacyLRU.removeChild.
  destruct (LegacyLRU.items d !! LegacyLRU.ChainID p) as [e|];
    [|intros Heq; inversion Heq; subst; split; [|split]; reflexivity].
  destruct (Value (LegacyLRU.evictList d) e) as [i|]; [|discriminate].
  intros Heq. inversion Heq; subst. split; [|split]; reflexivity.
Qed.

Section LegacyEvicts.
Context {W : Type} `{LegacyLRU.Stores W}.

Lemma legacy_removeImages_removes (l : LegacyLRU.Layer) (size : Z) (rootID : string)
    (e : Element) :
  LegacyLRU.DiffSize l = inl size →
  ∀ (ids : list string) (w : W) (d : LegacyLRU.lruLayerCacheDriver)
    (i : LegacyLRU.imageCacheItem),
    NoDup ids → ids ≠ [] →
    legacyWellFormed LegacyLRU.Writer d →
    LegacyLRU.items d !! LegacyLRU.ChainID l = Some e →
    Value (LegacyLRU.evictList d) e = Some i →
    LegacyLRU.images i = list_to_set ids →
    LegacyLRU.children i = ∅ →
    ∃ w' d',
      LegacyLRU.removeImages w d l rootID ids = Done (w', d', None)
      ∧ LegacyLRU.items d' = delete (LegacyLRU.ChainID l) (LegacyLRU.items d)
      ∧ order (LegacyLRU.evictList d') = unlink e (order (LegacyLRU.evictList d))
      ∧ LegacyLRU.base d' =
          LegacyLRU.mkBase (LegacyLRU.capacity (LegacyLRU.base d))
                           (sub64 (LegacyLRU.level (LegacyLRU.base d)) size)
                           LegacyLRU.Writer.
Proof.
  intros Hsize. induction ids as [|id rest IH];
    intros w d i Hnodup Hne Hwf He Hv Himgs Hkids; [congruence|].
  apply NoDup_cons in Hnodup as [Hid Hnodup].
  cbn [LegacyLRU.removeImages].
  set (w1 := if bool_decide _ then _ else w).
  pose proof Hwf as [Hm Hidx]. rewrite Hm. cbn [LegacyLRU.Unlock].
  unfold LegacyLRU.removeLayer.
  cbn [LegacyLRU.withMutex LegacyLRU.base LegacyLRU.cacheL LegacyLRU.RLock
       LegacyLRU.items LegacyLRU.evictList LegacyLRU.capacity LegacyLRU.level].
  rewrite He. cbn [LegacyLRU.RUnlock LegacyLRU.Lock]. rewrite Hv, Hsize.
  set (i' := LegacyLRU.mkItem _ _ _).
  assert (LegacyLRU.images i' = list_to_set rest) as Himgs'.
  { subst i'. cbn [LegacyLRU.images]. rewrite Himgs.
    apply set_eq. intros x.
    rewrite elem_of_difference, list_to_set_cons, elem_of_union, elem_of_singleton,
      elem_of_list_to_set.
    split; [tauto|]. intros Hx. split; [tauto|]. intros Heq.
    subst x. exact (Hid Hx). }
  assert (legacyIndexed (LegacyLRU.items d) (Store (LegacyLRU.evictList d) e i')) as Hidx4
    by (apply (legacyIndexed_Store _ _ _ i); [exact Hidx|exact Hv|reflexivity]).
  destruct rest as [|id2 rest'].
  - rewrite (bool_decide_eq_true_2 (LegacyLRU.images i' = ∅)) by exact Himgs'.
    rewrite (bool_decide_eq_true_2 (LegacyLRU.children i' = ∅)) by exact Hkids.
    cbn [andb LegacyLRU.withList LegacyLRU.base LegacyLRU.items LegacyLRU.evictList
         LegacyLRU.capacity LegacyLRU.level LegacyLRU.cacheL].
    set (d5 := LegacyLRU.mkDriver _ _ _).
    assert (legacyWellFormed LegacyLRU.Writer d5) as Hwf5.
    { split; [reflexivity|]. simpl. apply legacyIndexed_Remove; [exact Hidx4|exact He]. }
    destruct (LegacyLRU.Parent l) as [p|].
    + destruct (legacy_removeChild_safe _ d5 p (LegacyLRU.ChainID l) Hwf5)
        as (d6 & Hrc & _ & _).
      destruct (legacy_removeChild_frame d5 d6 p _ Hrc) as (Hit6 & Hord6 & Hbase6).
      rewrite Hrc. cbn [LegacyLRU.unlocking]. rewrite Hbase6.
      cbn [LegacyLRU.base LegacyLRU.cacheL LegacyLRU.Unlock LegacyLRU.withMutex
           LegacyLRU.Lock LegacyLRU.removeImages].
      eexists _, _. split; [reflexivity|]. simpl.
      rewrite Hit6, Hord6, Hbase6. split; [reflexivity|]. split; reflexivity.
    + cbn [LegacyLRU.unlocking LegacyLRU.base LegacyLRU.cacheL LegacyLRU.Unlock
           LegacyLRU.withMutex LegacyLRU.Lock LegacyLRU.removeImages].
      eexists _, _. split; [reflexivity|]. split; [reflexivity|]. split; reflexivity.
  - rewrite (bool_decide_eq_false_2 (LegacyLRU.images i' = ∅)).
    2:{ rewrite Himgs'. intros Hempty.
        assert (id2 ∈ (∅ : gset string)) as Hin
          by (rewrite <- Hempty; apply elem_of_list_to_set, list_elem_of_here).
        exact (not_elem_of_empty _ Hin). }
    cbn [andb LegacyLRU.withList LegacyLRU.base LegacyLRU.items LegacyLRU.evictList
         LegacyLRU.capacity LegacyLRU.level LegacyLRU.cacheL].
    destruct (_ !! rootID) as [re|];
      cbn [LegacyLRU.unlocking LegacyLRU.base LegacyLRU.cacheL LegacyLRU.Unlock
           LegacyLRU.withMutex LegacyLRU.withList LegacyLRU.Lock LegacyLRU.items
           LegacyLRU.evictList LegacyLRU.capacity LegacyLRU.level].
    + match goal with
      | |- context [LegacyLRU.removeImages w1 ?dx] => set (d2 := dx)
      end.
      destruct (IH w1 d2 i' Hnodup ltac:(discriminate)) as (w' & d' & Hrun & Hit & Hord & Hb).
      * split; [reflexivity|]. simpl. apply legacyIndexed_MoveBefore, Hidx4.
      * exact He.
      * unfold Value. subst d2. simpl.
        unfold LegacyLRU.MoveBefore. destruct (_ && _); simpl; apply lookup_insert_eq.
      * exact Himgs'.
      * exact Hkids.
      * exists w', d'. split; [exact Hrun|]. rewrite Hit, Hord, Hb. subst d2. simpl.
        rewrite unlink_MoveBefore. split; [reflexivity|]. split; reflexivity.
    + match goal with
      | |- context [LegacyLRU.removeImages w1 ?dx] => set (d2 := dx)
      end.
      destruct (IH w1 d2 i' Hnodup ltac:(discriminate)) as (w' & d' & Hrun & Hit & Hord & Hb).
      * split; [reflexivity|]. exact Hidx4.
      * exact He.
      * unfold Value. subst d2. simpl. apply lookup_insert_eq.
      * exact Himgs'.
      * exact Hkids.
      * exists w', d'. split; [exact Hrun|]. rewrite Hit, Hord, Hb. subst d2. simpl.
        split; [reflexivity|]. split; reflexivity.
Qed.

(** X19: what [evict] of the legacy driver removes.  When the layer at the
    back of the list has no children and at least one image, none of its
    images is the image being put or has a delete conflict, and the layer
    store releases the layer, [evict] answers nil, and afterwards the key of
    the layer is gone from the index, its element is gone from the list,
    the other elements keep their order, and the level is lower by the
    diff size of the layer, once, however many images the layer had; the
    mutex is held again. *)
Theorem legacy_evict_removes (w : W) (d : LegacyLRU.lruLayerCacheDriver)
    (imgID rootID : string) (e : Element) (i : LegacyLRU.imageCacheItem) (size : Z) :
  legacyWellFormed LegacyLRU.Writer d →
  Back (LegacyLRU.evictList d) = Some e →
  Value (LegacyLRU.evictList d) e = Some i →
  LegacyLRU.DiffSize (LegacyLRU.layer i) = inl size →
  LegacyLRU.images i ≠ ∅ →
  LegacyLRU.children i = ∅ →
  (∀ id, id ∈ LegacyLRU.images i →
     id ≠ imgID ∧ LegacyLRU.checkImageDeleteConflict w id = false) →
  LegacyLRU.hasLayerStore w = true →
  (LegacyLRU.ReleaseSingle w (LegacyLRU.layer i)).2 = inl true →
  ∃ w' d',
    LegacyLRU.evict w d imgID rootID = Done (w', d', None)
    ∧ LegacyLRU.items d' =
        delete (LegacyLRU.ChainID (LegacyLRU.layer i)) (LegacyLRU.items d)
    ∧ order (LegacyLRU.evictList d') = unlink e (order (LegacyLRU.evictList d))
    ∧ LegacyLRU.base d' =
        LegacyLRU.mkBase (LegacyLRU.capacity (LegacyLRU.base d))
                         (sub64 (LegacyLRU.level (LegacyLRU.base d)) size)
                         LegacyLRU.Writer.
Proof.
  intros Hwf Hback Hv Hsize Himgs Hkids Hfree Hstore Hrel.
  unfold LegacyLRU.evict. rewrite Hback, Hv, Hsize.
  assert (existsb (λ id, bool_decide (id = imgID)
                         || LegacyLRU.checkImageDeleteConflict w id)
                  (elements (LegacyLRU.images i)) = false) as Hex.
  { destruct (existsb _ _) eqn:Hex; [|reflexivity].
    apply existsb_exists in Hex as (id & Hin & Hid).
    apply list_elem_of_In, elem_of_elements in Hin.
    destruct (Hfree id Hin) as [Hne Hno]. rewrite Hno, orb_false_r in Hid.
    apply bool_decide_eq_true_1 in Hid. contradiction. }
  rewrite Hex, Hstore. cbn [negb].
  destruct (LegacyLRU.ReleaseSingle w (LegacyLRU.layer i)) as [w1 r].
  simpl in Hrel. subst r.
  apply (legacy_removeImages_removes (LegacyLRU.layer i) size rootID e Hsize
           (elements (LegacyLRU.images i)) w1 d i).
  - apply NoDup_elements.
  - intros Hnil. apply elements_empty_inv in Hnil. apply leibniz_equiv in Hnil.
    contradiction.
  - exact Hwf.
  - destruct Hwf as (_ & _ & Hmap & Hlist).
    destruct (Hlist e (last_Some_elem_of _ _ Hback)) as [k Hk].
    destruct (Hmap k e Hk) as (_ & i0 & Hv0 & Hchain).
    rewrite Hv in Hv0. injection Hv0 as <-. rewrite Hchain. exact Hk.
  - exact Hv.
  - symmetry. apply list_to_set_elements_L.
  - exact Hkids.
Qed.
End LegacyEvicts.

Lemma legacy_evict_removes_witness :
  (∃ w' d',
     LegacyLRU.evict (depotPQ [] (inl true))
                     (LegacyLRU.withMutex legacyDriverP LegacyLRU.Writer)
                     "Q" "sha256:q" = Done (w', d', None)
     ∧ LegacyLRU.items d' = delete "sha256:p"%string (LegacyLRU.items legacyDriverP)
     ∧ order (LegacyLRU.evictList d') = unlink 0%nat [0%nat]
     ∧ LegacyLRU.base d' = LegacyLRU.mkBase 100 (sub64 60 60) LegacyLRU.Writer)
  ∧ ∃ w' d',
      LegacyLRU.Put 9 (depotPQ [] (inl true)) legacyDriverP (Some legacyImgQ) =
        Done (w', d', None)
      ∧ LegacyLRU.items d' = {[ "sha256:q"%string := 1%nat ]}
      ∧ order (LegacyLRU.evictList d') = [1%nat]
      ∧ LegacyLRU.base d' = LegacyLRU.mkBase 100 60 LegacyLRU.Free
      ∧ depotCalls w' =
          [DepotPeek "sha256:q"; DepotPeek "sha256:q"; DepotReleaseSingle "sha256:p";
           DepotDeleteReference "P"].
Proof.
  split.
  - apply (legacy_evict_removes (depotPQ [] (inl true))
             (LegacyLRU.withMutex legacyDriverP LegacyLRU.Writer) "Q" "sha256:q" 0%nat
             (LegacyLRU.mkItem legacyLayerP {[ "P"%string ]} ∅) 60).
    + exact (legacyWellFormed_withMutex _ LegacyLRU.Writer _ legacyDriverP_wellFormed).
    + reflexivity.
    + vm_compute. reflexivity.
    + reflexivity.
    + intros Hempty. cbn [LegacyLRU.images] in Hempty.
      assert ("P"%string ∈ (∅ : gset string)) as Hin.
      { rewrite <- Hempty. apply elem_of_singleton_2. reflexivity. }
      exact (not_elem_of_empty _ Hin).
    + reflexivity.
    + intros id Hid. cbn [LegacyLRU.images] in Hid.
      apply elem_of_singleton_1 in Hid. subst id.
      split; [discriminate|reflexivity].
    + reflexivity.
    + reflexivity.
  - eexists _, _. split; [vm_compute; reflexivity|].
    split; [vm_compute; reflexivity|]. split; [reflexivity|].
    split; reflexivity.
Defined.
